(** * Kaspeak SDK: payload codec, identifier algebra, decode pipeline,
      bounded dedup set and ingestion engine.

    A shallow embedding of the TypeScript sources:
      - [src/crypto/utils.ts]        -> [Module Utils]
      - [src/utils/limited-hash-set.ts] -> [Module LimitedHashSet]
      - [src/models/payload.ts]      -> [Module Payload]
      - [src/crypto/secp256k1.ts]    -> [Module Secp256k1]
      - [src/crypto/identifier.ts]   -> [Module Identifier]
      - [src/sdk/message-serializer.ts], [message-registry.ts]
                                     -> [Module MessageSerializer]
      - [src/sdk/kaspeak.ts]         -> [Module Kaspeak]

    Conventions.  A JS [bigint] and an integral JS [number] are a [Z]; a
    [Uint8Array] is a [list byte]; a JS string is the list of its UTF-16 code
    units ([jsstring]); a function that can throw returns a [result].  The
    truncating [/] and [%] of [bigint] are [Z.quot] and [Z.rem]; [>>] is
    [Z.shiftr]. *)

From Stdlib Require Import ZArith Lia Znumtheory Strings.Byte.
From stdpp Require Import base option list gmap sets strings sorting.

Local Open Scope Z_scope.

(** ** Exceptions *)

Inductive error : Type :=
| Error (msg : string)
| RangeError (msg : string)
| SyntaxError (msg : string)
| TypeError (msg : string)
| LoopBudget.

Inductive result (A : Type) : Type :=
| Ok (a : A)
| Err (e : error).
Arguments Ok {A} a.
Arguments Err {A} e.

Definition bind {A B} (r : result A) (k : A -> result B) : result B :=
  match r with
  | Ok a => k a
  | Err e => Err e
  end.

Notation "x <- e ;; k" := (bind e (fun x => k))
  (at level 100, e at next level, right associativity).

Definition isOk {A} (r : result A) : bool :=
  match r with Ok _ => true | Err _ => false end.

(** ** Loops

    [iterP p step s] runs [step] at most [p] times from [s]; [step] answers
    [inl s'] to go on and [inr r] to leave the loop.  The budget is a binary
    number, so that a loop whose trip count is bounded by a 256-bit value
    still evaluates. *)

Fixpoint iterP {S R : Type} (p : positive) (step : S -> S + R) (s : S) : S + R :=
  match p with
  | xH => step s
  | xO p' =>
      match iterP p' step s with
      | inl s' => iterP p' step s'
      | inr r => inr r
      end
  | xI p' =>
      match step s with
      | inl s0 =>
          match iterP p' step s0 with
          | inl s' => iterP p' step s'
          | inr r => inr r
          end
      | inr r => inr r
      end
  end.

Definition runLoop {S R : Type} (budget : Z) (step : S -> S + R) (s : S) : result R :=
  match iterP (Z.to_pos budget) step s with
  | inr r => Ok r
  | inl _ => Err LoopBudget
  end.

(** ** JS strings and bytes *)

Definition jsstring : Type := list Z.

Definition js (s : string) : jsstring :=
  (fun a => Z.of_nat (Ascii.nat_of_ascii a)) <$> String.list_ascii_of_string s.

Definition b2z (b : byte) : Z := Z.of_N (Byte.to_N b).

Definition z2b (z : Z) : byte :=
  match Byte.of_N (Z.to_N (z mod 256)) with
  | Some b => b
  | None => x00
  end.

Module Js.

(** [String.prototype.padStart(n, c)] for a one-unit filler [c]. *)
Definition padStart (n : nat) (c : Z) (s : jsstring) : jsstring :=
  replicate (n - length s)%nat c ++ s.

(** [String.prototype.padEnd(n, c)]. *)
Definition padEnd (n : nat) (c : Z) (s : jsstring) : jsstring :=
  s ++ replicate (n - length s)%nat c.

Fixpoint digitsAux (radix : Z) (fuel : nat) (n : Z) (acc : list Z) : list Z :=
  match fuel with
  | O => acc
  | S f =>
      if n <? radix then n :: acc
      else digitsAux radix f (n / radix) (n mod radix :: acc)
  end.

(** Digits of [n >= 0], most significant first. *)
Definition digits (radix n : Z) : list Z :=
  digitsAux radix (S (Z.to_nat (Z.log2 n))) n [].

Definition digitChar (d : Z) : Z := if d <? 10 then 48 + d else 87 + d.

(** [n.toString(radix)] for a [bigint] or an integral [number]. *)
Definition toString (radix n : Z) : jsstring :=
  if n <? 0 then 45 :: (digitChar <$> digits radix (- n))
  else digitChar <$> digits radix n.

(** Value of a character as a digit, for [parseInt] and [BigInt("0x..")]. *)
Definition digitVal (c : Z) : option Z :=
  if (48 <=? c) && (c <=? 57) then Some (c - 48)
  else if (97 <=? c) && (c <=? 122) then Some (c - 87)
  else if (65 <=? c) && (c <=? 90) then Some (c - 55)
  else None.

Definition digitIn (radix c : Z) : option Z :=
  match digitVal c with
  | Some d => if d <? radix then Some d else None
  | None => None
  end.

(** The digits of the longest prefix of [s] valid in [radix], folded. *)
Fixpoint parsePrefix (radix : Z) (s : jsstring) (acc : Z) : Z :=
  match s with
  | [] => acc
  | c :: s' =>
      match digitIn radix c with
      | Some d => parsePrefix radix s' (acc * radix + d)
      | None => acc
      end
  end.

(** [parseInt(s, radix)] on a string without leading blanks; [None] is
    [NaN]. *)
Definition parseInt (s : jsstring) (radix : Z) : option Z :=
  let '(neg, body) :=
    match s with
    | 45 :: r => (true, r)
    | 43 :: r => (false, r)
    | _ => (false, s)
    end in
  match body with
  | [] => None
  | c :: _ =>
      match digitIn radix c with
      | None => None
      | Some _ =>
          let v := parsePrefix radix body 0 in
          Some (if neg then - v else v)
      end
  end.

(** White space and line terminators ([StrWhiteSpaceChar]). *)
Definition isWhiteSpace (c : Z) : bool :=
  (c =? 9) || (c =? 10) || (c =? 11) || (c =? 12) || (c =? 13) || (c =? 32)
  || (c =? 160) || (c =? 5760) || ((8192 <=? c) && (c <=? 8202))
  || (c =? 8232) || (c =? 8233) || (c =? 8239) || (c =? 8287)
  || (c =? 12288) || (c =? 65279).

Fixpoint allDigits (radix : Z) (s : jsstring) : bool :=
  match s with
  | [] => true
  | c :: s' =>
      match digitIn radix c with
      | Some _ => allDigits radix s'
      | None => false
      end
  end.

Fixpoint dropLeadingSpace (s : jsstring) : jsstring :=
  match s with
  | c :: s' => if isWhiteSpace c then dropLeadingSpace s' else s
  | [] => []
  end.

Definition dropTrailingSpace (s : jsstring) : jsstring :=
  reverse (dropLeadingSpace (reverse s)).

End Js.

(** ** [src/crypto/utils.ts] *)

Module Utils.

Definition P : Z :=
  115792089237316195423570985008687907853269984665640564039457584007908834671663.
Definition TWO_512 : Z := Z.shiftl 1 512.
Definition MU : Z := TWO_512 ÷ P.

(** [HEX[i] = i.toString(16).padStart(2, "0")]. *)
Definition HEX (b : byte) : jsstring :=
  Js.padStart 2 48 (Js.toString 16 (b2z b)).

(** [DECODE] is a [Uint8Array(103)] holding the value of the characters
    [0-9], [A-F] and [a-f] and [0] elsewhere; an index past the table reads
    [undefined], which the bit operations of [hexToBytes] turn into [0]. *)
Definition DECODE (c : Z) : Z :=
  if (48 <=? c) && (c <? 58) then c - 48
  else if (65 <=? c) && (c <? 71) then c - 55
  else if (97 <=? c) && (c <? 103) then c - 87
  else 0.

Definition mod_ (a m : Z) : Z :=
  let r := Z.rem a m in
  if 0 <=? r then r else r + m.

(** Barrett reduction modulo [P]; the last loop is
    [while (r >= P) r -= P]. *)
Definition modP (x : Z) : Z :=
  let z := if x <? 0 then Z.rem x P + P else x in
  if z <? P then z
  else
    let q := Z.shiftr (z * MU) 512 in
    let r := z - q * P in
    let r := if r <? 0 then r + P else r in
    match iterP (Z.to_pos (r / P + 1))
            (fun r => if P <=? r then inl (r - P) else inr r) r with
    | inr r' => r'
    | inl r' => r'
    end.

(** *** Extended gcd, Lehmer's variant *)

Definition BASE : Z := Z.shiftl 1 30.

Record Inner : Type := mkInner
  { i_ah : Z; i_bh : Z; i_A : Z; i_B : Z; i_C : Z; i_D : Z }.

(** One turn of [while (bh + C && bh + D)]. *)
Definition innerStep (s : Inner) : Inner + Inner :=
  let '(mkInner ah bh A B C D) := s in
  if (bh + C =? 0) || (bh + D =? 0) then inr s
  else
    let q := (ah + A) ÷ (bh + C) in
    let q2 := (ah + B) ÷ (bh + D) in
    if negb (q =? q2) then inr s
    else inl (mkInner bh (ah - q * bh) C D (A - q * C) (B - q * D)).

Record Egcd : Type := mkEgcd
  { e_a : Z; e_b : Z; e_x : Z; e_y : Z; e_u : Z; e_v : Z }.

(** [q = a / b; [a, b] = [b, a - q * b]; [x, u] = [u, x - q * u];
    [y, v] = [v, y - q * v]]. *)
Definition euclidStep (s : Egcd) : Egcd :=
  let '(mkEgcd a b x y u v) := s in
  let q := a ÷ b in
  mkEgcd b (a - q * b) u v (x - q * u) (y - q * v).

Definition bitLength (b : Z) : Z := Z.of_nat (length (Js.toString 2 b)).

(** One turn of the first [while (b)] loop, with its [break]. *)
Definition outerStep (s : Egcd) : Egcd + result Egcd :=
  let '(mkEgcd a b x y u v) := s in
  if b =? 0 then inr (Ok s)
  else if b <? BASE then inr (Ok s)
  else
    let n := bitLength b - 30 in
    let ah := Z.shiftr a n in
    let bh := Z.shiftr b n in
    match runLoop (bh + 1) innerStep (mkInner ah bh 1 0 0 1) with
    | Err e => inr (Err e)
    | Ok (mkInner _ _ A B C D) =>
        if B =? 0 then inl (euclidStep s)
        else
          inl (mkEgcd (A * a + B * b) (C * a + D * b)
                      (A * x + B * u) (A * y + B * v)
                      (C * x + D * u) (C * y + D * v))
    end.

(** One turn of the second [while (b)] loop. *)
Definition finalStep (s : Egcd) : Egcd + Egcd :=
  if e_b s =? 0 then inr s else inl (euclidStep s).

Definition egcdLehmer (a b : Z) : result (Z * Z * Z) :=
  if (a <=? 0) || (b <=? 0) then Err (RangeError "a,b > 0")
  else
    r1 <- runLoop (b + 1) outerStep (mkEgcd a b 1 0 0 1) ;;
    s1 <- r1 ;;
    s2 <- runLoop (e_b s1 + 1) finalStep s1 ;;
    Ok (e_a s2, e_x s2, e_y s2).

Definition modInv (a n : Z) : result Z :=
  r <- egcdLehmer (mod_ a n) n ;;
  let '(g, x, _) := r in
  if g =? 1 then Ok (mod_ x n)
  else if g =? -1 then Ok (mod_ (- x) n)
  else Err (RangeError "not invertible").

(** *** 4-bit windowed exponentiation *)

(** [tbl[i] = (tbl[i - 1] * tbl[1]) % modulus] for the next [k] entries. *)
Fixpoint tblFrom (k : nat) (t1 modulus prev : Z) : list Z :=
  match k with
  | O => []
  | S k' =>
      let nx := Z.rem (prev * t1) modulus in
      nx :: tblFrom k' t1 modulus nx
  end.

Definition mkTbl (base modulus : Z) : list Z :=
  let t1 := Z.rem base modulus in
  1 :: t1 :: tblFrom 14 t1 modulus t1.

(** [bits.slice(i, j)]. *)
Definition slice (s : jsstring) (i j : nat) : jsstring :=
  take (j - i) (drop i s).

Definition chunkVal (s : jsstring) : Z :=
  match Js.parseInt s 2 with
  | Some v => v
  | None => 0
  end.

(** The [while (i < bits.length)] loop; each turn consumes four bits. *)
Fixpoint w4Loop (fuel : nat) (bits : jsstring) (tbl : list Z) (modulus : Z)
    (i : nat) (res : Z) : Z :=
  match fuel with
  | O => res
  | S f =>
      if (i <? length bits)%nat then
        let res := Nat.iter 4 (fun r => Z.rem (r * r) modulus) res in
        let chunk := chunkVal (slice bits i (i + 4)) in
        let res :=
          if chunk =? 0 then res
          else Z.rem (res * nth (Z.to_nat chunk) tbl 0) modulus in
        w4Loop f bits tbl modulus (i + 4) res
      else res
  end.

(** A negative exponent makes the JS function index the table with a
    negative number and return [undefined] or throw; every caller then
    throws a [TypeError], which is what the model returns. *)
Definition powModW4 (base exponent modulus : Z) : result Z :=
  if exponent =? 0 then Ok 1
  else if modulus =? 0 then Err (RangeError "Division by zero")
  else if exponent <? 0 then Err (TypeError "undefined is not a bigint")
  else
    let tbl := mkTbl base modulus in
    let bits := Js.toString 2 exponent in
    let first := if (length bits mod 4 =? 0)%nat then 4%nat
                 else (length bits mod 4)%nat in
    let res := nth (Z.to_nat (chunkVal (slice bits 0 first))) tbl 0 in
    Ok (w4Loop (length bits) bits tbl modulus first res).

(** *** Hex and integer conversions *)

(** [bytesToHex(bytes)] without the optional [byteSize]. *)
Definition bytesToHex (bytes : list byte) : jsstring :=
  mjoin (HEX <$> bytes).

Fixpoint hexPairs (hex : jsstring) : list byte :=
  match hex with
  | c1 :: c2 :: rest =>
      z2b (Z.lor (Z.shiftl (DECODE c1) 4) (DECODE c2)) :: hexPairs rest
  | _ => []
  end.

Definition hexToBytes (hex : jsstring) : result (list byte) :=
  if Z.odd (Z.of_nat (length hex)) then Err (Error "hex length must be even")
  else Ok (hexPairs hex).

(** [BigInt("0x" + hex)]: the digits may be followed by white space; no
    digit or a foreign character is a [SyntaxError]. *)
Definition BigInt0x (hex : jsstring) : result Z :=
  let t := Js.dropTrailingSpace hex in
  match t with
  | [] => Err (SyntaxError "Cannot convert to a BigInt")
  | _ =>
      if Js.allDigits 16 t then Ok (Js.parsePrefix 16 t 0)
      else Err (SyntaxError "Cannot convert to a BigInt")
  end.

Definition bytesToInt (bytes : list byte) : result Z :=
  BigInt0x (bytesToHex bytes).

Definition hexToInt (hex : jsstring) : result Z := BigInt0x hex.

Definition intToHex (a : Z) (byteSize : option nat) : jsstring :=
  let out := Js.toString 16 a in
  match byteSize with
  | None => out
  | Some n => Js.padStart (n * 2) 48 out
  end.

Definition intToBytes (integer : Z) (byteSize : option nat) : result (list byte) :=
  hexToBytes (intToHex integer byteSize).

(** *** Square-and-multiply exponentiation *)

(** One turn of [while (e > 0n)]: the state is [(result, b, e)]. *)
Definition powModStep (modulus : Z) (s : Z * Z * Z) : Z * Z * Z + Z :=
  let '(result, b, e) := s in
  if 0 <? e then
    let result :=
      if Z.land e 1 =? 0 then result else mod_ (result * b) modulus in
    inl (result, mod_ (b * b) modulus, Z.shiftr e 1)
  else inr result.

(** [powMod]; its first statement, [mod(base, modulus)], throws a
    [RangeError] when [modulus] is [0n]. *)
Definition powMod (base exponent modulus : Z) : result Z :=
  if modulus =? 0 then Err (RangeError "Division by zero")
  else
    runLoop (exponent + 1) (powModStep modulus)
            (1, mod_ base modulus, exponent).

End Utils.

#[global] Instance byte_eq_decision : EqDecision byte := byte_eq_dec.

(** ** [src/utils/limited-hash-set.ts] *)

Module LimitedHashSet.
Section Def.
Context {T : Type} `{Countable T}.

(** [queue] is the FIFO [Array<T>], [set] the backing [Set<T>]. *)
Record t : Type := mk
  { queue : list T; set : gset T; capacity : Z }.

Definition new (capacity : Z) : result t :=
  if capacity <? 1 then Err (RangeError "capacity must be positive")
  else Ok (mk [] ∅ capacity).

(** [queue.shift()] followed by [set.delete(oldest)]. *)
Definition evict (s : t) : t :=
  match queue s with
  | oldest :: rest => mk rest (set s ∖ {[oldest]}) (capacity s)
  | [] => s
  end.

Definition tryAdd (value : T) (s : t) : bool * t :=
  if decide (value ∈ set s) then (false, s)
  else
    let s1 :=
      if Z.of_nat (length (queue s)) =? capacity s then evict s else s in
    (true, mk (queue s1 ++ [value]) ({[value]} ∪ set s1) (capacity s1)).

Definition has (value : T) (s : t) : bool := bool_decide (value ∈ set s).

Definition size (s : t) : Z := Z.of_nat (length (queue s)).

Definition clear (s : t) : t := mk [] ∅ (capacity s).

(** A stream of [tryAdd] calls, oldest first. *)
Definition addAll (l : list T) (s : t) : t :=
  foldl (fun acc v => snd (tryAdd v acc)) s l.

End Def.
Arguments t T {_ _}.
End LimitedHashSet.

(** ** [src/crypto/secp256k1.ts] *)

Module Secp256k1.

Definition P : Z :=
  115792089237316195423570985008687907853269984665640564039457584007908834671663.
Definition N : Z :=
  115792089237316195423570985008687907852837564279074904382605163141518161494337.
Definition A : Z := 0.
Definition B : Z := 7.
Definition Gx : Z :=
  0x79be667ef9dcbbac55a06295ce870b07029bfcdb2dce28d959f2815b16f81798.
Definition Gy : Z :=
  0x483ada7726a3c4655da4fbfc0e1108a8fd17b448a68554199c47d08ffb10d4b8.

Definition sqr (x : Z) : Z := Utils.modP (x * x).
Definition mul (a b : Z) : Z := Utils.modP (a * b).

(** [for (let i = 0; i < k; i++) v = sqr(v)]. *)
Definition sqrN (k : nat) (v : Z) : Z := Nat.iter k sqr v.

Definition sqrtModSecp256k1 (n : Z) : result Z :=
  let x2 := mul (sqr n) n in
  let x3 := mul (sqr x2) n in
  let x6 := mul (sqrN 3 x3) x3 in
  let x9 := mul (sqrN 3 x6) x3 in
  let x11 := mul (sqrN 2 x9) x2 in
  let x22 := mul (sqrN 11 x11) x11 in
  let x44 := mul (sqrN 22 x22) x22 in
  let x88 := mul (sqrN 44 x44) x44 in
  let x176 := mul (sqrN 88 x88) x88 in
  let x220 := mul (sqrN 44 x176) x44 in
  let x223 := mul (sqrN 3 x220) x3 in
  let t1 := mul (sqrN 23 x223) x22 in
  let t1 := mul (sqrN 6 t1) x2 in
  let t1 := sqr t1 in
  let r := sqr t1 in
  if negb (Utils.modP (r * r) =? Utils.modP n) then Err (Error "no sqrt")
  else Ok r.

Record Point : Type := mkPoint { px : Z; py : Z; pz : Z }.

#[global] Instance Point_eq_decision : EqDecision Point.
Proof. solve_decision. Defined.

Definition fromAffine (x y : Z) : Point := mkPoint x y 1.

Definition basePoint : Point := mkPoint Gx Gy 1.

Definition Infinity : Point := mkPoint 0 1 0.

Definition isInfinity (p : Point) : bool :=
  (px p =? 0) && (py p =? 1) && (pz p =? 0).

Definition computeY (x : Z) (isOdd : bool) : result Point :=
  let rhs := Utils.modP (Z.rem (x * x) P * x + B) in
  y <- sqrtModSecp256k1 rhs ;;
  let y := if negb (Bool.eqb (Z.land y 1 =? 1) isOdd) then Utils.modP (- y) else y in
  Ok (fromAffine x y).

(** [Point.fromBytes]. *)
Definition fromBytes (publicKey : list byte) : result Point :=
  match publicKey with
  | b0 :: rest =>
      if (length publicKey =? 33)%nat && ((b2z b0 =? 2) || (b2z b0 =? 3)) then
        x <- Utils.bytesToInt rest ;;
        computeY x (b2z b0 =? 3)
      else if (length publicKey =? 65)%nat && (b2z b0 =? 4) then
        x <- Utils.bytesToInt (take 32 rest) ;;
        y <- Utils.bytesToInt (take 32 (drop 32 rest)) ;;
        Ok (fromAffine x y)
      else Err (Error "Invalid public key format")
  | [] => Err (Error "Invalid public key format")
  end.

Definition fromHex (publicKey : jsstring) : result Point :=
  bytes <- Utils.hexToBytes publicKey ;;
  fromBytes bytes.

Definition toAffine (p : Point) : result Point :=
  if pz p =? 1 then Ok (mkPoint (px p) (py p) 1)
  else if (px p =? 0) && (py p =? 0) && (pz p =? 0) then Ok (mkPoint 0 0 0)
  else
    iz <- Utils.modInv (pz p) P ;;
    Ok (fromAffine (Utils.modP (px p * iz)) (Utils.modP (py p * iz))).

Definition toCompressed (p : Point) : result (list byte) :=
  a <- toAffine p ;;
  let prefix := if Z.land (py a) 1 =? 0 then x02 else x03 in
  xb <- Utils.intToBytes (px a) (Some 32%nat) ;;
  Ok (prefix :: xb).

Section WithNoble.
(** [new ProjectivePoint(p.x, p.y, p.z).multiply(s)] of
    [@noble/secp256k1], with the result read back as a [Point]. *)
Variable multiply : Point -> Z -> result Point.

(** [Secp256k1.mul] for a [bigint] scalar. *)
Definition mulPoint (p : Point) (priv : Z) : result Point :=
  let privBigInt := Z.rem priv N in
  if isInfinity p || (privBigInt =? 0) then Ok Infinity
  else multiply p privBigInt.

Definition getPub (priv : Z) : result Point := mulPoint basePoint priv.
End WithNoble.

(** [Point.prototype.equals]. *)
Definition equals (p q : Point) : bool :=
  (px p =? px q) && (py p =? py q) && (pz p =? pz q).

Definition negate (p : Point) : Point :=
  mkPoint (px p) (Utils.modP (- py p)) (pz p).

Definition toUncompressed (p : Point) : result (list byte) :=
  a <- toAffine p ;;
  xb <- Utils.intToBytes (px a) (Some 32%nat) ;;
  yb <- Utils.intToBytes (py a) (Some 32%nat) ;;
  Ok (x04 :: xb ++ yb).

Definition toRawX (p : Point) : result (list byte) :=
  a <- toAffine p ;;
  Utils.intToBytes (px a) (Some 32%nat).

Section WithHash.
Variable multiply : Point -> Z -> result Point.
(** [sha256] of [@noble/hashes]. *)
Variable sha256 : list byte -> list byte.

(** [Secp256k1.getSharedSecret] for a [bigint] scalar. *)
Definition getSharedSecret (privA : Z) (pubB : Point) : result (list byte) :=
  p <- mulPoint multiply pubB privA ;;
  sharedPoint <- toCompressed p ;;
  Ok (sha256 (sha256 sharedPoint)).
End WithHash.

End Secp256k1.

(** ** [src/crypto/identifier.ts] *)

Module Identifier.
Import Secp256k1.

Record t : Type := mk { hex : jsstring; bytes : list byte }.

#[global] Instance t_eq_decision : EqDecision t.
Proof. solve_decision. Defined.

Definition fromBytes (bs : list byte) : result t :=
  if negb (length bs =? 33)%nat then
    Err (Error "Invalid Identifier length: expected 33 bytes")
  else Ok (mk (Utils.bytesToHex bs) bs).

Definition equals (a b : t) : bool := bool_decide (hex a = hex b).

(** The forms a reference point may be passed in. *)
Inductive PointArg : Type :=
| ArgPoint (p : Point)
| ArgHex (s : jsstring)
| ArgBytes (b : list byte).

Definition toPoint (a : PointArg) : result Point :=
  match a with
  | ArgPoint p => Ok p
  | ArgHex s => Secp256k1.fromHex s
  | ArgBytes b => Secp256k1.fromBytes b
  end.

Section WithNoble.
Variable multiply : Point -> Z -> result Point.

Definition fromChainKey (chainKey index : Z) (publicKey : PointArg) : result t :=
  if index <? 1 then Err (RangeError "index must be >= 1")
  else
    publicKeyPoint <- toPoint publicKey ;;
    ki <- Utils.powModW4 chainKey index N ;;
    p <- mulPoint multiply publicKeyPoint ki ;;
    cb <- toCompressed p ;;
    fromBytes cb.

(** The cached [identifierPoint] getter. *)
Definition identifierPoint (id : t) : result Point :=
  Secp256k1.fromBytes (bytes id).

Definition jump (id : t) (factor : Z) : result t :=
  ip <- identifierPoint id ;;
  p <- mulPoint multiply ip factor ;;
  cb <- toCompressed p ;;
  fromBytes cb.

Definition next (id : t) (chainKey count : Z) : result t :=
  step <- (if count =? 1 then Ok chainKey
           else Utils.powModW4 chainKey count N) ;;
  jump id step.

Definition prev (id : t) (chainKey count : Z) : result t :=
  kInv <- Utils.modInv chainKey N ;;
  step <- (if count =? 1 then Ok kInv
           else Utils.powModW4 kInv count N) ;;
  jump id step.
End WithNoble.

Section WithCase.
(** [String.prototype.toLowerCase]. *)
Variable toLowerCase : jsstring -> jsstring.

(** [Identifier.fromHex]. *)
Definition fromHex (hex : jsstring) : result t :=
  bytes <- Utils.hexToBytes hex ;;
  if negb (length bytes =? 33)%nat then
    Err (Error "Invalid Identifier length: expected 33 bytes")
  else Ok (mk (toLowerCase hex) bytes).
End WithCase.

End Identifier.

(** ** [SecretIdentifier] of [src/crypto/identifier.ts] *)

Module SecretIdentifier.
Import Secp256k1.

(** An [Identifier] together with its private scalar. *)
Record t : Type := mk { identifier : Identifier.t; secret : Z }.

(** The forms a secret may be passed in; a [number] is taken to be
    integral. *)
Inductive SecretArg : Type :=
| SecretBigint (n : Z)
| SecretNumber (n : Z)
| SecretBytes (b : list byte)
| SecretHex (s : jsstring).

Section WithNoble.
Variable multiply : Point -> Z -> result Point.

(** The private constructor. *)
Definition new (secretBigInt : Z) : result t :=
  p <- getPub multiply secretBigInt ;;
  cpub <- toCompressed p ;;
  Ok (mk (Identifier.mk (Utils.bytesToHex cpub) cpub) secretBigInt).

Definition fromSecret (secret : SecretArg) : result t :=
  d <- match secret with
       | SecretBigint n => Ok n
       | SecretNumber n => Ok n
       | SecretBytes b => Utils.bytesToInt b
       | SecretHex s => Utils.hexToInt s
       end ;;
  let d := Z.rem d N in
  if d =? 0 then Err (Error "secret must be non-zero")
  else new d.
End WithNoble.
End SecretIdentifier.

(** ** [src/sdk/constants.ts] and [src/models/payload.ts] *)

Module Payload.

Definition HEADER_SIZE : Z := 143.
Definition MARKER : list byte := [x4b; x53; x50; x4b].
Definition PROTOCOL_VERSION : Z := 1.

(** [buf[i]] read as a number, [undefined] being stored as [0] by
    [DataView.setUint8]. *)
Definition byteAt (buf : list byte) (i : nat) : Z := b2z (nth i buf x00).

Definition readU16 (buf : list byte) (off : nat) : Z :=
  byteAt buf off + 256 * byteAt buf (off + 1).

(** A store past the end of a typed array is ignored, as is stdpp's list
    insert. *)
Definition writeU16 (buf : list byte) (off : nat) (val : Z) : list byte :=
  let v := val mod 65536 in
  <[(off + 1)%nat := z2b (v / 256)]> (<[off := z2b (v mod 256)]> buf).

(** [target.set(source, offset)]. *)
Definition setAt (target source : list byte) (offset : nat) : result (list byte) :=
  if (length target <? offset + length source)%nat
  then Err (RangeError "offset is out of bounds")
  else Ok (take offset target ++ source ++ drop (offset + length source) target).

(** [bytes.subarray(i, j)] for [0 <= i <= j]. *)
Definition subarray (bytes : list byte) (i j : nat) : list byte :=
  take (j - i) (drop i bytes).

Record t : Type := mk
  { marker : list byte;
    version : Z;
    prefix : list byte;
    type : Z;
    id : list byte;
    publicKey : list byte;
    signature : list byte;
    data : list byte }.

#[global] Instance t_eq_decision : EqDecision t.
Proof. solve_decision. Defined.

(** [type >>> 0] of an integral number. *)
Definition toUint32 (n : Z) : Z := n mod 4294967296.

(** [new Payload(prefix, type, identifier, publicKey, data)]. *)
Definition new (prefix : list byte) (type : Z) (identifier : Identifier.t)
    (publicKey data : list byte) : result t :=
  if 65535 <? toUint32 type then Err (Error "Type is out of 16-bit range")
  else if negb (length publicKey =? 33)%nat then
    Err (Error "publicKey must be 33 bytes")
  else
    Ok (mk MARKER PROTOCOL_VERSION prefix type (Identifier.bytes identifier)
           publicKey (replicate 64 x00) data).

(** [Payload.fromBytes].  The [signature] of the result is a view on the
    input in the source; the model holds its contents. *)
Definition fromBytes (bytes : list byte) : result t :=
  if Z.of_nat (length bytes) <? HEADER_SIZE then Err (Error "Invalid payload size")
  else if negb (bool_decide (subarray bytes 0 4 = MARKER)) then Err (Error "Bad marker")
  else if negb (byteAt bytes 4 =? PROTOCOL_VERSION) then Err (Error "Bad version")
  else
    let prefix_ := subarray bytes 5 9 in
    let type_ := readU16 bytes 9 in
    let id_ := subarray bytes 11 44 in
    identifier <- Identifier.fromBytes id_ ;;
    let publicKey_ := subarray bytes 44 77 in
    let signature_ := subarray bytes 77 141 in
    let dataLen := readU16 bytes 141 in
    let data_ := subarray bytes 143 (143 + Z.to_nat dataLen) in
    if negb (Z.of_nat (length data_) =? dataLen) then Err (Error "Data length mismatch")
    else
      p <- new prefix_ type_ identifier publicKey_ data_ ;;
      Ok (mk (marker p) (version p) (prefix p) (type p) (id p) (publicKey p)
             signature_ (data p)).

Definition fromHex (data : jsstring) : result t :=
  bytes <- Utils.hexToBytes data ;;
  fromBytes bytes.

Definition toBytes (p : t) : result (list byte) :=
  let total := (143 + length (data p))%nat in
  let out := replicate total x00 in
  out <- setAt out (marker p) 0 ;;
  let out := <[4%nat := z2b (version p)]> out in
  out <- setAt out (prefix p) 5 ;;
  let out := writeU16 out 9 (type p) in
  out <- setAt out (id p) 11 ;;
  out <- setAt out (publicKey p) 44 ;;
  out <- setAt out (signature p) 77 ;;
  let out := writeU16 out 141 (Z.land (Z.of_nat (length (data p))) 65535) in
  setAt out (data p) 143.

Definition toHex (p : t) : result jsstring :=
  bytes <- toBytes p ;;
  Ok (Utils.bytesToHex bytes).

(** [Payload.buildMessage]: the string that is signed. *)
Definition buildMessage (p : t) (outIds : jsstring) : jsstring :=
  mjoin
    [ Utils.bytesToHex (marker p);
      Js.padStart 2 48 (Js.toString 16 (version p));
      Utils.bytesToHex (prefix p);
      Js.padStart 4 48 (Js.toString 16 (type p));
      Utils.bytesToHex (id p);
      Utils.bytesToHex (publicKey p);
      Utils.bytesToHex (data p);
      outIds ].

(** *** [new TextDecoder().decode(bytes)]: the UTF-8 decoder of the
    Encoding standard, errors replaced by U+FFFD, a leading byte order mark
    dropped, and the result given as UTF-16 code units. *)

Record Utf8 : Type := mkUtf8
  { u_cp : Z; u_seen : Z; u_needed : Z; u_lower : Z; u_upper : Z }.

Definition utf8Init : Utf8 := mkUtf8 0 0 0 128 191.

(** A byte met when no sequence is open. *)
Definition utf8Lead (b : Z) : list Z * Utf8 :=
  if b <=? 127 then ([b], utf8Init)
  else if (194 <=? b) && (b <=? 223) then ([], mkUtf8 (Z.land b 31) 0 1 128 191)
  else if (224 <=? b) && (b <=? 239) then
    ([], mkUtf8 (Z.land b 15) 0 2 (if b =? 224 then 160 else 128)
                (if b =? 237 then 159 else 191))
  else if (240 <=? b) && (b <=? 244) then
    ([], mkUtf8 (Z.land b 7) 0 3 (if b =? 240 then 144 else 128)
                (if b =? 244 then 143 else 191))
  else ([65533], utf8Init).

Definition utf8Step (s : Utf8) (b : Z) : list Z * Utf8 :=
  if u_needed s =? 0 then utf8Lead b
  else if negb ((u_lower s <=? b) && (b <=? u_upper s)) then
    let '(out, s') := utf8Lead b in (65533 :: out, s')
  else
    let cp := Z.lor (Z.shiftl (u_cp s) 6) (Z.land b 63) in
    if u_seen s + 1 =? u_needed s then ([cp], utf8Init)
    else ([], mkUtf8 cp (u_seen s + 1) (u_needed s) 128 191).

Fixpoint utf8Run (s : Utf8) (bytes : list byte) : list Z :=
  match bytes with
  | [] => if u_needed s =? 0 then [] else [65533]
  | b :: rest =>
      let '(out, s') := utf8Step s (b2z b) in
      out ++ utf8Run s' rest
  end.

Definition toUtf16 (cp : Z) : list Z :=
  if cp <? 65536 then [cp]
  else [55296 + Z.shiftr (cp - 65536) 10; 56320 + Z.land (cp - 65536) 1023].

Definition TextDecoder_decode (bytes : list byte) : jsstring :=
  let cps := utf8Run utf8Init bytes in
  let cps := match cps with 65279 :: r => r | _ => cps end in
  cps ≫= toUtf16.

(** [s.replace(/\0/g, "")]. *)
Definition removeNul (s : jsstring) : jsstring :=
  filter (fun c => c ≠ 0) s.

Definition getPrefix (p : t) : jsstring :=
  removeNul (TextDecoder_decode (prefix p)).

Definition getSize (p : t) : result Z :=
  bytes <- toBytes p ;;
  Ok (Z.of_nat (length bytes)).

End Payload.

(** ** [src/models/message-header.ts] and [src/crypto/peer.ts] *)

Module MessageHeader.

Record BlockMeta : Type := mkBlockMeta
  { hash : jsstring; timestamp : Z; daaScore : Z }.

Record Peer : Type := mkPeer
  { address : jsstring;
    peerPublicKey : list byte;
    peerSignature : list byte;
    isOwn : bool;
    peerPrivateKey : Z }.

Record t : Type := mk
  { txid : jsstring;
    peer : Peer;
    prefix : jsstring;
    type : Z;
    identifier : Identifier.t;
    blockMeta : BlockMeta;
    consensusHash : jsstring }.

Definition fromTransaction (myAddress prefix txid address : jsstring)
    (payload : Payload.t) (blockMeta : BlockMeta) (consensusHash : jsstring)
    (privateKey : Z) : result t :=
  let isOwn := bool_decide (myAddress = address) in
  let peer := mkPeer address (Payload.publicKey payload)
                     (Payload.signature payload) isOwn privateKey in
  identifier <- Identifier.fromBytes (Payload.id payload) ;;
  Ok (mk txid peer prefix (Payload.type payload) identifier blockMeta consensusHash).

Section PeerKeys.
Variable multiply : Secp256k1.Point -> Z -> result Secp256k1.Point.
Variable sha256 : list byte -> list byte.

(** The cached getters [sharedSecret] and [chainKey] of [Peer]. *)
Definition sharedSecret (p : Peer) : result (list byte) :=
  publicKeyPoint <- Secp256k1.fromBytes (peerPublicKey p) ;;
  Secp256k1.getSharedSecret multiply sha256 (peerPrivateKey p) publicKeyPoint.

Definition chainKey (p : Peer) : result Z :=
  secret <- sharedSecret p ;;
  Utils.bytesToInt (sha256 secret).
End PeerKeys.

End MessageHeader.

(** ** [src/sdk/message-registry.ts], [src/models/messages] and
       [src/sdk/message-serializer.ts] *)

Definition message (e : error) : string :=
  match e with
  | Error m | RangeError m | SyntaxError m | TypeError m => m
  | LoopBudget => "loop budget"
  end.

Module MessageRegistry.
Section Def.
(** [Fields] is the state of a message object, [Obj] a CBOR value and
    [Worker] a worker function. *)
Context {Fields Obj Worker : Type}.

(** A message class: its two statics, its constructor and the methods of
    its instances; [fromPlainObject] is [None] when the property is not a
    function. *)
Record MessageClass : Type := mkClass
  { messageType : Z;
    requiresEncryption : bool;
    construct : Fields;
    toPlainObject : Fields -> Obj;
    fromPlainObject : option (Fields -> Obj -> result Fields) }.

Record RegistryEntry : Type := mkEntry
  { cls : MessageClass; worker : option Worker }.

Record Instance : Type := mkInstance
  { class : MessageClass;
    header : option MessageHeader.t;
    fields : Fields }.

Definition register (ctor : MessageClass) (w : option Worker)
    (classes : gmap Z RegistryEntry) : gmap Z RegistryEntry :=
  <[messageType ctor := mkEntry ctor w]> classes.

Definition create (key : Z) (classes : gmap Z RegistryEntry) : result Instance :=
  match classes !! key with
  | None => Err (Error "Class not registered")
  | Some entry => Ok (mkInstance (cls entry) None (construct (cls entry)))
  end.

Definition getWorker (key : Z) (classes : gmap Z RegistryEntry) : result (option Worker) :=
  match classes !! key with
  | None => Err (Error "Class not found in registry")
  | Some entry => Ok (worker entry)
  end.

Definition getCtor (key : Z) (classes : gmap Z RegistryEntry) : option MessageClass :=
  cls <$> classes !! key.

End Def.
Arguments MessageClass : clear implicits.
Arguments RegistryEntry : clear implicits.
Arguments Instance : clear implicits.
End MessageRegistry.

Module MessageSerializer.
Import MessageRegistry.
Section Def.
Context {Fields Obj Worker : Type}.

(** [new XChaCha20Poly1305(key).open(nonce, ciphertext)]: throws, or
    answers [null] ([None]) or the plaintext. *)
Variable aeadOpen : list byte -> list byte -> list byte -> result (option (list byte)).
Variable decompressZstd : list byte -> result (list byte).
Variable cborDecode : list byte -> result Obj.

(** What [decode] returns: the hydrated instance or an [UnknownMessage]. *)
Inductive Decoded : Type :=
| Typed (instance : Instance Fields Obj)
| UnknownMessage (rawData : list byte) (errorDesc : string) (code : Z).

(** Phase 1; [inl] is an early [return]. *)
Definition decrypt (instance : Instance Fields Obj) (data : list byte)
    (key : option (list byte)) : Decoded + list byte :=
  match (if requiresEncryption (class instance) then key else None) with
  | Some k =>
      let nonce := take 24 data in
      let ciphertext := drop 24 data in
      match aeadOpen k nonce ciphertext with
      | Err e => inl (UnknownMessage data ("Decryption failed: " +:+ message e) 2)
      | Ok None => inl (UnknownMessage data "Decryption failed: invalid key" 0)
      | Ok (Some maybePlain) =>
          if (length maybePlain =? 0)%nat
          then inl (UnknownMessage data "Decryption failed: empty decrypted data" 1)
          else inr maybePlain
      end
  | None => inr data
  end.

Definition decode (messageRegistry : gmap Z (RegistryEntry Fields Obj Worker))
    (header : MessageHeader.t) (data : list byte) (key : option (list byte))
    : result Decoded :=
  instance <- create (MessageHeader.type header) messageRegistry ;;
  let instance := mkInstance (class instance) (Some header) (fields instance) in
  if requiresEncryption (class instance) && negb (bool_decide (is_Some key)) then
    Err (Error "Encryption key is required but not provided")
  else
    match decrypt instance data key with
    | inl unknown => Ok unknown
    | inr plaintext =>
        match decompressZstd plaintext with
        | Err e => Ok (UnknownMessage data ("Decompress failed: " +:+ message e) 3)
        | Ok decompressed =>
            match cborDecode decompressed with
            | Err e => Ok (UnknownMessage data ("CBOR decode failed: " +:+ message e) 4)
            | Ok obj =>
                match fromPlainObject (class instance) with
                | None => Ok (Typed instance)
                | Some hydrate =>
                    match hydrate (fields instance) obj with
                    | Err e =>
                        Ok (UnknownMessage data ("fromPlainObject failed: " +:+ message e) 5)
                    | Ok fields' =>
                        Ok (Typed (mkInstance (class instance) (Some header) fields'))
                    end
                end
            end
        end
    end.

End Def.
Section Encode.
Context {Fields Obj : Type}.

Variable cborEncode : Obj -> result (list byte).
(** [compressZstd(data, level)]. *)
Variable compressZstd : list byte -> Z -> result (list byte).
(** [new XChaCha20Poly1305(key).seal(nonce, plaintext)]. *)
Variable aeadSeal : list byte -> list byte -> list byte -> result (list byte).

Definition ZSTD_COMPRESSION_LEVEL : Z := 16.

(** [MessageSerializer.encode]; [nonce] is what [randomBytes(24)] returns
    when it is called. *)
Definition encode (nonce : list byte) (message : Instance Fields Obj)
    (key : option (list byte)) : result (list byte) :=
  if requiresEncryption (class message) && negb (bool_decide (is_Some key)) then
    Err (Error "Encryption key is required but not provided")
  else
    let plainObj := toPlainObject (class message) (fields message) in
    cborBuf <- cborEncode plainObj ;;
    compressed <- compressZstd cborBuf ZSTD_COMPRESSION_LEVEL ;;
    match (if requiresEncryption (class message) then key else None) with
    | Some k =>
        ciphertext <- aeadSeal k nonce compressed ;;
        Ok (nonce ++ ciphertext)
    | None => Ok compressed
    end.
End Encode.

End MessageSerializer.

(** ** [src/sdk/event-bus.ts] *)

Module EventBus.
Section Def.
(** [K] is the type of event names and [F] that of the functions users
    pass in; functions are compared by identity. *)
Context {K F : Type} `{Countable K} `{EqDecision F}.

(** A registered listener: a function passed to [on], or the
    [onceWrapper] closure that a call of [once] creates around one.
    [serial] stands for the identity of the closure: every call of [once]
    creates a new one. *)
Inductive Listener : Type :=
| User (f : F)
| OnceWrapper (serial : nat) (f : F).

#[global] Instance Listener_eq_decision : EqDecision Listener.
Proof. solve_decision. Defined.

(** The bus: the [listeners] object, and the number of closures created
    so far. *)
Record t : Type := mk
  { listeners : gmap K (list Listener); created : nat }.

Definition new : t := mk ∅ 0.

(** [on], [off] for any function object. *)
Definition onFn (event : K) (fn : Listener) (bus : t) : t :=
  let arr := match listeners bus !! event with
             | Some arr => arr
             | None => []
             end in
  mk (<[event := arr ++ [fn]]> (listeners bus)) (created bus).

Definition offFn (event : K) (fn : Listener) (bus : t) : t :=
  match listeners bus !! event with
  | None => bus
  | Some arr =>
      mk (<[event := filter (fun g => g ≠ fn) arr]> (listeners bus)) (created bus)
  end.

Definition on (event : K) (listener : F) (bus : t) : t :=
  onFn event (User listener) bus.

Definition off (event : K) (listener : F) (bus : t) : t :=
  offFn event (User listener) bus.

Definition once (event : K) (listener : F) (bus : t) : t :=
  onFn event (OnceWrapper (created bus) listener)
       (mk (listeners bus) (S (created bus))).

(** [emit]: the listeners for which a microtask is queued, in order. *)
Definition emit (event : K) (bus : t) : list Listener :=
  match listeners bus !! event with
  | Some arr => arr
  | None => []
  end.

(** A queued microtask runs: the wrapper of [once] first removes itself;
    then the user's function is called, which is the second component. *)
Definition run (event : K) (fn : Listener) (bus : t) : t * F :=
  match fn with
  | User f => (bus, f)
  | OnceWrapper _ f => (offFn event fn bus, f)
  end.

(** The microtasks of a queue run in order, the functions they call being
    taken not to touch the bus: the bus afterwards and the calls made. *)
Definition runAll (event : K) (queue : list Listener) (bus : t) : t * list F :=
  foldl (fun acc fn =>
           let '(b, calls) := acc in
           let '(b', f) := run event fn b in
           (b', calls ++ [f]))
        (bus, []) queue.
End Def.
Arguments Listener : clear implicits.
Arguments t K F {_ _}.
End EventBus.

(** ** [src/sdk/kaspeak.ts] *)

Module Kaspeak.
Import MessageRegistry.

(** The part of an [ITransaction] that the SDK reads. *)
Record Input : Type := mkInput
  { transactionId : jsstring; index : Z }.

Record ITransaction : Type := mkTx
  { inputs : list Input;
    payload : jsstring;
    verboseData : option jsstring }.

(** The ways a private key may be passed to [create]; a [number] is taken
    to be integral. *)
Inductive PrivateKeyArg : Type :=
| KeyString (s : jsstring)
| KeyNumber (n : Z)
| KeyBytes (b : list byte)
| KeyBigint (n : Z).

Definition toBigInt (privateKey : PrivateKeyArg) : result Z :=
  match privateKey with
  | KeyString s => Utils.hexToInt s
  | KeyNumber n => Ok n
  | KeyBytes b => Utils.bytesToInt b
  | KeyBigint n => Ok n
  end.

(** [s.startsWith(p)]. *)
Definition startsWith (s p : jsstring) : bool :=
  bool_decide (take (length p) s = p).

(** [Array.prototype.sort] is stable: insertion after the elements that do
    not compare greater. *)
Fixpoint insertByIndex (x : Input) (l : list Input) : list Input :=
  match l with
  | [] => [x]
  | y :: l' =>
      if index x - index y <? 0 then x :: l else y :: insertByIndex x l'
  end.

Definition sortByIndex (l : list Input) : list Input :=
  foldl (fun acc x => insertByIndex x acc) [] l.

Definition getOutpointIds (tx : ITransaction) : jsstring :=
  mjoin (transactionId <$> sortByIndex (inputs tx)).

Section WithLedger.
Context {Fields Obj Worker : Type}.

(** The ledger library: [new kaspa.PrivateKey(hex).toPublicKey().toString()],
    [new kaspa.PublicKey(hex).toAddress(networkId).toString()] and
    [verifyMessage({message, signature, publicKey})]. *)
Variable PrivateKey_toPublicKey : jsstring -> result jsstring.
Variable PublicKey_toAddress : jsstring -> result jsstring.
Variable verifyMessage : jsstring -> jsstring -> jsstring -> result bool.

(** The session: the fields read by the operations below, and the effects
    they leave (events emitted, workers queued, errors logged), oldest
    first. *)
Record t : Type := mk
  { privateKey : Z;
    publicKey : list byte;
    publicKeyHex : jsstring;
    address : jsstring;
    prefixString : jsstring;
    knownTxIds : LimitedHashSet.t jsstring;
    messageRegistry : gmap Z (RegistryEntry Fields Obj Worker);
    prefixFilterEnabled : bool;
    signatureVerificationEnabled : bool;
    emitted : list (MessageHeader.t * list byte);
    scheduled : list (Worker * MessageHeader.t * list byte);
    errorLog : list string }.

(** [Kaspeak.create]: the conversion of the key, the constructor and
    [postInit]. *)
Definition create (privateKey : PrivateKeyArg) (prefix : jsstring) : result t :=
  privateKeyBigInt <- toBigInt privateKey ;;
  known <- LimitedHashSet.new 5000 ;;
  publicKeyHex <- PrivateKey_toPublicKey (Utils.intToHex privateKeyBigInt (Some 32%nat)) ;;
  publicKey <- Utils.hexToBytes publicKeyHex ;;
  address <- PublicKey_toAddress publicKeyHex ;;
  Ok (mk privateKeyBigInt publicKey publicKeyHex address prefix known ∅
         true true [] [] []).

(** [Schnorr.verify(signature, message, pubHex)] for a string message. *)
Definition Schnorr_verify (signature : list byte) (msg pubHex : jsstring) : result bool :=
  if negb (length signature =? 64)%nat then Ok false
  else verifyMessage msg (Utils.bytesToHex signature) (drop 2 pubHex).

Definition Payload_verify (p : Payload.t) (outIds : jsstring) : result bool :=
  Schnorr_verify (Payload.signature p) (Payload.buildMessage p outIds)
                 (Utils.bytesToHex (Payload.publicKey p)).

Definition createMessageHeaderFromTransaction (s : t) (txid prefix : jsstring)
    (p : Payload.t) (blockMeta : MessageHeader.BlockMeta)
    (consensusHash : jsstring) : result MessageHeader.t :=
  addr <- PublicKey_toAddress (Utils.bytesToHex (Payload.publicKey p)) ;;
  MessageHeader.fromTransaction (address s) prefix txid addr p blockMeta
                                consensusHash (privateKey s).

Definition withKnown (s : t) (k : LimitedHashSet.t jsstring) : t :=
  mk (privateKey s) (publicKey s) (publicKeyHex s) (address s) (prefixString s)
     k (messageRegistry s) (prefixFilterEnabled s)
     (signatureVerificationEnabled s) (emitted s) (scheduled s) (errorLog s).

Definition emit (s : t) (h : MessageHeader.t) (data : list byte) : t :=
  mk (privateKey s) (publicKey s) (publicKeyHex s) (address s) (prefixString s)
     (knownTxIds s) (messageRegistry s) (prefixFilterEnabled s)
     (signatureVerificationEnabled s) (emitted s ++ [(h, data)]) (scheduled s)
     (errorLog s).

Definition schedule (s : t) (w : Worker) (h : MessageHeader.t) (data : list byte) : t :=
  mk (privateKey s) (publicKey s) (publicKeyHex s) (address s) (prefixString s)
     (knownTxIds s) (messageRegistry s) (prefixFilterEnabled s)
     (signatureVerificationEnabled s) (emitted s) (scheduled s ++ [(w, h, data)])
     (errorLog s).

(** The [catch] of [processTransactions]. *)
Definition logError (s : t) (e : error) : t :=
  mk (privateKey s) (publicKey s) (publicKeyHex s) (address s) (prefixString s)
     (knownTxIds s) (messageRegistry s) (prefixFilterEnabled s)
     (signatureVerificationEnabled s) (emitted s) (scheduled s)
     (errorLog s ++ [message e]).

Definition callWorker (s : t) (h : MessageHeader.t) (rawData : list byte) : t :=
  match getWorker (MessageHeader.type h) (messageRegistry s) with
  | Err e => logError s e
  | Ok None => s
  | Ok (Some w) => schedule s w h rawData
  end.

(** The body of the loop of [processTransactions] for one transaction. *)
Definition processTransaction (blockMeta : MessageHeader.BlockMeta) (s : t)
    (tx : ITransaction) : t :=
  if Z.odd (Z.of_nat (length (payload tx))) then s
  else if Z.of_nat (length (payload tx)) <? Payload.HEADER_SIZE then s
  else if negb (startsWith (payload tx) (js "4b53504b")) then s
  else
    match verboseData tx with
    | None => logError s (Error "verboseData is undefined in tx")
    | Some txid =>
        let '(added, known) := LimitedHashSet.tryAdd txid (knownTxIds s) in
        if negb added then s
        else
          let s := withKnown s known in
          match Payload.fromHex (payload tx) with
          | Err e => logError s e
          | Ok p =>
              let prefix := Payload.getPrefix p in
              if prefixFilterEnabled s && negb (bool_decide (prefix = prefixString s))
              then s
              else
                let consensusHash := getOutpointIds tx in
                match (if signatureVerificationEnabled s
                       then Payload_verify p consensusHash else Ok true) with
                | Err e => logError s e
                | Ok false => s
                | Ok true =>
                    match createMessageHeaderFromTransaction s txid prefix p
                            blockMeta consensusHash with
                    | Err e => logError s e
                    | Ok messageHeader =>
                        let s := emit s messageHeader (Payload.data p) in
                        if bool_decide (prefix = prefixString s)
                        then callWorker s messageHeader (Payload.data p)
                        else s
                    end
                end
          end
    end.

Definition processTransactions (transactions : list ITransaction)
    (blockMeta : MessageHeader.BlockMeta) (s : t) : t :=
  foldl (processTransaction blockMeta) s transactions.

End WithLedger.
Arguments t : clear implicits.
(** *** Settings and the registry *)

Section Settings.
Context {Fields Obj Worker : Type}.

Definition withRegistry (s : t Fields Obj Worker)
    (r : gmap Z (RegistryEntry Fields Obj Worker)) : t Fields Obj Worker :=
  mk (privateKey s) (publicKey s) (publicKeyHex s) (address s) (prefixString s)
     (knownTxIds s) r (prefixFilterEnabled s)
     (signatureVerificationEnabled s) (emitted s) (scheduled s) (errorLog s).

Definition registerMessage (s : t Fields Obj Worker)
    (message : MessageClass Fields Obj) (worker : option Worker)
    : result (t Fields Obj Worker) :=
  if (messageType message <? 0) || (65535 <? messageType message) then
    Err (Error "Invalid messageType: messageType must be between 0 and 65535.")
  else Ok (withRegistry s (register message worker (messageRegistry s))).

Definition setPrefixFilterEnabled (s : t Fields Obj Worker) (enabled : bool)
    : t Fields Obj Worker :=
  mk (privateKey s) (publicKey s) (publicKeyHex s) (address s) (prefixString s)
     (knownTxIds s) (messageRegistry s) enabled
     (signatureVerificationEnabled s) (emitted s) (scheduled s) (errorLog s).

Definition setSignatureVerificationEnabled (s : t Fields Obj Worker)
    (enabled : bool) : t Fields Obj Worker :=
  mk (privateKey s) (publicKey s) (publicKeyHex s) (address s) (prefixString s)
     (knownTxIds s) (messageRegistry s) (prefixFilterEnabled s)
     enabled (emitted s) (scheduled s) (errorLog s).
End Settings.

(** *** [new TextEncoder().encode(s)]: the code points of the string, a
    lone surrogate read as U+FFFD, in UTF-8. *)

Definition isHighSurrogate (c : Z) : bool := (55296 <=? c) && (c <=? 56319).
Definition isLowSurrogate (c : Z) : bool := (56320 <=? c) && (c <=? 57343).

Fixpoint codePoints (s : jsstring) : list Z :=
  match s with
  | [] => []
  | c :: rest =>
      if isHighSurrogate c then
        match rest with
        | d :: rest' =>
            if isLowSurrogate d then
              (65536 + Z.shiftl (c - 55296) 10 + (d - 56320)) :: codePoints rest'
            else 65533 :: codePoints rest
        | [] => [65533]
        end
      else if isLowSurrogate c then 65533 :: codePoints rest
      else c :: codePoints rest
  end.

Definition utf8Encode (cp : Z) : list byte :=
  if cp <? 128 then [z2b cp]
  else if cp <? 2048 then
    [z2b (192 + Z.shiftr cp 6); z2b (128 + Z.land cp 63)]
  else if cp <? 65536 then
    [z2b (224 + Z.shiftr cp 12); z2b (128 + Z.land (Z.shiftr cp 6) 63);
     z2b (128 + Z.land cp 63)]
  else
    [z2b (240 + Z.shiftr cp 18); z2b (128 + Z.land (Z.shiftr cp 12) 63);
     z2b (128 + Z.land (Z.shiftr cp 6) 63); z2b (128 + Z.land cp 63)].

Definition TextEncoder_encode (s : jsstring) : list byte :=
  codePoints s ≫= utf8Encode.

(** *** Signing and [createPayload] *)

Section WithSigner.
Context {Fields Obj Worker : Type}.

(** [signMessage({message, privateKey: new PrivateKey(hex)})] of the ledger
    library: the signature in hex. *)
Variable signMessage : jsstring -> jsstring -> result jsstring.

(** [Schnorr.sign(msg, priv)] for a string message and a [bigint] key. *)
Definition Schnorr_sign (msg : jsstring) (priv : Z) : result (list byte) :=
  signature <- signMessage msg (Utils.intToHex priv (Some 32%nat)) ;;
  Utils.hexToBytes signature.

(** [Payload.prototype.sign]: the payload with its new signature. *)
Definition Payload_sign (p : Payload.t) (outIds : jsstring) (priv : Z)
    : result Payload.t :=
  signature <- Schnorr_sign (Payload.buildMessage p outIds) priv ;;
  Ok (Payload.mk (Payload.marker p) (Payload.version p) (Payload.prefix p)
                 (Payload.type p) (Payload.id p) (Payload.publicKey p)
                 signature (Payload.data p)).

(** The field [prefixBytes], which the constructor computes from the
    prefix. *)
Definition prefixBytes (s : t Fields Obj Worker) : list byte :=
  TextEncoder_encode (Utils.slice (Js.padEnd 4 0 (prefixString s)) 0 4).

Definition createPayload (s : t Fields Obj Worker) (outpointIds : jsstring)
    (messageType : Z) (identifier : Identifier.t) (data : list byte)
    : result jsstring :=
  if (messageType <? 0) || (65535 <? messageType) then
    Err (Error "Invalid messageType: messageType must be between 0 and 65535.")
  else
    payload <- Payload.new (prefixBytes s) messageType identifier (publicKey s) data ;;
    payload <- Payload_sign payload outpointIds (privateKey s) ;;
    Payload.toHex payload.
End WithSigner.

(** [parsePayload]. *)
Definition parsePayload (data : list byte + jsstring) : result Payload.t :=
  match data with
  | inr s => Payload.fromHex s
  | inl b => Payload.fromBytes b
  end.

End Kaspeak.

(** * Specification-side definitions

    Predicates, invariants and reference values that the theorems below are
    stated with.  None of them is used by the embedding above. *)

(** ** Loops with a unary budget, for reasoning *)

Module Loop.
Fixpoint iterN {S R : Type} (step : S -> S + R) (n : nat) (s : S) : S + R :=
  match n with
  | O => inl s
  | Datatypes.S n' =>
      match step s with
      | inl s' => iterN step n' s'
      | inr r => inr r
      end
  end.
End Loop.

(** ** Digit lists *)

Module Digits.

(** Value of a digit list, most significant first. *)
Definition val (radix : Z) (l : list Z) : Z :=
  foldl (fun a d => a * radix + d) 0 l.

(** Exactly [n] digits of [x], most significant first. *)
Fixpoint fixedAux (radix : Z) (n : nat) (x : Z) (acc : list Z) : list Z :=
  match n with
  | O => acc
  | S n' => fixedAux radix n' (x / radix) (x mod radix :: acc)
  end.

Definition fixed (radix : Z) (n : nat) (x : Z) : list Z := fixedAux radix n x [].

Definition isDigit (radix d : Z) : Prop := 0 <= d < radix.

End Digits.

(** ** Invariants of [egcdLehmer] and the value [powModW4] computes *)

Module Egcd.
Import Utils.

Section Inner.
(** The numbers being reduced and the weight [T = 2^n] of their leading
    parts. *)
Variables (a b T : Z).

Definition cur_a (s : Inner) : Z := i_A s * a + i_B s * b.
Definition cur_b (s : Inner) : Z := i_C s * a + i_D s * b.

(** Lehmer's invariant: the cofactor matrix maps [(a, b)] to a pair of
    its Euclidean sequence, and the leading parts bound that pair. *)
Definition innerInv (s : Inner) : Prop :=
  let '(mkInner ah bh A B C D) := s in
  (0 <= ah + A /\ 0 <= ah + B /\ 0 <= bh + C /\ 0 <= bh + D)
  /\ ((T * (ah + B) <= cur_a s <= T * (ah + A)
       /\ T * (bh + C) <= cur_b s <= T * (bh + D))
      \/ (T * (ah + A) <= cur_a s <= T * (ah + B)
          /\ T * (bh + D) <= cur_b s <= T * (bh + C)))
  /\ 0 < cur_a s /\ 0 <= cur_b s <= b /\ (B <> 0 -> cur_b s < b)
  /\ Z.gcd (cur_a s) (cur_b s) = Z.gcd a b.
End Inner.

(** The invariant of both [while (b)] loops, for the inputs [a0], [b0]. *)
Definition outerInv (a0 b0 : Z) (s : Egcd) : Prop :=
  0 < e_a s /\ 0 <= e_b s
  /\ e_a s = e_x s * a0 + e_y s * b0
  /\ e_b s = e_u s * a0 + e_v s * b0
  /\ Z.gcd (e_a s) (e_b s) = Z.gcd a0 b0.

Definition powmod (base modulus e : Z) : Z := base ^ e mod modulus.

End Egcd.

(** ** Well-formed payloads and frames *)

Module PayloadSpec.
Import Payload.

(** A payload as the constructor and the parser build them. *)
Record wf (p : t) : Prop := mkWf
  { wf_marker : marker p = MARKER;
    wf_version : version p = PROTOCOL_VERSION;
    wf_prefix : length (prefix p) = 4%nat;
    wf_type : 0 <= type p <= 65535;
    wf_id : length (id p) = 33%nat;
    wf_publicKey : length (publicKey p) = 33%nat;
    wf_signature : length (signature p) = 64%nat;
    wf_data : Z.of_nat (length (data p)) <= 65535 }.

(** The frame that [toBytes] lays out. *)
Definition frame (p : t) : list byte :=
  marker p ++ [z2b (version p)] ++ prefix p
  ++ [z2b (type p mod 256); z2b (type p / 256)]
  ++ id p ++ publicKey p ++ signature p
  ++ [z2b (Z.of_nat (length (data p)) mod 256);
      z2b (Z.of_nat (length (data p)) / 256)]
  ++ data p.

(** What the parser checks, and nothing else. *)
Definition parses (bytes : list byte) : Prop :=
  HEADER_SIZE <= Z.of_nat (length bytes)
  /\ subarray bytes 0 4 = MARKER
  /\ byteAt bytes 4 = PROTOCOL_VERSION
  /\ Z.of_nat (length (subarray bytes 143 (143 + Z.to_nat (readU16 bytes 141))))
     = readU16 bytes 141.

(** The payload read off a frame. *)
Definition parsed (bytes : list byte) : t :=
  mk MARKER PROTOCOL_VERSION (subarray bytes 5 9) (readU16 bytes 9)
     (subarray bytes 11 44) (subarray bytes 44 77) (subarray bytes 77 141)
     (subarray bytes 143 (143 + Z.to_nat (readU16 bytes 141))).

(** The invariants of the specification: those of the parser and a
    compressed-point prefix on [publicKey] and [id]. *)
Definition specInvariants (bytes : list byte) : Prop :=
  parses bytes
  /\ (byteAt bytes 44 = 2 \/ byteAt bytes 44 = 3)
  /\ (byteAt bytes 11 = 2 \/ byteAt bytes 11 = 3).

(** The preimage as the specification words it, with [type] as two bytes
    little-endian. *)
Definition specPreimage (p : t) (outIds : jsstring) : jsstring :=
  Utils.bytesToHex
    (marker p ++ [z2b (version p)] ++ prefix p
     ++ [z2b (type p mod 256); z2b (type p / 256)]
     ++ id p ++ publicKey p ++ data p)
  ++ outIds.

Definition withSignature (p : t) (sig : list byte) : t :=
  mk (marker p) (version p) (prefix p) (type p) (id p) (publicKey p) sig (data p).

Fixpoint dropLeadingNul (bs : list byte) : list byte :=
  match bs with
  | b :: bs' => if decide (b = x00) then dropLeadingNul bs' else bs
  | [] => []
  end.

(** The prefix as the specification words it: trailing NULs trimmed, the
    rest read as ASCII. *)
Definition specGetPrefix (p : t) : jsstring :=
  b2z <$> reverse (dropLeadingNul (reverse (prefix p))).

(** *** Sample values *)

Definition sampleId : list byte := x02 :: replicate 31 x00 ++ [x01].
Definition samplePublicKey : list byte := x02 :: replicate 32 x07.

Definition sampleIdentifier : Identifier.t :=
  Identifier.mk (Utils.bytesToHex sampleId) sampleId.

Definition samplePayload : t :=
  mk MARKER PROTOCOL_VERSION [x54; x45; x53; x54] 1 sampleId samplePublicKey
     (replicate 64 x00) [xde; xad; xbe; xef].

(** A frame whose [id] and [publicKey] start with [0x00]. *)
Definition zeroPointFrame : list byte := MARKER ++ [x01] ++ replicate 138 x00.

(** A payload whose prefix is [A, NUL, B, NUL]. *)
Definition interiorNulPayload : t :=
  mk MARKER PROTOCOL_VERSION [x41; x00; x42; x00] 1 sampleId samplePublicKey
     (replicate 64 x00) [].

End PayloadSpec.

(** ** Points of the curve, as the curve layer tells them *)

Module Curve.
Import Secp256k1.

(** An affine point with reduced coordinates whose [y] the decompression
    recovers from [x] and the parity. *)
Definition canonical (A : Point) : Prop :=
  pz A = 1 /\ 0 <= px A < P /\ 0 <= py A < P
  /\ computeY (px A) (negb (Z.land (py A) 1 =? 0)) = Ok A.

(** A point, in any projective form, that stands for such an affine
    point. *)
Definition valid (p : Point) : Prop :=
  exists A, toAffine p = Ok A /\ canonical A.

(** The multiplication that leaves every point where it is: the trivial
    action of the scalars. *)
Definition stay (p : Point) (s : Z) : result Point := Ok p.

(** *** A reference scalar multiplication

    Double-and-add in Jacobian coordinates, returned in the homogeneous
    form [(x : y : z)] that [Point] holds.  It stands for the library's
    multiplication in the examples; no theorem depends on it. *)

Record Jac : Type := mkJac { jx : Z; jy : Z; jz : Z }.

Definition jacDouble (p : Jac) : Jac :=
  let '(mkJac X Y Z_) := p in
  let A := (X * X) mod P in
  let B := (Y * Y) mod P in
  let C := (B * B) mod P in
  let D := (2 * ((X + B) * (X + B) - A - C)) mod P in
  let E := (3 * A) mod P in
  let F := (E * E) mod P in
  let X3 := (F - 2 * D) mod P in
  let Y3 := (E * (D - X3) - 8 * C) mod P in
  let Z3 := (2 * Y * Z_) mod P in
  mkJac X3 Y3 Z3.

(** Addition of the affine point [(x2, y2)]. *)
Definition jacAddAffine (p : Jac) (x2 y2 : Z) : Jac :=
  let '(mkJac X1 Y1 Z1) := p in
  let Z1Z1 := (Z1 * Z1) mod P in
  let U2 := (x2 * Z1Z1) mod P in
  let S2 := (y2 * Z1 * Z1Z1) mod P in
  let H := (U2 - X1) mod P in
  let HH := (H * H) mod P in
  let I := (4 * HH) mod P in
  let J := (H * I) mod P in
  let r := (2 * (S2 - Y1)) mod P in
  let V := (X1 * I) mod P in
  let X3 := (r * r - J - 2 * V) mod P in
  let Y3 := (r * (V - X3) - 2 * Y1 * J) mod P in
  let Z3 := ((Z1 + H) * (Z1 + H) - Z1Z1 - HH) mod P in
  mkJac X3 Y3 Z3.

Fixpoint jacMul (s : positive) (x y : Z) : Jac :=
  match s with
  | xH => mkJac x y 1
  | xO s' => jacDouble (jacMul s' x y)
  | xI s' => jacAddAffine (jacDouble (jacMul s' x y)) x y
  end.

Definition refMultiply (p : Point) (s : Z) : result Point :=
  a <- toAffine p ;;
  match s with
  | Zpos q =>
      let '(mkJac X Y Z_) := jacMul q (px a) (py a) in
      Ok (mkPoint ((X * Z_) mod P) Y ((Z_ * Z_ * Z_) mod P))
  | _ => Err (Error "invalid scalar")
  end.

End Curve.

(** ** The decode pipeline, stage by stage *)

Module PipelineSpec.
Import MessageRegistry MessageSerializer.

Section Stages.
Context {Fields Obj : Type}.
Variable aeadOpen : list byte -> list byte -> list byte -> result (option (list byte)).
Variable decompressZstd : list byte -> result (list byte).
Variable cborDecode : list byte -> result Obj.

(** The bytes that reach decompression, as the specification words
    step 2: the data itself, or what the AEAD opens. *)
Inductive plaintextOf (c : MessageClass Fields Obj) (data : list byte)
    (key : option (list byte)) : list byte -> Prop :=
| plain_clear :
    requiresEncryption c = false -> plaintextOf c data key data
| plain_opened k pt :
    requiresEncryption c = true -> key = Some k ->
    aeadOpen k (take 24 data) (drop 24 data) = Ok (Some pt) -> pt <> [] ->
    plaintextOf c data key pt.

(** The result of the pipeline for a message of class [c], one rule per
    stage (specification 4.5, steps 2 to 5). *)
Inductive outcome (c : MessageClass Fields Obj) (header : MessageHeader.t)
    (data : list byte) (key : option (list byte))
    : @Decoded Fields Obj -> Prop :=
| stage_open_none k desc :
    requiresEncryption c = true -> key = Some k ->
    aeadOpen k (take 24 data) (drop 24 data) = Ok None ->
    outcome c header data key (UnknownMessage data desc 0)
| stage_open_empty k desc :
    requiresEncryption c = true -> key = Some k ->
    aeadOpen k (take 24 data) (drop 24 data) = Ok (Some []) ->
    outcome c header data key (UnknownMessage data desc 1)
| stage_open_throws k e desc :
    requiresEncryption c = true -> key = Some k ->
    aeadOpen k (take 24 data) (drop 24 data) = Err e ->
    outcome c header data key (UnknownMessage data desc 2)
| stage_decompress pt e desc :
    plaintextOf c data key pt -> decompressZstd pt = Err e ->
    outcome c header data key (UnknownMessage data desc 3)
| stage_cbor pt z e desc :
    plaintextOf c data key pt -> decompressZstd pt = Ok z ->
    cborDecode z = Err e ->
    outcome c header data key (UnknownMessage data desc 4)
| stage_hydrate pt z obj hydrate e desc :
    plaintextOf c data key pt -> decompressZstd pt = Ok z ->
    cborDecode z = Ok obj -> fromPlainObject c = Some hydrate ->
    hydrate (construct c) obj = Err e ->
    outcome c header data key (UnknownMessage data desc 5)
| stage_done pt z obj hydrate fields' :
    plaintextOf c data key pt -> decompressZstd pt = Ok z ->
    cborDecode z = Ok obj -> fromPlainObject c = Some hydrate ->
    hydrate (construct c) obj = Ok fields' ->
    outcome c header data key (Typed (mkInstance c (Some header) fields'))
| stage_done_plain pt z obj :
    plaintextOf c data key pt -> decompressZstd pt = Ok z ->
    cborDecode z = Ok obj -> fromPlainObject c = None ->
    outcome c header data key (Typed (mkInstance c (Some header) (construct c))).
End Stages.

(** *** Sample values: a class that requires encryption and an AEAD that
    rejects every key. *)

Definition secretNote : MessageClass unit unit :=
  mkClass 101 true tt (fun _ => tt) (Some (fun f _ => Ok f)).

Definition sampleRegistry : gmap Z (RegistryEntry unit unit unit) :=
  register secretNote None ∅.

Definition sampleHeader : MessageHeader.t :=
  MessageHeader.mk (js "tx1")
    (MessageHeader.mkPeer (js "kaspatest:q") PayloadSpec.samplePublicKey
                          (replicate 64 x00) false 6)
    (js "TEST") 101 PayloadSpec.sampleIdentifier
    (MessageHeader.mkBlockMeta (js "00") 0 0) (js "aa").

Definition rejectingAead (key nonce ciphertext : list byte)
    : result (option (list byte)) := Ok None.

Definition noZstd (data : list byte) : result (list byte) :=
  Err (Error "zstd").

Definition noCbor (data : list byte) : result unit := Err (Error "cbor").

End PipelineSpec.

(** ** The session: what the specification says of [create] and of the
       bounded set *)

Module KaspeakSpec.
Import Kaspeak.

Definition blockMeta0 : MessageHeader.BlockMeta :=
  MessageHeader.mkBlockMeta [] 0 0.

(** A transaction whose payload is 200 hex characters (100 bytes) that
    start with the marker. *)
Definition shortTx : ITransaction :=
  mkTx [] (js "4b53504b" ++ replicate 192 48) (Some (js "tx1")).

(** A fresh session with an empty bounded set. *)
Definition session0 {Fields Obj Worker : Type} : Kaspeak.t Fields Obj Worker :=
  mk 6 [] [] [] (js "TEST") (LimitedHashSet.mk [] ∅ 5000) ∅ true true [] [] [].

Section Ledger.
Context {Fields Obj Worker : Type}.
Variable PrivateKey_toPublicKey : jsstring -> result jsstring.
Variable PublicKey_toAddress : jsstring -> result jsstring.

End Ledger.



(** An address encoder that takes every public key. *)
Definition anyAddress (hex : jsstring) : result jsstring := Ok (js "kaspatest:q").

(** The last [n] elements of a list. *)
Definition lastN {A : Type} (n : Z) (l : list A) : list A :=
  drop (Z.to_nat (Z.of_nat (length l) - n)) l.

(** 5001 distinct transaction ids. *)
Definition sampleIds : list jsstring :=
  (fun n => [Z.of_nat n]) <$> seq 0 (Z.to_nat 5001).

End KaspeakSpec.

(** ** Invariants and reference values for the further properties *)

Module PowModSpec.
(** The invariant of the loop of [powMod], for the state
    [(result, b, e)]. *)
Definition powModInv (base exponent modulus : Z) (s : Z * Z * Z) : Prop :=
  let '(res, b, e) := s in
  0 <= e /\ 0 <= b < modulus
  /\ (res * b ^ e) mod modulus = base ^ exponent mod modulus
  /\ (0 <= res < modulus \/ (res = 1 /\ 0 < e)).
End PowModSpec.

Module HexSpec.
(** A character [0-9] or [a-f]. *)
Definition isLowerHexChar (c : Z) : Prop := 48 <= c <= 57 \/ 97 <= c <= 102.

(** A character [0-9], [a-f] or [A-F]. *)
Definition isHexChar (c : Z) : Prop :=
  48 <= c <= 57 \/ 97 <= c <= 102 \/ 65 <= c <= 70.

(** The value of a byte string read as a big-endian number. *)
Definition beValue (bs : list byte) : Z :=
  foldl (fun a b => a * 256 + b2z b) 0 bs.

(** The hex digits of a byte string, two per byte. *)
Definition nibbles (bs : list byte) : list Z :=
  bs ≫= (fun b => Digits.fixed 16 2 (b2z b)).
End HexSpec.

Module CurveSamples.
(** The compressed encoding of the base point. *)
Definition basePointBytes : list byte :=
  x02 :: Utils.hexPairs
           (js "79be667ef9dcbbac55a06295ce870b07029bfcdb2dce28d959f2815b16f81798").

(** A stand-in for [sha256]: 32 bytes, whatever the input. *)
Definition constantHash (data : list byte) : list byte := replicate 32 x00.
End CurveSamples.

Module CaseSpec.
(** Lower-casing of the letters [A-Z], which is what
    [String.prototype.toLowerCase] does to a string of ASCII characters. *)
Definition asciiLower (c : Z) : Z :=
  if (65 <=? c) && (c <=? 90) then c + 32 else c.

Definition asciiLowerCase (s : jsstring) : jsstring := asciiLower <$> s.

(** The compressed base point in upper-case hex. *)
Definition basePointHexUpper : jsstring :=
  js "0279BE667EF9DCBBAC55A06295CE870B07029BFCDB2DCE28D959F2815B16F81798".
End CaseSpec.

Module PayloadMoreSpec.
Import Payload.

(** A payload with other data. *)
Definition withData (p : t) (d : list byte) : t :=
  mk (marker p) (version p) (prefix p) (type p) (id p) (publicKey p)
     (signature p) d.

(** The 143 bytes that precede the data in the serialised form. *)
Definition header (p : t) : list byte :=
  marker p ++ [z2b (version p)] ++ prefix p
  ++ [z2b (type p mod 256); z2b (type p / 256)]
  ++ id p ++ publicKey p ++ signature p
  ++ [z2b (Z.of_nat (length (data p)) mod 65536 mod 256);
      z2b (Z.of_nat (length (data p)) mod 65536 / 256)].
End PayloadMoreSpec.

Module ContainerSpec.
(** The invariant of the bounded set: the queue has no duplicates and at
    most [capacity] elements, and the hash set holds its elements. *)
Definition setInv {T : Type} `{Countable T} (s : LimitedHashSet.t T) : Prop :=
  NoDup (LimitedHashSet.queue s)
  /\ LimitedHashSet.set s = list_to_set (LimitedHashSet.queue s)
  /\ Z.of_nat (length (LimitedHashSet.queue s)) <= LimitedHashSet.capacity s
  /\ 1 <= LimitedHashSet.capacity s.

(** A bus as [on], [off] and [once] build it: every wrapper it holds was
    created before. *)
Definition busInv {K F : Type} `{Countable K} `{EqDecision F}
    (bus : EventBus.t K F) : Prop :=
  forall e arr n f,
    EventBus.listeners bus !! e = Some arr ->
    EventBus.OnceWrapper n f ∈ arr -> (n < EventBus.created bus)%nat.

(** The function of the user that a queued listener calls. *)
Definition called {F : Type} (g : EventBus.Listener F) : F :=
  match g with
  | EventBus.User h => h
  | EventBus.OnceWrapper _ h => h
  end.

(** Sample libraries for the message pipeline: an encoding that is the
    identity on byte strings, a compression that prepends one byte, and a
    cipher that leaves the text as it is. *)
Definition idCborEncode (o : list byte) : result (list byte) := Ok o.
Definition idCborDecode (b : list byte) : result (list byte) := Ok b.
Definition tagCompress (b : list byte) (level : Z) : result (list byte) :=
  Ok (x28 :: b).
Definition tagDecompress (b : list byte) : result (list byte) :=
  match b with
  | _ :: r => Ok r
  | [] => Err (Error "empty")
  end.
Definition idSeal (key nonce text : list byte) : result (list byte) := Ok text.
Definition idOpen (key nonce text : list byte) : result (option (list byte)) :=
  Ok (Some text).

(** A message class whose fields are a byte string. *)
Definition bytesNote : MessageRegistry.MessageClass (list byte) (list byte) :=
  MessageRegistry.mkClass 101 true [] (fun f => f) (Some (fun _ o => Ok o)).
End ContainerSpec.

Module IngestSpec.
Import Kaspeak.

(** The transaction id that [processTransactions] offers to the bounded
    set: that of a transaction whose payload passes the three checks on
    its text. *)
Definition attempted (tx : ITransaction) : option jsstring :=
  if Z.odd (Z.of_nat (length (payload tx))) then None
  else if Z.of_nat (length (payload tx)) <? Payload.HEADER_SIZE then None
  else if negb (startsWith (payload tx) (js "4b53504b")) then None
  else verboseData tx.

Section Ledger.
Context {Fields Obj Worker : Type}.
Variable PublicKey_toAddress : jsstring -> result jsstring.
Variable verifyMessage : jsstring -> jsstring -> jsstring -> result bool.

(** The keys, the prefix, the registry and the switches of two sessions
    are the same. *)
Definition sameSettings (s s' : Kaspeak.t Fields Obj Worker) : Prop :=
  privateKey s' = privateKey s /\ publicKey s' = publicKey s
  /\ publicKeyHex s' = publicKeyHex s /\ address s' = address s
  /\ prefixString s' = prefixString s
  /\ messageRegistry s' = messageRegistry s
  /\ prefixFilterEnabled s' = prefixFilterEnabled s
  /\ signatureVerificationEnabled s' = signatureVerificationEnabled s.

(** What stands behind an event: a transaction with an id, whose payload
    parses to the data of the event, passes the prefix filter and the
    signature check where they are switched on, and gives the header. *)
Definition justified (s : Kaspeak.t Fields Obj Worker)
    (blockMeta : MessageHeader.BlockMeta) (tx : ITransaction)
    (h : MessageHeader.t) (data : list byte) : Prop :=
  exists txid p,
    verboseData tx = Some txid
    /\ Payload.fromHex (payload tx) = Ok p
    /\ data = Payload.data p
    /\ (prefixFilterEnabled s = true -> Payload.getPrefix p = prefixString s)
    /\ (signatureVerificationEnabled s = true ->
        Payload_verify verifyMessage p (getOutpointIds tx) = Ok true)
    /\ createMessageHeaderFromTransaction PublicKey_toAddress s txid
         (Payload.getPrefix p) p blockMeta (getOutpointIds tx) = Ok h.
End Ledger.

(** Three inputs, out of order. *)
Definition sampleInputs : list Input :=
  [mkInput (js "cc") 2; mkInput (js "aa") 0; mkInput (js "bb") 1].
End IngestSpec.

Module EndToEndSpec.
Import Kaspeak.

(** A ledger library whose signatures are 64 zero bytes and which
    accepts every signature. *)
Definition zeroSigner (msg privateKeyHex : jsstring) : result jsstring :=
  Ok (replicate 128 48).
Definition acceptAll (msg signature publicKey : jsstring) : result bool := Ok true.

(** A session with the prefix [TEST] and a key of 33 bytes. *)
Definition session1 : Kaspeak.t unit unit unit :=
  mk 6 PayloadSpec.samplePublicKey [] (js "kaspatest:q") (js "TEST")
     (LimitedHashSet.mk [] ∅ 5000) ∅ true true [] [] [].

(** The payload that [session1] creates for one byte of data. *)
Definition sampleHex : jsstring :=
  Utils.bytesToHex
    (PayloadSpec.frame
       (Payload.mk Payload.MARKER Payload.PROTOCOL_VERSION [x54; x45; x53; x54] 7
                   (Identifier.bytes PayloadSpec.sampleIdentifier)
                   PayloadSpec.samplePublicKey (replicate 64 x00) [x01])).
End EndToEndSpec.

(** * Theorems *)

(** ** Bytes *)

Lemma b2z_range (b : byte) : 0 <= b2z b < 256.
Proof.
  unfold b2z. pose proof (Byte.to_N_bounded b). lia.
Qed.

Lemma b2z_z2b (z : Z) : 0 <= z < 256 -> b2z (z2b z) = z.
Proof.
  intros Hz. unfold b2z, z2b. rewrite Z.mod_small by lia.
  destruct (Byte.of_N (Z.to_N z)) as [b|] eqn:E.
  - apply Byte.to_of_N in E. lia.
  - apply Byte.of_N_None_iff in E. lia.
Qed.

Lemma z2b_b2z (b : byte) : z2b (b2z b) = b.
Proof.
  unfold z2b, b2z. pose proof (Byte.to_N_bounded b).
  rewrite Z.mod_small by lia. rewrite N2Z.id, Byte.of_to_N. done.
Qed.

Lemma b2z_inj (a b : byte) : b2z a = b2z b -> a = b.
Proof. intros E. rewrite <- (z2b_b2z a), <- (z2b_b2z b). by rewrite E. Qed.

(** ** The bounded set *)

Module LimitedHashSetFacts.
Section Facts.
Context {T : Type} `{Countable T}.
Import LimitedHashSet.

Lemma tryAdd_present (v : T) (s : t T) :
  v ∈ set s -> tryAdd v s = (false, s).
Proof. intros Hin. unfold tryAdd. by rewrite decide_True. Qed.

Lemma tryAdd_absent (v : T) (s : t T) :
  v ∉ set s ->
  tryAdd v s =
    (true,
     if Z.of_nat (length (queue s)) =? capacity s
     then mk (tail (queue s) ++ [v])
             ({[v]} ∪ (set s ∖ list_to_set (take 1 (queue s)))) (capacity s)
     else mk (queue s ++ [v]) ({[v]} ∪ set s) (capacity s)).
Proof.
  intros Hin. unfold tryAdd. rewrite decide_False by done.
  destruct (Z.of_nat (length (queue s)) =? capacity s); [|done].
  unfold evict. destruct s as [[|o q] st c]; simpl; f_equal; f_equal.
  - set_solver.
  - set_solver.
Qed.

Lemma addAll_snoc (l : list T) (v : T) (s : t T) :
  addAll (l ++ [v]) s = (tryAdd v (addAll l s)).2.
Proof. unfold addAll. by rewrite foldl_app. Qed.

Lemma drop_tail_snoc (l : list T) (v : T) (n : nat) :
  (n < length l)%nat ->
  tail (drop n l) ++ [v] = drop (S n) (l ++ [v]).
Proof.
  revert n. induction l as [|a l IH]; intros n Hn; simpl in *; [lia|].
  destruct n as [|n]; simpl.
  - by rewrite drop_0.
  - apply IH. lia.
Qed.

(** After a stream of distinct values the queue is the last [c] of them. *)
Lemma addAll_distinct (c : nat) (l : list T) :
  (1 <= c)%nat -> NoDup l ->
  let s := addAll l (mk [] ∅ (Z.of_nat c)) in
  queue s = drop (length l - c) l /\ set s = list_to_set (queue s)
  /\ capacity s = Z.of_nat c.
Proof.
  intros Hc. induction l as [|v l IH] using rev_ind; intros Hnd.
  - by cbn.
  - apply NoDup_app in Hnd as (Hl & Hv & _).
    destruct (IH Hl) as (Hq & Hs & Hcap). clear IH.
    cbn zeta. rewrite addAll_snoc.
    set (s := addAll l _) in *.
    assert (v ∉ set s) as Hnin.
    { rewrite Hs, Hq, elem_of_list_to_set. intros Hin.
      apply (Hv v); [|set_solver].
      eapply list_elem_of_lookup in Hin as [i Hi].
      rewrite lookup_drop in Hi. by eapply list_elem_of_lookup_2. }
    rewrite tryAdd_absent by done. rewrite Hcap, Hq, length_drop, length_app.
    simpl length.
    destruct (Z.eqb_spec (Z.of_nat (length l - (length l - c))) (Z.of_nat c)) as [E|E];
      simpl.
    + assert (c <= length l)%nat by lia.
      replace (length l + 1 - c)%nat with (S (length l - c)) by lia.
      destruct (decide (length l - c < length l)%nat) as [Hlt|Hge].
      * rewrite drop_tail_snoc by done. split_and!; [done| |done].
        rewrite Hs, Hq.
        rewrite <- drop_tail_snoc by done.
        destruct (drop (length l - c) l) as [|o q] eqn:Hd; simpl.
        { set_solver. }
        assert (NoDup (o :: q)) as Hndq.
        { rewrite <- Hd. eapply (sublist_NoDup _ l); [done|apply sublist_drop]. }
        apply NoDup_cons in Hndq as [Ho _].
        rewrite list_to_set_app_L. simpl. set_solver.
      * lia.
    + assert (length l < c)%nat by lia.
      replace (length l - c)%nat with 0%nat by lia.
      replace (length l + 1 - c)%nat with 0%nat by lia.
      rewrite !drop_0. split_and!; [done| |done].
      rewrite Hs, Hq. replace (length l - c)%nat with 0%nat by lia.
      rewrite drop_0, list_to_set_app_L. simpl. set_solver.
Qed.
End Facts.
End LimitedHashSetFacts.

(** ** Digits, [toString] and [parseInt] *)

Module DigitsFacts.
Import Js Digits.

Lemma foldl_val_acc (radix a : Z) (l : list Z) :
  foldl (fun a d => a * radix + d) a l
  = a * radix ^ Z.of_nat (length l) + val radix l.
Proof.
  unfold val. revert a. induction l as [|d l IH] using rev_ind; intros a.
  - simpl. lia.
  - rewrite !foldl_app. simpl. rewrite IH, length_app. simpl.
    rewrite Nat2Z.inj_add, Z.pow_add_r by lia. change (Z.of_nat 1) with 1.
    rewrite Z.pow_1_r. lia.
Qed.

Lemma val_app (radix : Z) (l k : list Z) :
  val radix (l ++ k) = val radix l * radix ^ Z.of_nat (length k) + val radix k.
Proof. unfold val at 1. rewrite foldl_app. apply foldl_val_acc. Qed.

Lemma val_snoc (radix d : Z) (l : list Z) :
  val radix (l ++ [d]) = val radix l * radix + d.
Proof. rewrite val_app. simpl. unfold val at 2. simpl. lia. Qed.

Lemma val_replicate_0 (radix : Z) (n : nat) : val radix (replicate n 0) = 0.
Proof.
  induction n as [|n IH]; [done|].
  change (replicate (S n) 0) with ([0] ++ replicate n 0).
  rewrite val_app, IH. unfold val. simpl. lia.
Qed.

Lemma val_bound (radix : Z) (l : list Z) :
  2 <= radix -> Forall (isDigit radix) l ->
  0 <= val radix l < radix ^ Z.of_nat (length l).
Proof.
  intros Hr. induction l as [|d l IH] using rev_ind; intros Hl.
  - unfold val. simpl. lia.
  - apply Forall_app in Hl as [Hl Hd]. apply Forall_inv in Hd.
    specialize (IH Hl). rewrite val_snoc, length_app. simpl.
    rewrite Nat2Z.inj_add, Z.pow_add_r by lia. change (Z.of_nat 1) with 1.
    rewrite Z.pow_1_r. unfold isDigit in Hd.
    set (R := radix ^ Z.of_nat (length l)) in *.
    assert ((val radix l + 1) * radix <= R * radix) by (apply Z.mul_le_mono_nonneg_r; lia).
    assert (0 <= val radix l * radix) by (apply Z.mul_nonneg_nonneg; lia).
    lia.
Qed.

Lemma fixedAux_app (radix : Z) (n : nat) (x : Z) (acc : list Z) :
  fixedAux radix n x acc = fixed radix n x ++ acc.
Proof.
  unfold fixed. revert x acc. induction n as [|n IH]; intros x acc; [done|].
  simpl. rewrite (IH _ [_]), IH. by rewrite <- app_assoc.
Qed.

Lemma fixed_S (radix : Z) (n : nat) (x : Z) :
  fixed radix (S n) x = fixed radix n (x / radix) ++ [x mod radix].
Proof. unfold fixed at 1. simpl. by rewrite fixedAux_app. Qed.

Lemma fixed_length (radix : Z) (n : nat) (x : Z) : length (fixed radix n x) = n.
Proof.
  revert x. induction n as [|n IH]; intros x; [done|].
  rewrite fixed_S, length_app, IH. simpl. lia.
Qed.

Lemma fixed_isDigit (radix : Z) (n : nat) (x : Z) :
  0 < radix -> Forall (isDigit radix) (fixed radix n x).
Proof.
  intros Hr. revert x. induction n as [|n IH]; intros x; [by constructor|].
  rewrite fixed_S. apply Forall_app. split; [apply IH|].
  apply Forall_singleton. apply Z.mod_pos_bound. lia.
Qed.

Lemma fixed_val (radix : Z) (n : nat) (x : Z) :
  0 < radix -> 0 <= x < radix ^ Z.of_nat n -> val radix (fixed radix n x) = x.
Proof.
  intros Hr. revert x. induction n as [|n IH]; intros x Hx.
  - simpl in Hx. unfold val. simpl. lia.
  - rewrite fixed_S, val_snoc, IH.
    + pose proof (Z.div_mod x radix). lia.
    + rewrite Nat2Z.inj_succ, Z.pow_succ_r in Hx by lia.
      split; [apply Z.div_pos; lia|apply Z.div_lt_upper_bound; lia].
Qed.

Lemma fixed_0 (radix : Z) (n : nat) : fixed radix n 0 = replicate n 0.
Proof.
  induction n as [|n IH]; [done|].
  rewrite fixed_S, Zdiv_0_l, Zmod_0_l, IH.
  change [0] with (replicate 1 0). rewrite <- replicate_add.
  f_equal. lia.
Qed.

(** The digits that [toString] prints are the fixed-width digits without
    their leading zeros. *)
Lemma digitsAux_fixed (radix : Z) (fuel : nat) (x : Z) (acc : list Z) :
  2 <= radix -> 0 <= x < radix ^ Z.of_nat fuel ->
  exists D,
    digitsAux radix fuel x acc = D ++ acc
    /\ fixed radix fuel x = replicate (fuel - length D) 0 ++ D
    /\ (length D <= fuel)%nat
    /\ (0 < x -> exists d D', D = d :: D' /\ d <> 0).
Proof.
  intros Hr. revert x acc. induction fuel as [|f IH]; intros x acc Hx.
  - simpl in Hx. exists []. simpl. split_and!; try done. lia.
  - simpl digitsAux. destruct (Z.ltb_spec x radix) as [Hlt|Hge].
    + exists [x]. split; [done|]. rewrite fixed_S, Z.div_small, Z.mod_small by lia.
      rewrite fixed_0. simpl. rewrite Nat.sub_0_r.
      split_and!; [done|lia|]. intros. exists x, []. split; [done|lia].
    + rewrite Nat2Z.inj_succ, Z.pow_succ_r in Hx by lia.
      destruct (IH (x / radix) (x mod radix :: acc)) as (D & HD & HF & HL & HN).
      { split; [apply Z.div_pos; lia|apply Z.div_lt_upper_bound; lia]. }
      exists (D ++ [x mod radix]). rewrite HD, <- app_assoc. split; [done|].
      rewrite fixed_S, HF, length_app. simpl.
      assert (0 < x / radix) as Hpos.
      { apply Z.div_str_pos. lia. }
      destruct (HN Hpos) as (d & D' & -> & Hd). simpl in *.
      replace (f - S (length D'))%nat with (S f - (S (length D' + 1)))%nat by lia.
      rewrite <- app_assoc. split_and!; [done|lia|].
      intros _. exists d, (D' ++ [x mod radix]). done.
Qed.

Lemma pow_log2_bound (radix x : Z) :
  2 <= radix -> 0 <= x -> x < radix ^ Z.of_nat (S (Z.to_nat (Z.log2 x))).
Proof.
  intros Hr Hx. destruct (decide (x = 0)) as [->|Hne].
  - apply Z.pow_pos_nonneg; lia.
  - pose proof (Z.log2_nonneg x).
    rewrite Nat2Z.inj_succ, Z2Nat.id by lia.
    pose proof (Z.log2_spec x ltac:(lia)) as [_ Hlt].
    eapply Z.lt_le_trans; [apply Hlt|].
    apply Z.pow_le_mono_l. lia.
Qed.

(** [toString] against the fixed-width digits, for any width that fits. *)
Lemma digits_fixed (radix : Z) (n : nat) (x : Z) :
  2 <= radix -> (1 <= n)%nat -> 0 <= x < radix ^ Z.of_nat n ->
  fixed radix n x = replicate (n - length (digits radix x)) 0 ++ digits radix x
  /\ (length (digits radix x) <= n)%nat.
Proof.
  intros Hr Hn Hx. unfold digits.
  destruct (digitsAux_fixed radix (S (Z.to_nat (Z.log2 x))) x [] Hr) as (D & HD & HF & HL & HN).
  { split; [lia|apply pow_log2_bound; lia]. }
  rewrite HD, app_nil_r.
  destruct (digitsAux_fixed radix n x [] Hr Hx) as (D2 & HD2 & HF2 & HL2 & HN2).
  assert (D = D2) as <-; [|done].
  destruct (decide (x = 0)) as [->|Hne].
  - destruct n as [|n].
    + lia.
    + simpl in HD, HD2. rewrite app_nil_r in HD, HD2.
      replace (0 <? radix) with true in * by (symmetry; apply Z.ltb_lt; lia).
      congruence.
  - destruct (HN ltac:(lia)) as (d & D' & -> & Hd).
    destruct (HN2 ltac:(lia)) as (d2 & D2' & -> & Hd2).
    assert (val radix (fixed radix n x) = x) as Hv1 by (apply fixed_val; lia).
    assert (val radix (fixed radix (S (Z.to_nat (Z.log2 x))) x) = x) as Hv2.
    { apply fixed_val; [lia|]. split; [lia|apply pow_log2_bound; lia]. }
    (* both are the digits of x without leading zeros *)
    assert (Forall (isDigit radix) (d :: D')) as HdD.
    { eapply Forall_app. rewrite <- HF. apply fixed_isDigit. lia. }
    assert (Forall (isDigit radix) (d2 :: D2')) as HdD2.
    { eapply Forall_app. rewrite <- HF2. apply fixed_isDigit. lia. }
    rewrite HF, val_app, val_replicate_0 in Hv2.
    rewrite HF2, val_app, val_replicate_0 in Hv1. simpl in Hv1, Hv2.
    clear HD HD2 HF HF2 HL HL2 HN HN2.
    assert (forall l k, Forall (isDigit radix) l -> Forall (isDigit radix) k ->
              val radix l = val radix k -> length l = length k -> l = k) as Hinj.
    { induction l as [|a l IHl] using rev_ind; intros k Hl Hk Hv Hlen.
      - destruct k; [done|]. simpl in Hlen. lia.
      - destruct k as [|b k _] using rev_ind.
        { rewrite length_app in Hlen. simpl in Hlen. lia. }
        apply Forall_app in Hl as [Hl Ha]. apply Forall_inv in Ha.
        apply Forall_app in Hk as [Hk Hb]. apply Forall_inv in Hb.
        rewrite !val_snoc in Hv. rewrite !length_app in Hlen. simpl in Hlen.
        unfold isDigit in *.
        assert (a = b) as ->.
        { apply (f_equal (fun z => z mod radix)) in Hv.
          rewrite !(Z.add_comm _ a), !(Z.add_comm _ b), !Z_mod_plus_full in Hv.
          rewrite !Z.mod_small in Hv by lia. done. }
        assert (val radix l = val radix k) as Hv' by nia.
        f_equal. apply IHl; try done. lia. }
    assert (forall l, Forall (isDigit radix) l ->
              forall a l', l = a :: l' -> a <> 0 ->
              radix ^ Z.of_nat (length l') <= val radix l) as Hlow.
    { intros l Hl a l' -> Ha. change (a :: l') with ([a] ++ l').
      rewrite val_app. apply Forall_cons in Hl as [Hda Hl'].
      pose proof (val_bound radix l' Hr Hl'). unfold val at 1. simpl.
      unfold isDigit in Hda. nia. }
    apply Hinj; try done; [lia|].
    pose proof (Hlow _ HdD _ _ eq_refl Hd) as L1.
    pose proof (Hlow _ HdD2 _ _ eq_refl Hd2) as L2.
    pose proof (val_bound radix _ Hr HdD) as U1.
    pose proof (val_bound radix _ Hr HdD2) as U2.
    simpl length in *.
    destruct (Nat.lt_trichotomy (length D') (length D2')) as [Hlt|[Heq|Hgt]];
      [|lia|].
    + assert (radix ^ Z.of_nat (S (length D')) <= radix ^ Z.of_nat (length D2'))
        by (apply Z.pow_le_mono_r; lia). lia.
    + assert (radix ^ Z.of_nat (S (length D2')) <= radix ^ Z.of_nat (length D'))
        by (apply Z.pow_le_mono_r; lia). lia.
Qed.
(** *** Strings of digits *)

Lemma fixed_add (radix : Z) (n m : nat) (x : Z) :
  0 < radix ->
  fixed radix (n + m) x
  = fixed radix n (x / radix ^ Z.of_nat m) ++ fixed radix m (x mod radix ^ Z.of_nat m).
Proof.
  intros Hr. revert x. induction m as [|m IH]; intros x.
  - rewrite Nat.add_0_r. simpl. rewrite Z.div_1_r, app_nil_r. done.
  - replace (n + S m)%nat with (S (n + m)) by lia.
    rewrite !fixed_S, IH, <- app_assoc.
    rewrite Nat2Z.inj_succ, Z.pow_succ_r by lia.
    assert (0 < radix ^ Z.of_nat m) as Hp by (apply Z.pow_pos_nonneg; lia).
    rewrite Z.div_div by lia.
    rewrite (Z.mul_comm radix). rewrite <- (Z.div_div x) by lia.
    f_equal. f_equal.
    + f_equal. rewrite (Z.mul_comm _ radix).
      rewrite Z.rem_mul_r by lia.
      rewrite (Z.mul_comm radix), Z.div_add by lia.
      rewrite (Z.div_small (x mod radix)) by (apply Z.mod_pos_bound; lia). lia.
    + f_equal. rewrite (Z.mul_comm _ radix).
      rewrite Z.rem_mul_r by lia.
      rewrite (Z.mul_comm radix), Z_mod_plus_full.
      by rewrite Z.mod_mod by lia.
Qed.

Lemma toString_nonneg (radix x : Z) :
  0 <= x -> toString radix x = digitChar <$> digits radix x.
Proof.
  intros Hx. unfold toString.
  by replace (x <? 0) with false by (symmetry; apply Z.ltb_ge; lia).
Qed.

Lemma padStart_toString (radix : Z) (n : nat) (x : Z) :
  2 <= radix -> (1 <= n)%nat -> 0 <= x < radix ^ Z.of_nat n ->
  padStart n 48 (toString radix x) = digitChar <$> fixed radix n x.
Proof.
  intros Hr Hn Hx. rewrite toString_nonneg by lia.
  destruct (digits_fixed radix n x Hr Hn Hx) as [-> Hlen].
  unfold padStart. rewrite fmap_app, fmap_replicate, length_fmap. done.
Qed.

Lemma digitIn_digitChar (radix d : Z) :
  radix <= 36 -> 0 <= d < radix -> digitIn radix (digitChar d) = Some d.
Proof.
  intros Hr Hd. unfold digitIn, digitVal, digitChar.
  destruct (Z.ltb_spec d 10).
  - replace ((48 <=? 48 + d) && (48 + d <=? 57)) with true.
    2:{ symmetry. apply andb_true_iff. split; apply Z.leb_le; lia. }
    replace (48 + d - 48) with d by lia.
    by replace (d <? radix) with true by (symmetry; apply Z.ltb_lt; lia).
  - replace ((48 <=? 87 + d) && (87 + d <=? 57)) with false.
    2:{ symmetry. apply andb_false_iff. right. apply Z.leb_gt. lia. }
    replace ((97 <=? 87 + d) && (87 + d <=? 122)) with true.
    2:{ symmetry. apply andb_true_iff. split; apply Z.leb_le; lia. }
    replace (87 + d - 87) with d by lia.
    by replace (d <? radix) with true by (symmetry; apply Z.ltb_lt; lia).
Qed.

Lemma parsePrefix_digits (radix : Z) (D : list Z) (acc : Z) :
  radix <= 36 -> Forall (isDigit radix) D ->
  parsePrefix radix (digitChar <$> D) acc
  = foldl (fun a d => a * radix + d) acc D.
Proof.
  intros Hr HD. revert acc. induction HD as [|d D Hd HD IH]; intros acc; [done|].
  simpl. rewrite digitIn_digitChar by done. apply IH.
Qed.

Lemma allDigits_digits (radix : Z) (D : list Z) :
  radix <= 36 -> Forall (isDigit radix) D -> allDigits radix (digitChar <$> D) = true.
Proof.
  intros Hr HD. induction HD as [|d D Hd HD IH]; [done|].
  simpl. by rewrite digitIn_digitChar.
Qed.

Lemma parseInt_nosign (radix c : Z) (s : jsstring) :
  c <> 45 -> c <> 43 ->
  parseInt (c :: s) radix
  = match digitIn radix c with
    | None => None
    | Some _ => Some (parsePrefix radix (c :: s) 0)
    end.
Proof.
  intros H1 H2. unfold parseInt.
  destruct c as [|q|q]; try done;
    repeat (destruct q as [q|q|]; try (done || congruence)).
Qed.

Lemma parseInt_digits (radix : Z) (D : list Z) :
  radix <= 36 -> Forall (isDigit radix) D -> D <> [] ->
  parseInt (digitChar <$> D) radix = Some (val radix D).
Proof.
  intros Hr HD Hne. destruct D as [|d D]; [done|].
  pose proof (Forall_inv HD) as Hd.
  assert (digitChar d <> 45 /\ digitChar d <> 43) as [H1 H2].
  { unfold digitChar, isDigit in *. destruct (d <? 10) eqn:E; lia. }
  cbn [fmap list_fmap]. rewrite parseInt_nosign, digitIn_digitChar by done.
  f_equal. apply (parsePrefix_digits radix (d :: D)); done.
Qed.

Lemma isWhiteSpace_digitChar (d : Z) :
  0 <= d < 36 -> isWhiteSpace (digitChar d) = false.
Proof.
  intros Hd. unfold isWhiteSpace, digitChar.
  destruct (d <? 10) eqn:E;
    [apply Z.ltb_lt in E|apply Z.ltb_ge in E];
    repeat (apply orb_false_iff; split);
    try (apply Z.eqb_neq; lia);
    apply andb_false_iff; left; apply Z.leb_gt; lia.
Qed.

Lemma dropTrailingSpace_digits (radix : Z) (D : list Z) :
  radix <= 36 -> Forall (isDigit radix) D ->
  dropTrailingSpace (digitChar <$> D) = digitChar <$> D.
Proof.
  intros Hr HD. unfold dropTrailingSpace.
  destruct D as [|d D _] using rev_ind; [done|].
  apply Forall_app in HD as [_ Hd]. apply Forall_inv in Hd.
  rewrite fmap_app, reverse_app. simpl.
  rewrite isWhiteSpace_digitChar by (unfold isDigit in Hd; lia).
  change (digitChar d :: reverse (digitChar <$> D))
    with (reverse [digitChar d] ++ reverse (digitChar <$> D)).
  by rewrite <- reverse_app, reverse_involutive.
Qed.

Lemma digits_val (radix x : Z) :
  2 <= radix -> 0 <= x ->
  val radix (Js.digits radix x) = x /\ Forall (isDigit radix) (Js.digits radix x).
Proof.
  intros Hr Hx.
  pose proof (pow_log2_bound radix x Hr Hx) as Hb.
  destruct (digits_fixed radix (S (Z.to_nat (Z.log2 x))) x Hr ltac:(lia) ltac:(lia))
    as [HF HL].
  pose proof (fixed_val radix (S (Z.to_nat (Z.log2 x))) x ltac:(lia) ltac:(lia)) as Hv.
  pose proof (fixed_isDigit radix (S (Z.to_nat (Z.log2 x))) x ltac:(lia)) as Hd.
  rewrite HF in Hv, Hd. rewrite val_app, val_replicate_0 in Hv.
  apply Forall_app in Hd as [_ Hd]. split; [lia|done].
Qed.

End DigitsFacts.

(** ** Hex and integer conversions *)

Module UtilsFacts.
Import Utils Digits DigitsFacts.

Lemma HEX_fixed (b : byte) : HEX b = Js.digitChar <$> fixed 16 2 (b2z b).
Proof.
  unfold HEX. apply padStart_toString; [lia|lia|].
  pose proof (b2z_range b). simpl. lia.
Qed.

Lemma DECODE_digitChar (d : Z) : 0 <= d < 16 -> DECODE (Js.digitChar d) = d.
Proof.
  intros Hd. unfold DECODE, Js.digitChar.
  destruct (Z.ltb_spec d 10).
  - replace ((48 <=? 48 + d) && (48 + d <? 58)) with true; [lia|].
    symmetry. apply andb_true_iff. split; [apply Z.leb_le|apply Z.ltb_lt]; lia.
  - replace ((48 <=? 87 + d) && (87 + d <? 58)) with false.
    2:{ symmetry. apply andb_false_iff. right. apply Z.ltb_ge. lia. }
    replace ((65 <=? 87 + d) && (87 + d <? 71)) with false.
    2:{ symmetry. apply andb_false_iff. right. apply Z.ltb_ge. lia. }
    replace ((97 <=? 87 + d) && (87 + d <? 103)) with true; [lia|].
    symmetry. apply andb_true_iff. split; [apply Z.leb_le|apply Z.ltb_lt]; lia.
Qed.

Lemma land_nibbles (d1 d2 : Z) :
  0 <= d2 < 16 -> Z.land (d1 * 2 ^ 4) d2 = 0.
Proof.
  intros H2. apply Z.bits_inj'. intros n Hn.
  rewrite Z.land_spec, Z.bits_0. destruct (Z.ltb_spec n 4).
  - by rewrite Z.mul_pow2_bits_low by lia.
  - replace (Z.testbit d2 n) with false; [by rewrite andb_false_r|].
    symmetry. destruct (decide (d2 = 0)) as [->|]; [apply Z.bits_0|].
    apply Z.bits_above_log2; [lia|].
    assert (Z.log2 d2 < 4) by (apply Z.log2_lt_pow2; lia). lia.
Qed.

Lemma lor_nibbles (d1 d2 : Z) :
  0 <= d1 -> 0 <= d2 < 16 -> Z.lor (Z.shiftl d1 4) d2 = d1 * 16 + d2.
Proof.
  intros H1 H2. rewrite Z.shiftl_mul_pow2 by lia.
  rewrite <- Z.lxor_lor, <- Z.add_nocarry_lxor by (by apply land_nibbles).
  done.
Qed.

Lemma fixed_two (d1 d2 : Z) :
  0 <= d1 < 16 -> 0 <= d2 < 16 -> fixed 16 2 (d1 * 16 + d2) = [d1; d2].
Proof.
  intros H1 H2. rewrite !fixed_S. simpl.
  rewrite Z.div_add_l, Z.div_small, Z.add_0_r by lia.
  rewrite Z.add_comm, Z_mod_plus_full, !Z.mod_small by lia. done.
Qed.

Lemma bytesToHex_cons (b : byte) (bs : list byte) :
  bytesToHex (b :: bs) = HEX b ++ bytesToHex bs.
Proof. done. Qed.

Lemma bytesToHex_app (l k : list byte) :
  bytesToHex (l ++ k) = bytesToHex l ++ bytesToHex k.
Proof.
  induction l as [|b l IH]; [done|].
  simpl. rewrite !bytesToHex_cons, IH. by rewrite app_assoc.
Qed.

(** Decoding a string of an even number of hex digits and printing the
    bytes gives the string back. *)
Lemma hexPairs_digits (k : nat) (D : list Z) :
  length D = (2 * k)%nat -> Forall (isDigit 16) D ->
  length (hexPairs (Js.digitChar <$> D)) = k
  /\ bytesToHex (hexPairs (Js.digitChar <$> D)) = Js.digitChar <$> D.
Proof.
  revert D. induction k as [|k IH]; intros D Hlen HD.
  - destruct D; [done|simpl in Hlen; lia].
  - destruct D as [|d1 [|d2 D]]; try (simpl in Hlen; lia).
    apply Forall_cons in HD as [Hd1 HD]. apply Forall_cons in HD as [Hd2 HD].
    unfold isDigit in Hd1, Hd2.
    destruct (IH D) as [IH1 IH2]; [simpl in Hlen; lia|done|].
    cbn [fmap list_fmap hexPairs length].
    rewrite bytesToHex_cons, !DECODE_digitChar, lor_nibbles by lia.
    rewrite IH1, IH2, HEX_fixed, b2z_z2b by lia.
    rewrite fixed_two by lia. done.
Qed.

Lemma BigInt0x_digits (D : list Z) :
  D <> [] -> Forall (isDigit 16) D ->
  BigInt0x (Js.digitChar <$> D) = Ok (val 16 D).
Proof.
  intros Hne HD. unfold BigInt0x.
  rewrite (dropTrailingSpace_digits 16) by (done || lia).
  destruct (Js.digitChar <$> D) as [|c s] eqn:E.
  { by destruct D. }
  rewrite <- E, allDigits_digits by (done || lia).
  by rewrite parsePrefix_digits by (done || lia).
Qed.

Lemma pow_16_64 : 16 ^ Z.of_nat 64 = 2 ^ 256.
Proof. reflexivity. Qed.

(** [intToBytes(x, 32)] is 32 bytes that [bytesToInt] reads back. *)
Lemma intToBytes_32 (x : Z) :
  0 <= x < 2 ^ 256 ->
  exists bs,
    intToBytes x (Some 32%nat) = Ok bs /\ length bs = 32%nat
    /\ bytesToInt bs = Ok x.
Proof.
  intros Hx. unfold intToBytes, intToHex, hexToBytes, bytesToInt.
  rewrite padStart_toString by (rewrite ?pow_16_64; lia).
  change (32 * 2)%nat with 64%nat. rewrite length_fmap, fixed_length.
  cbn [Z.odd Z.of_nat Pos.of_succ_nat].
  assert (Forall (isDigit 16) (fixed 16 64 x)) as HD by (apply fixed_isDigit; lia).
  destruct (hexPairs_digits 32 (fixed 16 64 x)) as [H1 H2];
    [by rewrite fixed_length|done|].
  eexists. split_and!; [done|done|].
  rewrite H2, BigInt0x_digits; [|by intros E%(f_equal length); rewrite fixed_length in E|done].
  f_equal. apply fixed_val; [lia|]. rewrite pow_16_64. lia.
Qed.



(** The two conversions used by [Payload.buildMessage]. *)
Lemma hex8 (v : Z) :
  0 <= v <= 255 -> Js.padStart 2 48 (Js.toString 16 v) = HEX (z2b v).
Proof. intros Hv. unfold HEX. by rewrite b2z_z2b by lia. Qed.

Lemma hex16 (v : Z) :
  0 <= v <= 65535 ->
  Js.padStart 4 48 (Js.toString 16 v)
  = HEX (z2b (v / 256)) ++ HEX (z2b (v mod 256)).
Proof.
  intros Hv. rewrite padStart_toString by (simpl; lia).
  rewrite !HEX_fixed, !b2z_z2b.
  - rewrite <- fmap_app. f_equal. apply (fixed_add 16 2 2 v). lia.
  - apply Z.mod_pos_bound. lia.
  - split; [apply Z.div_pos; lia|apply Z.div_lt_upper_bound; lia].
Qed.
End UtilsFacts.

(** ** The payload codec *)

Module PayloadFacts.
Import Payload PayloadSpec.

Ltac explode l H :=
  repeat (destruct l as [|? l]; [simpl in H; lia|]);
  destruct l; [clear H|simpl in H; lia].

Lemma land_65535 (n : Z) : 0 <= n -> Z.land n 65535 = n mod 65536.
Proof. intros. change 65535 with (Z.ones 16). by rewrite Z.land_ones. Qed.

Lemma toBytes_frame (p : t) :
  wf p -> toBytes p = Ok (frame p).
Proof.
  intros [Hm Hv Hp Ht Hi Hk Hs Hd]. destruct p as [m v pre ty i pk sg d].
  simpl in *. subst m v.
  explode pre Hp. explode i Hi. explode pk Hk. explode sg Hs.
  unfold toBytes, frame, setAt, writeU16, MARKER.
  cbn [marker version prefix type id publicKey signature data length
       Nat.add replicate take drop app Nat.ltb Nat.leb bind list_insert alter
       insert Nat.sub].
  rewrite !length_replicate.
  cbn [marker version prefix type id publicKey signature data length
       Nat.add replicate take drop app Nat.ltb Nat.leb bind list_insert alter
       insert Nat.sub].
  replace (match length d with 0%nat => false | S m' => (length d <=? m')%nat end)
    with false.
  2:{ destruct (length d) as [|n] eqn:E; [done|]. symmetry. apply Nat.leb_gt. lia. }
  rewrite drop_replicate, Nat.sub_diag. cbn [replicate app take].
  rewrite app_nil_r.
  rewrite land_65535 by lia.
  rewrite !(Z.mod_small ty 65536) by lia.
  rewrite !(Z.mod_small (Z.of_nat (length d)) 65536) by lia.
  reflexivity.
Qed.

Lemma readU16_pair (lo hi : byte) (rest pre : list byte) (off : nat) :
  length pre = off ->
  readU16 (pre ++ lo :: hi :: rest) off = b2z lo + 256 * b2z hi.
Proof.
  intros <-. unfold readU16, byteAt.
  rewrite !app_nth2 by lia.
  replace (length pre - length pre)%nat with 0%nat by lia.
  replace (length pre + 1 - length pre)%nat with 1%nat by lia. done.
Qed.

Lemma u16_split (v : Z) :
  0 <= v <= 65535 -> b2z (z2b (v mod 256)) + 256 * b2z (z2b (v / 256)) = v.
Proof.
  intros Hv. rewrite !b2z_z2b.
  - pose proof (Z.div_mod v 256). lia.
  - split; [apply Z.div_pos; lia|apply Z.div_lt_upper_bound; lia].
  - apply Z.mod_pos_bound. lia.
Qed.

Lemma fromBytes_frame (p : t) (s : list byte) :
  wf p -> fromBytes (frame p ++ s) = Ok p.
Proof.
  intros [Hm Hv Hp Ht Hi Hk Hs Hd]. destruct p as [m v pre ty i pk sg d].
  simpl in *. subst m v.
  explode pre Hp. explode i Hi. explode pk Hk. explode sg Hs.
  unfold fromBytes, frame, MARKER.
  cbn [marker version prefix type id publicKey signature data app].
  replace (Z.of_nat (length _) <? HEADER_SIZE) with false.
  2:{ symmetry. apply Z.ltb_ge. cbn [length]. unfold HEADER_SIZE. lia. }
  unfold subarray at 1. cbn [take drop Nat.sub].
  rewrite bool_decide_eq_true_2 by done. cbn [negb].
  unfold byteAt at 1. cbn [nth].
  replace (b2z (z2b PROTOCOL_VERSION) =? PROTOCOL_VERSION) with true by done.
  cbn [negb].
  unfold Identifier.fromBytes, subarray, new.
  cbn [take drop Nat.sub length Nat.eqb negb bind Nat.add].
  match goal with |- context [readU16 ?l 9] =>
    change (readU16 l 9) with (b2z (z2b (ty mod 256)) + 256 * b2z (z2b (ty / 256)))
  end.
  match goal with |- context [readU16 ?l 141] =>
    change (readU16 l 141) with
      (b2z (z2b (Z.of_nat (length d) mod 256))
       + 256 * b2z (z2b (Z.of_nat (length d) / 256)))
  end.
  rewrite !u16_split by lia.
  rewrite Nat2Z.id.
  cbn [take drop Nat.sub length Nat.eqb negb bind Nat.add Identifier.bytes].
  rewrite Nat.sub_0_r, drop_0, take_app_length, Z.eqb_refl. cbn [negb].
  unfold toUint32. rewrite Z.mod_small by lia.
  replace (65535 <? ty) with false by (symmetry; apply Z.ltb_ge; lia).
  reflexivity.
Qed.

Lemma frame_length (p : t) :
  wf p -> length (frame p) = (143 + length (data p))%nat.
Proof.
  intros [Hm Hv Hp Ht Hi Hk Hs Hd]. unfold frame.
  rewrite !length_app, Hm, Hp, Hi, Hk, Hs. simpl. lia.
Qed.

Lemma readU16_range (buf : list byte) (off : nat) : 0 <= readU16 buf off <= 65535.
Proof.
  unfold readU16, byteAt.
  pose proof (b2z_range (nth off buf x00)).
  pose proof (b2z_range (nth (off + 1) buf x00)). lia.
Qed.

Lemma subarray_length (bytes : list byte) (i j : nat) :
  (j <= length bytes)%nat -> length (subarray bytes i j) = (j - i)%nat.
Proof. intros. unfold subarray. rewrite length_take, length_drop. lia. Qed.

Lemma fromBytes_parses (bytes : list byte) :
  parses bytes -> fromBytes bytes = Ok (parsed bytes).
Proof.
  intros (Hlen & Hm & Hv & Hd). unfold fromBytes, HEADER_SIZE in *.
  replace (Z.of_nat (length bytes) <? 143) with false
    by (symmetry; apply Z.ltb_ge; lia).
  rewrite bool_decide_eq_true_2 by done. rewrite Hv, Z.eqb_refl. cbn [negb].
  unfold Identifier.fromBytes. rewrite subarray_length by lia.
  cbn [Nat.sub Nat.eqb negb bind].
  rewrite Hd, Z.eqb_refl. cbn [negb]. unfold new.
  pose proof (readU16_range bytes 9).
  unfold toUint32. rewrite Z.mod_small by lia.
  replace (65535 <? readU16 bytes 9) with false
    by (symmetry; apply Z.ltb_ge; lia).
  rewrite subarray_length by lia. reflexivity.
Qed.

Lemma fromBytes_inv (bytes : list byte) (p : t) :
  fromBytes bytes = Ok p -> parses bytes /\ p = parsed bytes.
Proof.
  intros Hp. assert (parses bytes) as Hok.
  { unfold fromBytes in Hp. unfold parses.
    destruct (Z.ltb_spec (Z.of_nat (length bytes)) HEADER_SIZE); [done|].
    destruct (decide (subarray bytes 0 4 = MARKER)) as [Hm|Hm].
    2:{ by rewrite bool_decide_eq_false_2 in Hp. }
    rewrite bool_decide_eq_true_2 in Hp by done. cbn [negb] in Hp.
    destruct (Z.eqb_spec (byteAt bytes 4) PROTOCOL_VERSION); [|done].
    cbn [negb] in Hp.
    destruct (Identifier.fromBytes _); [|done]. cbn [bind] in Hp.
    destruct (Z.eqb_spec
      (Z.of_nat (length (subarray bytes 143 (143 + Z.to_nat (readU16 bytes 141)))))
      (readU16 bytes 141)); [|done].
    done. }
  split; [done|]. rewrite (fromBytes_parses _ Hok) in Hp. congruence.
Qed.

Lemma parsed_wf (bytes : list byte) : parses bytes -> wf (parsed bytes).
Proof.
  intros (Hlen & Hm & Hv & Hd). unfold HEADER_SIZE in *.
  pose proof (readU16_range bytes 141).
  split; cbn [parsed marker version prefix type id publicKey signature data];
    try done; try (rewrite subarray_length by lia; done).
  - apply readU16_range.
  - lia.
Qed.

Lemma fromBytes_wf (bytes : list byte) (p : t) : fromBytes bytes = Ok p -> wf p.
Proof. intros [Hok ->]%fromBytes_inv. by apply parsed_wf. Qed.

Lemma new_wf (prefix_ : list byte) (type_ : Z) (identifier : Identifier.t)
    (publicKey_ data_ : list byte) (p : t) :
  length prefix_ = 4%nat -> 0 <= type_ <= 65535 ->
  length (Identifier.bytes identifier) = 33%nat ->
  Z.of_nat (length data_) <= 65535 ->
  new prefix_ type_ identifier publicKey_ data_ = Ok p -> wf p.
Proof.
  intros Hp Ht Hi Hd. unfold new.
  destruct (65535 <? toUint32 type_); [done|].
  destruct (Nat.eqb_spec (length publicKey_) 33); [|done].
  cbn [negb]. intros [= <-]. split; cbn; done.
Qed.

(** C5.  For a prefix of 4 bytes, a type in 0..65535, an identifier and
    a public key of 33 bytes and at most 65535 bytes of data, the
    constructor succeeds, the fresh payload has a signature of 64 zero
    bytes, and parsing its serialised form gives the payload back, field by
    field. *)
Theorem roundtrip_fresh_payload (prefix_ : list byte) (type_ : Z)
    (identifier : Identifier.t) (publicKey_ data_ : list byte) :
  length prefix_ = 4%nat -> 0 <= type_ <= 65535 ->
  length (Identifier.bytes identifier) = 33%nat ->
  length publicKey_ = 33%nat ->
  Z.of_nat (length data_) <= 65535 ->
  exists p bytes,
    new prefix_ type_ identifier publicKey_ data_ = Ok p
    /\ signature p = replicate 64 x00
    /\ toBytes p = Ok bytes
    /\ fromBytes bytes = Ok p.
Proof.
  intros Hp Ht Hi Hk Hd.
  assert (exists p, new prefix_ type_ identifier publicKey_ data_ = Ok p
                    /\ signature p = replicate 64 x00) as (p & Hnew & Hsig).
  { unfold new, toUint32. rewrite Z.mod_small by lia.
    replace (65535 <? type_) with false by (symmetry; apply Z.ltb_ge; lia).
    rewrite Hk. cbn. eauto. }
  pose proof (new_wf _ _ _ _ _ _ Hp Ht Hi Hd Hnew) as Hwf.
  exists p, (frame p). split_and!; [done|done|by apply toBytes_frame|].
  rewrite <- (app_nil_r (frame p)). by apply fromBytes_frame.
Qed.

Lemma roundtrip_fresh_payload_witness :
  exists p bytes,
    new [x54; x45; x53; x54] 1 sampleIdentifier samplePublicKey
        [xde; xad; xbe; xef] = Ok p
    /\ signature p = replicate 64 x00
    /\ toBytes p = Ok bytes
    /\ fromBytes bytes = Ok p.
Proof.
  apply (roundtrip_fresh_payload [x54; x45; x53; x54] 1 sampleIdentifier
           samplePublicKey [xde; xad; xbe; xef]);
    [reflexivity|lia|reflexivity|reflexivity|simpl; lia].
Defined.

(** C10.  For a well-formed payload with at most 65535 bytes of data and
    any bytes appended to its serialised form, the parser succeeds and
    gives the same payload as without them: what follows offset
    143 + dataLen is ignored. *)
Theorem trailing_bytes_ignored (p : t) (s : list byte) :
  wf p -> s <> [] ->
  exists bytes,
    toBytes p = Ok bytes
    /\ fromBytes (bytes ++ s) = Ok p
    /\ fromBytes (bytes ++ s) = fromBytes bytes.
Proof.
  intros Hwf _. exists (frame p).
  split_and!; [by apply toBytes_frame|by apply fromBytes_frame|].
  rewrite fromBytes_frame by done.
  rewrite <- (app_nil_r (frame p)) at 1. by rewrite fromBytes_frame.
Qed.

Lemma samplePayload_wf : wf samplePayload.
Proof. split; vm_compute; (done || lia || (intros; discriminate)). Qed.

Lemma trailing_bytes_ignored_witness :
  exists bytes,
    toBytes samplePayload = Ok bytes
    /\ fromBytes (bytes ++ [xff; x00]) = Ok samplePayload
    /\ fromBytes (bytes ++ [xff; x00]) = fromBytes bytes.
Proof.
  apply (trailing_bytes_ignored samplePayload [xff; x00] samplePayload_wf).
  discriminate.
Defined.
End PayloadFacts.

Module PayloadClaims.
Import Payload PayloadSpec PayloadFacts.

(** C1 as stated fails: for type 1 the code signs the digits [0001],
    the specification's little-endian bytes would read [0100]. *)
Lemma preimage_type_not_little_endian :
  buildMessage samplePayload (js "aa") <> specPreimage samplePayload (js "aa").
Proof. vm_compute. discriminate. Qed.

(** C1, amended.  The string that is signed is the lowercase hex of
    marker, version (1 byte), prefix, type as 2 bytes big-endian (four hex
    digits, most significant first), id, publicKey and data, in this
    order, followed by outpointIds; the signature is no part of it. *)
Theorem preimage_layout (p : t) (outIds : jsstring) :
  0 <= version p <= 255 -> 0 <= type p <= 65535 ->
  buildMessage p outIds
  = Utils.bytesToHex
      (marker p ++ [z2b (version p)] ++ prefix p
       ++ [z2b (type p / 256); z2b (type p mod 256)]
       ++ id p ++ publicKey p ++ data p)
    ++ outIds
  /\ forall sig, buildMessage (withSignature p sig) outIds = buildMessage p outIds.
Proof.
  intros Hv Ht. split; [|done]. unfold buildMessage.
  rewrite UtilsFacts.hex8, UtilsFacts.hex16 by done.
  rewrite !UtilsFacts.bytesToHex_app. cbn [mjoin list_join].
  rewrite !UtilsFacts.bytesToHex_cons. cbn [Utils.bytesToHex fmap list_fmap mjoin list_join].
  rewrite !app_nil_r, <- !app_assoc. done.
Qed.

Lemma preimage_layout_witness :
  buildMessage samplePayload (js "aa")
  = Utils.bytesToHex
      (marker samplePayload ++ [z2b (version samplePayload)] ++ prefix samplePayload
       ++ [z2b (type samplePayload / 256); z2b (type samplePayload mod 256)]
       ++ id samplePayload ++ publicKey samplePayload ++ data samplePayload)
    ++ js "aa"
  /\ forall sig, buildMessage (withSignature samplePayload sig) (js "aa")
                 = buildMessage samplePayload (js "aa").
Proof. apply (preimage_layout samplePayload (js "aa")); vm_compute; split; discriminate. Defined.

(** C3 as stated fails: a frame whose [id] and [publicKey] start with
    [0x00] is parsed. *)
Lemma zero_point_prefix_parses :
  isOk (fromBytes zeroPointFrame) = true /\ ~ specInvariants zeroPointFrame.
Proof.
  split; [by vm_compute|]. intros (_ & [H|H] & _); vm_compute in H; discriminate.
Qed.

(** C3, amended.  [Payload.fromBytes] throws if and only if the input
    is shorter than 143 bytes, or its first 4 bytes are not the marker, or
    its version byte is not 1, or fewer than [dataLen] bytes follow the
    header.  The first byte of [publicKey] and of [id] is not looked
    at. *)
Theorem fromBytes_fails_iff (bytes : list byte) :
  (exists e, fromBytes bytes = Err e) <-> ~ parses bytes.
Proof.
  split.
  - intros [e He] Hp. by rewrite (fromBytes_parses _ Hp) in He.
  - intros Hn. destruct (fromBytes bytes) as [p|e] eqn:E; [|by eexists].
    apply fromBytes_inv in E as [Hp _]. done.
Qed.

(** C9 as stated fails: the interior NUL of [A, NUL, B, NUL] is removed
    too. *)
Lemma interior_nul_removed :
  getPrefix interiorNulPayload = [65; 66]
  /\ specGetPrefix interiorNulPayload = [65; 0; 66]
  /\ getPrefix interiorNulPayload <> specGetPrefix interiorNulPayload.
Proof. vm_compute. split_and!; (done || discriminate). Qed.

Lemma utf8Run_ascii (bs : list byte) :
  Forall (fun b => b2z b <= 127) bs -> utf8Run utf8Init bs = b2z <$> bs.
Proof.
  induction 1 as [|b bs Hb Hbs IH]; [done|].
  cbn [utf8Run].
  replace (utf8Step utf8Init (b2z b)) with ([b2z b], utf8Init).
  2:{ unfold utf8Step, utf8Lead. cbn [utf8Init u_needed Z.eqb].
      by replace (b2z b <=? 127) with true by (symmetry; apply Z.leb_le; lia). }
  cbn [app]. by rewrite IH.
Qed.

Lemma TextDecoder_decode_ascii (bs : list byte) :
  Forall (fun b => b2z b <= 127) bs -> TextDecoder_decode bs = b2z <$> bs.
Proof.
  intros Hbs. unfold TextDecoder_decode. rewrite utf8Run_ascii by done.
  assert (Forall (fun c => c <= 127) (b2z <$> bs)) as Hc.
  { by apply Forall_fmap. }
  assert (forall l : list Z, Forall (fun c => c <= 127) l -> l ≫= toUtf16 = l) as Hu.
  { induction 1 as [|c l Hcl Hl IH]; [done|].
    cbn [mbind list_bind]. unfold toUtf16 at 1.
    replace (c <? 65536) with true by (symmetry; apply Z.ltb_lt; lia).
    cbn [app]. f_equal. apply IH. }
  destruct (b2z <$> bs) as [|c l] eqn:E; [done|].
  pose proof (Forall_inv Hc) as Hc0. cbn beta in Hc0.
  destruct c as [|q|q]; try (by apply Hu).
  assert (Z.pos q <> 65279) as Hne by lia.
  replace (match Z.pos q :: l with 65279 :: r => r | _ => Z.pos q :: l end)
    with (Z.pos q :: l); [by apply Hu|].
  repeat (destruct q as [q|q|]; try (done || congruence)).
Qed.

(** C9, amended.  For a prefix field of ASCII bytes, [getPrefix] is the
    field read as ASCII with every [0x00] removed, trailing or interior. *)
Theorem getPrefix_removes_every_nul (p : t) :
  Forall (fun b => b2z b <= 127) (prefix p) ->
  getPrefix p = b2z <$> filter (fun b => b <> x00) (prefix p).
Proof.
  intros Hp. unfold getPrefix, removeNul. rewrite TextDecoder_decode_ascii by done.
  clear Hp. induction (prefix p) as [|b bs IH]; [done|].
  cbn [fmap list_fmap]. destruct (decide (b = x00)) as [->|Hb].
  - rewrite (filter_cons_False _ x00) by (by intros []).
    rewrite (filter_cons_False _ (b2z x00)) by (by intros []). done.
  - rewrite (filter_cons_True _ b) by done.
    rewrite (filter_cons_True _ (b2z b)).
    + cbn [fmap list_fmap]. by f_equal.
    + intros E. apply Hb, b2z_inj. by rewrite E.
Qed.

Lemma getPrefix_removes_every_nul_witness :
  Forall (fun b => b2z b <= 127) (prefix interiorNulPayload)
  /\ getPrefix interiorNulPayload
     = b2z <$> filter (fun b => b <> x00) (prefix interiorNulPayload).
Proof.
  assert (Forall (fun b => b2z b <= 127) (prefix interiorNulPayload)) as H.
  { repeat constructor; vm_compute; discriminate. }
  split; [exact H|]. exact (getPrefix_removes_every_nul interiorNulPayload H).
Defined.
End PayloadClaims.

(** ** Loops *)

Module LoopFacts.
Section Iter.
Context {S R : Type}.
Variable step : S -> S + R.
Local Abbreviation iterN := (Loop.iterN step).

Lemma iterN_add (n m : nat) (s : S) :
  iterN (n + m) s
  = match iterN n s with inl s' => iterN m s' | inr r => inr r end.
Proof.
  revert s. induction n as [|n IH]; intros s; [done|].
  simpl. destruct (step s); [apply IH|done].
Qed.

Lemma iterP_iterN (p : positive) (s : S) :
  iterP p step s = iterN (Pos.to_nat p) s.
Proof.
  revert s. induction p as [p IH|p IH|]; intros s.
  - rewrite Pos2Nat.inj_xI.
    replace (Datatypes.S (2 * Pos.to_nat p)) with (1 + (Pos.to_nat p + Pos.to_nat p))%nat by lia.
    rewrite (iterN_add 1). cbn [iterN iterP].
    destruct (step s) as [s0|r]; [|done].
    rewrite iterN_add, <- IH. destruct (iterP p step s0); [apply IH|done].
  - rewrite Pos2Nat.inj_xO.
    replace (2 * Pos.to_nat p)%nat with (Pos.to_nat p + Pos.to_nat p)%nat by lia.
    cbn [iterP]. rewrite iterN_add, <- IH.
    destruct (iterP p step s); [apply IH|done].
  - change (Pos.to_nat 1) with 1%nat. cbn [iterN iterP]. by destruct (step s).
Qed.

Variable Inv : S -> Prop.
Variable Post : R -> Prop.
Variable measure : S -> Z.
Hypothesis measure_nonneg : forall s, Inv s -> 0 <= measure s.
Hypothesis step_ok : forall s, Inv s ->
  match step s with
  | inl s' => Inv s' /\ measure s' < measure s
  | inr r => Post r
  end.

Lemma iterN_terminates (n : nat) (s : S) :
  Inv s -> measure s < Z.of_nat n -> exists r, iterN n s = inr r /\ Post r.
Proof.
  revert s. induction n as [|n IH]; intros s Hs Hm.
  - pose proof (measure_nonneg s Hs). lia.
  - simpl. pose proof (step_ok s Hs) as Hstep.
    destruct (step s) as [s'|r]; [|by eexists].
    destruct Hstep as [Hs' Hlt]. apply IH; [done|lia].
Qed.

(** A loop with a variant exits within a budget above the variant. *)
Lemma runLoop_terminates (budget : Z) (s : S) :
  Inv s -> measure s < budget -> exists r, runLoop budget step s = Ok r /\ Post r.
Proof.
  intros Hs Hm. pose proof (measure_nonneg s Hs).
  unfold runLoop. rewrite iterP_iterN.
  destruct (iterN_terminates (Pos.to_nat (Z.to_pos budget)) s Hs) as (r & -> & Hr);
    [|by eexists].
  rewrite positive_nat_Z, Z2Pos.id by lia. done.
Qed.
End Iter.
End LoopFacts.

(** ** Modular reduction *)

Module ModFacts.
Import Utils LoopFacts.

Lemma mod__spec (a m : Z) : 0 < m -> mod_ a m = a mod m.
Proof.
  intros Hm. unfold mod_.
  pose proof (Z.rem_bound_abs a m ltac:(lia)).
  pose proof (Z.quot_rem' a m) as Hq.
  destruct (Z.leb_spec 0 (Z.rem a m)).
  - apply (Z.mod_unique_pos a m (a ÷ m)); lia.
  - apply (Z.mod_unique_pos a m (a ÷ m - 1)); lia.
Qed.

Lemma P_pos : 0 < P.
Proof. reflexivity. Qed.

Lemma barrett_under (z : Z) : 0 <= z -> Z.shiftr (z * MU) 512 * P <= z.
Proof.
  intros Hz. rewrite Z.shiftr_div_pow2 by lia.
  assert (MU * P <= 2 ^ 512) as HMU by (vm_compute; discriminate).
  assert (0 <= MU) by (vm_compute; discriminate).
  assert (0 < 2 ^ 512) as Hp by reflexivity.
  pose proof P_pos.
  set (q := z * MU / 2 ^ 512).
  assert (q * 2 ^ 512 <= z * MU).
  { unfold q. rewrite Z.mul_comm. apply Z.mul_div_le. lia. }
  assert (0 <= q) by (apply Z.div_pos; nia).
  assert (q * 2 ^ 512 * P <= z * 2 ^ 512) by nia.
  nia.
Qed.

(** The Barrett reduction is the residue modulo [P]. *)
Lemma modP_spec (x : Z) : modP x = x mod P.
Proof.
  pose proof P_pos as HP. unfold modP.
  set (z := if x <? 0 then Z.rem x P + P else x).
  assert (0 <= z /\ z mod P = x mod P) as [Hz Hzx].
  { unfold z. destruct (Z.ltb_spec x 0); [|done].
    pose proof (Z.rem_bound_abs x P ltac:(lia)).
    split; [lia|]. rewrite Z.rem_eq by lia.
    replace (x - P * (x ÷ P) + P) with (x + (1 - x ÷ P) * P) by lia.
    apply Z_mod_plus_full. }
  destruct (Z.ltb_spec z P) as [Hlt|Hge].
  { rewrite <- Hzx. symmetry. apply Z.mod_small. lia. }
  pose proof (barrett_under z Hz) as Hq.
  set (q := Z.shiftr (z * MU) 512) in *.
  replace (z - q * P <? 0) with false by (symmetry; apply Z.ltb_ge; lia).
  set (r := z - q * P).
  destruct (iterN_terminates
              (fun r' : Z => if P <=? r' then inl (r' - P) else inr r')
              (fun r' => 0 <= r' /\ r' mod P = x mod P)
              (fun r' => 0 <= r' < P /\ r' mod P = x mod P)
              (fun r' => r' / P)
              ltac:(intros s [? _]; apply Z.div_pos; lia)) with
    (n := Pos.to_nat (Z.to_pos (r / P + 1))) (s := r) as (r' & Hr' & Hpost).
  - intros s [Hs Hm]. destruct (Z.leb_spec P s).
    + split_and!; [lia| |].
      * rewrite <- Hm. replace (s - P) with (s + (-1) * P) by lia.
        apply Z_mod_plus_full.
      * replace s with ((s - P) + 1 * P) at 2 by lia.
        rewrite Z.div_add by lia. lia.
    + done.
  - split; [unfold r; lia|]. rewrite <- Hzx. unfold r.
    replace (z - q * P) with (z + (- q) * P) by lia. apply Z_mod_plus_full.
  - assert (0 <= r / P) by (apply Z.div_pos; unfold r; lia).
    rewrite positive_nat_Z, Z2Pos.id by lia. lia.
  - rewrite iterP_iterN, Hr'. destruct Hpost as [Hb <-].
    symmetry. by apply Z.mod_small.
Qed.
End ModFacts.

(** ** The extended gcd and the modular inverse *)

Module EgcdFacts.
Import Utils Egcd LoopFacts ModFacts Digits DigitsFacts.

Lemma bitLength_bound (b : Z) : 0 <= b -> b < 2 ^ bitLength b.
Proof.
  intros Hb. unfold bitLength. rewrite toString_nonneg, length_fmap by done.
  destruct (digits_val 2 b ltac:(lia) Hb) as [Hv Hd].
  pose proof (val_bound 2 _ ltac:(lia) Hd). lia.
Qed.

Section Inner.
(** The numbers being reduced and the shift of their leading parts. *)
Variables (a b T : Z).
Hypothesis a_pos : 0 < a.
Hypothesis b_pos : 0 < b.
Hypothesis T_pos : 0 < T.

Local Abbreviation innerInv := (Egcd.innerInv a b T).
Local Abbreviation cur_a := (Egcd.cur_a a b).
Local Abbreviation cur_b := (Egcd.cur_b a b).

Lemma quot_bounds (x y : Z) :
  0 <= x -> 0 < y -> 0 <= x ÷ y /\ (x ÷ y) * y <= x < (x ÷ y + 1) * y.
Proof.
  intros Hx Hy. rewrite Z.quot_div_nonneg by lia.
  pose proof (Z.div_pos x y Hx Hy).
  pose proof (Z.mul_div_le x y Hy).
  pose proof (Z.mul_succ_div_gt x y Hy). lia.
Qed.

Lemma gcd_euclid (x y q : Z) : Z.gcd y (x - q * y) = Z.gcd x y.
Proof.
  rewrite Z.gcd_comm. replace (x - q * y) with (x + (- q) * y) by lia.
  rewrite Z.gcd_comm, Z.gcd_add_mult_diag_r. apply Z.gcd_comm.
Qed.

Lemma innerStep_ok (s : Inner) :
  innerInv s ->
  match innerStep s with
  | inl s' => innerInv s' /\ i_bh s' + i_C s' < i_bh s + i_C s
  | inr r => innerInv r
  end.
Proof.
  destruct s as [ah bh A B C D]. intros Hinv. unfold innerStep.
  destruct (Z.eqb_spec (bh + C) 0) as [|Hc]; [done|].
  destruct (Z.eqb_spec (bh + D) 0) as [|Hd]; [done|]. cbn [orb].
  destruct (Z.eqb_spec ((ah + A) ÷ (bh + C)) ((ah + B) ÷ (bh + D))) as [Hq|];
    [|done]. cbn [negb].
  destruct Hinv as ((N1 & N2 & N3 & N4) & BD & Pa & Pb & PB & G).
  unfold cur_a, cur_b in *. cbn [i_A i_B i_C i_D i_ah i_bh] in *.
  destruct (quot_bounds (ah + A) (bh + C)) as (Q0 & Q1 & Q2); [lia|lia|].
  destruct (quot_bounds (ah + B) (bh + D)) as (_ & Q3 & Q4); [lia|lia|].
  rewrite <- Hq in Q3, Q4. set (q := (ah + A) ÷ (bh + C)) in *. clearbody q.
  unfold innerInv, cur_a, cur_b. cbn [i_A i_B i_C i_D i_ah i_bh].
  set (aj := A * a + B * b) in *. set (bj := C * a + D * b) in *.
  assert ((A - q * C) * a + (B - q * D) * b = aj - q * bj) as Hb' by (unfold aj, bj; lia).
  rewrite Hb'. fold bj.
  assert (0 <= aj - q * bj < bj /\
          ((T * (bh + C) <= bj <= T * (bh + D)
            /\ T * (ah - q * bh + (B - q * D)) <= aj - q * bj
               <= T * (ah - q * bh + (A - q * C)))
           \/ (T * (bh + D) <= bj <= T * (bh + C)
               /\ T * (ah - q * bh + (A - q * C)) <= aj - q * bj
                  <= T * (ah - q * bh + (B - q * D))))) as [Hrem Hbd].
  { destruct BD as [[[L1 U1] [L2 U2]]|[[L1 U1] [L2 U2]]].
    - split; [|left]; nia.
    - split; [|right]; nia. }
  split; [|lia].
  split_and!; try lia. rewrite gcd_euclid. done.
Qed.

Lemma inner_terminates (ah bh : Z) :
  0 <= ah -> 0 <= bh ->
  T * ah <= a <= T * (ah + 1) -> T * bh <= b <= T * (bh + 1) ->
  exists r, runLoop (bh + 1) innerStep (mkInner ah bh 1 0 0 1) = Ok r /\ innerInv r.
Proof.
  intros Hah Hbh Ha Hb.
  apply (runLoop_terminates innerStep innerInv innerInv
           (fun s => i_bh s + i_C s)).
  - intros [ah' bh' A B C D] (N & _). cbn. lia.
  - apply innerStep_ok.
  - unfold innerInv, cur_a, cur_b. cbn [i_A i_B i_C i_D].
    split_and!; try lia. f_equal; lia.
  - cbn. lia.
Qed.
End Inner.

Lemma euclidStep_ok (a0 b0 : Z) (s : Egcd) :
  outerInv a0 b0 s -> e_b s <> 0 ->
  outerInv a0 b0 (euclidStep s) /\ e_b (euclidStep s) < e_b s.
Proof.
  destruct s as [a b x y u v]. unfold outerInv. cbn.
  intros (Ha & Hb & Hx & Hu & G) Hne.
  destruct (quot_bounds a b) as (Q0 & Q1 & Q2); [lia|lia|].
  split_and!; try lia. by rewrite gcd_euclid.
Qed.

Lemma outerStep_ok (a0 b0 : Z) (s : Egcd) :
  outerInv a0 b0 s ->
  match outerStep s with
  | inl s' => outerInv a0 b0 s' /\ e_b s' < e_b s
  | inr r => exists s', r = Ok s' /\ outerInv a0 b0 s' /\ e_b s' <= e_b s
  end.
Proof.
  intros Hinv. pose proof Hinv as (Ha & Hb & Hx & Hu & G).
  destruct s as [a b x y u v]. cbn [e_a e_b e_x e_y e_u e_v] in *.
  unfold outerStep.
  destruct (Z.eqb_spec b 0) as [|Hne]; [by eexists|].
  destruct (Z.ltb_spec b BASE) as [|Hge]; [by eexists|].
  set (n := bitLength b - 30).
  assert (0 <= n) as Hn.
  { pose proof (bitLength_bound b ltac:(lia)) as Hbl. unfold n.
    destruct (Z.le_gt_cases 30 (bitLength b)); [lia|].
    assert (2 ^ bitLength b <= 2 ^ 30) by (apply Z.pow_le_mono_r; lia).
    change BASE with (2 ^ 30) in Hge. lia. }
  assert (0 < 2 ^ n) as HT by (apply Z.pow_pos_nonneg; lia).
  rewrite !Z.shiftr_div_pow2 by done.
  pose proof (Z.mul_div_le a (2 ^ n) HT).
  pose proof (Z.mul_succ_div_gt a (2 ^ n) HT).
  pose proof (Z.mul_div_le b (2 ^ n) HT).
  pose proof (Z.mul_succ_div_gt b (2 ^ n) HT).
  edestruct inner_terminates with (a := a) (b := b) (T := 2 ^ n)
    (ah := a / 2 ^ n) (bh := b / 2 ^ n) as (r & -> & Hr);
    try lia; try (apply Z.div_pos; lia).
  destruct r as [ah bh A B C D].
  destruct Hr as (_ & _ & Pa & Pb & PB & G').
  unfold cur_a, cur_b in *. cbn [i_A i_B i_C i_D] in *.
  destruct (Z.eqb_spec B 0) as [HB|HB].
  - apply (euclidStep_ok a0 b0 (mkEgcd a b x y u v)); done.
  - unfold outerInv. cbn [e_a e_b e_x e_y e_u e_v].
    split; [|lia]. split_and!; lia.
Qed.

Lemma finalStep_ok (a0 b0 : Z) (s : Egcd) :
  outerInv a0 b0 s ->
  match finalStep s with
  | inl s' => outerInv a0 b0 s' /\ e_b s' < e_b s
  | inr r => outerInv a0 b0 r /\ e_b r = 0
  end.
Proof.
  intros Hinv. unfold finalStep. destruct (Z.eqb_spec (e_b s) 0); [done|].
  by apply euclidStep_ok.
Qed.

(** [egcdLehmer] returns, and returns the gcd with a Bezout coefficient. *)
Theorem egcdLehmer_spec (a b : Z) :
  0 < a -> 0 < b ->
  exists x y, egcdLehmer a b = Ok (Z.gcd a b, x, y) /\ Z.gcd a b = x * a + y * b.
Proof.
  intros Ha Hb. unfold egcdLehmer.
  replace ((a <=? 0) || (b <=? 0)) with false.
  2:{ symmetry. apply orb_false_iff. split; apply Z.leb_gt; lia. }
  destruct (runLoop_terminates outerStep (outerInv a b)
              (fun r => exists s', r = Ok s' /\ outerInv a b s')
              e_b ltac:(by intros s (_ & ? & _))) with
    (budget := b + 1) (s := mkEgcd a b 1 0 0 1) as (r1 & -> & s1 & -> & H1).
  - intros s Hs. pose proof (outerStep_ok a b s Hs) as Hstep.
    destruct (outerStep s); [done|]. destruct Hstep as (s' & -> & ? & _). eauto.
  - unfold outerInv. cbn. split_and!; lia.
  - cbn. lia.
  - cbn [bind].
    destruct (runLoop_terminates finalStep (outerInv a b)
                (fun r => outerInv a b r /\ e_b r = 0)
                e_b ltac:(by intros s (_ & ? & _))) with
      (budget := e_b s1 + 1) (s := s1) as (s2 & -> & H2 & Hz).
    + apply finalStep_ok.
    + done.
    + lia.
    + cbn [bind]. destruct H2 as (Pa & _ & Hx & _ & G).
      rewrite Hz, Z.gcd_0_r, Z.abs_eq in G by lia.
      exists (e_x s2), (e_y s2). rewrite <- G. split; [done|lia].
Qed.

(** [modInv] returns the inverse of every value coprime to the modulus. *)
Theorem modInv_spec (a n : Z) :
  1 < n -> Z.gcd a n = 1 ->
  exists r, modInv a n = Ok r /\ 0 <= r < n /\ (r * a) mod n = 1.
Proof.
  intros Hn Hg. unfold modInv. rewrite mod__spec by lia.
  assert (Z.gcd (a mod n) n = 1) as Hg'.
  { rewrite Z.gcd_mod by lia. by rewrite Z.gcd_comm. }
  assert (0 < a mod n) as Hpos.
  { pose proof (Z.mod_pos_bound a n ltac:(lia)).
    destruct (decide (a mod n = 0)) as [E|]; [|lia].
    rewrite E, Z.gcd_0_l, Z.abs_eq in Hg' by lia. lia. }
  destruct (egcdLehmer_spec (a mod n) n Hpos ltac:(lia)) as (x & y & -> & Hb).
  cbn [bind]. rewrite Hg'. cbn [Z.eqb Pos.eqb]. rewrite mod__spec by lia.
  eexists. split; [done|]. split; [apply Z.mod_pos_bound; lia|].
  rewrite Z.mul_mod_idemp_l by lia.
  rewrite <- (Z.mul_mod_idemp_r x a) by lia.
  replace (x * (a mod n)) with (1 + (- y) * n) by lia.
  rewrite Z_mod_plus_full. apply Z.mod_small. lia.
Qed.
End EgcdFacts.

(** ** Windowed exponentiation *)

Module PowFacts.
Import Utils Digits DigitsFacts EgcdFacts.

Section Pow.
Variables (base modulus : Z).
Hypothesis base_nonneg : 0 <= base.
Hypothesis modulus_pos : 0 < modulus.

Local Abbreviation pw := (Egcd.powmod base modulus).

Lemma rem_mod (x : Z) : 0 <= x -> Z.rem x modulus = x mod modulus.
Proof. intros. apply Z.rem_mod_nonneg; lia. Qed.

Lemma pw_range (e : Z) : 0 <= pw e < modulus.
Proof. apply Z.mod_pos_bound. done. Qed.

Lemma pw_mul (e f : Z) :
  0 <= e -> 0 <= f -> Z.rem (pw e * pw f) modulus = pw (e + f).
Proof.
  intros He Hf. pose proof (pw_range e). pose proof (pw_range f).
  rewrite rem_mod by nia. unfold pw.
  rewrite <- Z.mul_mod, <- Z.pow_add_r by lia. done.
Qed.

Lemma tblFrom_nth (k : nat) (j : Z) (i : nat) :
  0 <= j -> (i < k)%nat ->
  nth i (tblFrom k (pw 1) modulus (pw j)) 0 = pw (j + 1 + Z.of_nat i).
Proof.
  revert j i. induction k as [|k IH]; intros j i Hj Hi; [lia|].
  cbn [tblFrom]. rewrite pw_mul by lia.
  destruct i as [|i]; cbn [nth].
  - f_equal. lia.
  - rewrite IH by lia. f_equal. lia.
Qed.

Lemma mkTbl_nth (c : Z) :
  1 <= c <= 15 -> nth (Z.to_nat c) (mkTbl base modulus) 0 = pw c.
Proof.
  intros Hc. unfold mkTbl.
  assert (Z.rem base modulus = pw 1) as ->.
  { rewrite rem_mod by done. unfold pw. by rewrite Z.pow_1_r. }
  destruct (Z.to_nat c) as [|[|i]] eqn:E; [lia| |].
  - cbn. f_equal. lia.
  - cbn [nth]. rewrite (tblFrom_nth 14 1) by lia. f_equal. lia.
Qed.

Lemma square4 (v : Z) :
  0 <= v ->
  Nat.iter 4 (fun r => Z.rem (r * r) modulus) (pw v) = pw (16 * v).
Proof.
  intros Hv. cbv [Nat.iter nat_rect]. rewrite !pw_mul by lia. f_equal. lia.
Qed.

(** The window loop, reading the digits [D] of the exponent from
    position [i]: the result so far is the power for the digits read. *)
Lemma w4Loop_spec (D : list Z) (fuel i k : nat) :
  Forall (isDigit 2) D ->
  (i + 4 * k = length D)%nat -> (k <= fuel)%nat ->
  w4Loop fuel (Js.digitChar <$> D) (mkTbl base modulus) modulus i
         (pw (val 2 (take i D)))
  = pw (val 2 D).
Proof.
  intros HD. revert i k. induction fuel as [|fuel IH]; intros i k Hlen Hk.
  - assert (k = 0)%nat as -> by lia. cbn [w4Loop].
    rewrite take_ge by lia. done.
  - cbn [w4Loop]. rewrite length_fmap.
    destruct (Nat.ltb_spec i (length D)) as [Hlt|Hge].
    2:{ rewrite take_ge by lia. done. }
    destruct k as [|k]; [lia|].
    assert (Forall (isDigit 2) (take i D)) as HDi by (by apply Forall_take).
    pose proof (val_bound 2 _ ltac:(lia) HDi) as [Hv _].
    set (chunk := take 4 (drop i D)).
    assert (length chunk = 4%nat) as Hcl.
    { unfold chunk. rewrite length_take, length_drop. lia. }
    assert (Forall (isDigit 2) chunk) as HDc.
    { unfold chunk. by apply Forall_take, Forall_drop. }
    pose proof (val_bound 2 _ ltac:(lia) HDc) as Hcv. rewrite Hcl in Hcv.
    change (2 ^ Z.of_nat 4) with 16 in Hcv.
    assert (chunkVal (slice (Js.digitChar <$> D) i (i + 4)) = val 2 chunk) as ->.
    { unfold chunkVal, slice. replace (i + 4 - i)%nat with 4%nat by lia.
      rewrite <- fmap_drop, <- fmap_take. fold chunk.
      rewrite parseInt_digits; [done|lia|done|].
      intros E. by rewrite E in Hcl. }
    assert (take (i + 4) D = take i D ++ chunk) as Htake.
    { unfold chunk. by rewrite take_take_drop. }
    assert (val 2 (take (i + 4) D) = 16 * val 2 (take i D) + val 2 chunk) as Hval.
    { rewrite Htake, val_app, Hcl. change (2 ^ Z.of_nat 4) with 16. lia. }
    rewrite square4 by done.
    replace (if val 2 chunk =? 0 then pw (16 * val 2 (take i D))
             else Z.rem (pw (16 * val 2 (take i D))
                         * nth (Z.to_nat (val 2 chunk)) (mkTbl base modulus) 0)
                        modulus)
      with (pw (val 2 (take (i + 4) D))).
    { apply (IH (i + 4)%nat k); lia. }
    rewrite Hval. destruct (Z.eqb_spec (val 2 chunk) 0) as [->|Hne].
    + f_equal. lia.
    + rewrite mkTbl_nth by lia. rewrite pw_mul by lia. done.
Qed.

(** [powModW4] is modular exponentiation. *)
Theorem powModW4_spec (e : Z) :
  0 < e -> powModW4 base e modulus = Ok (base ^ e mod modulus).
Proof.
  intros He. unfold powModW4.
  destruct (Z.eqb_spec e 0); [lia|].
  destruct (Z.eqb_spec modulus 0); [lia|].
  destruct (Z.ltb_spec e 0); [lia|].
  rewrite toString_nonneg by lia. rewrite length_fmap.
  destruct (digits_val 2 e ltac:(lia) ltac:(lia)) as [Hv HD].
  set (D := Js.digits 2 e) in *.
  assert (exists d D', D = d :: D' /\ d <> 0) as (d & D' & HDe & Hd).
  { unfold D, Js.digits.
    destruct (digitsAux_fixed 2 (S (Z.to_nat (Z.log2 e))) e [] ltac:(lia))
      as (D0 & HD0 & _ & _ & Hhead).
    { split; [lia|]. apply pow_log2_bound; lia. }
    rewrite HD0, app_nil_r. apply Hhead. lia. }
  set (first := if (length D mod 4 =? 0)%nat then 4%nat else (length D mod 4)%nat).
  assert (1 <= first <= 4 /\ exists k, first + 4 * k = length D)%nat
    as [Hf (k & Hk)].
  { pose proof (Nat.mod_upper_bound (length D) 4 ltac:(lia)).
    pose proof (Nat.div_mod_eq (length D) 4).
    assert (1 <= length D)%nat by (rewrite HDe; simpl; lia).
    unfold first. destruct (Nat.eqb_spec (length D mod 4) 0) as [E|E].
    - split; [lia|]. exists (length D / 4 - 1)%nat.
      assert (1 <= length D / 4)%nat; [|lia].
      destruct (length D / 4)%nat; lia.
    - split; [lia|]. exists (length D / 4)%nat. lia. }
  f_equal. rewrite <- Hv.
  assert (Forall (isDigit 2) (take first D)) as HDf by (by apply Forall_take).
  assert (chunkVal (slice (Js.digitChar <$> D) 0 first) = val 2 (take first D)) as ->.
  { unfold chunkVal, slice. rewrite Nat.sub_0_r, drop_0, <- fmap_take.
    rewrite parseInt_digits; [done|lia|done|].
    rewrite HDe. destruct first; [lia|done]. }
  assert (1 <= val 2 (take first D) <= 15) as Hc.
  { pose proof (val_bound 2 _ ltac:(lia) HDf) as Hb.
    rewrite length_take in Hb.
    assert (2 ^ Z.of_nat (first `min` length D) <= 2 ^ 4)
      by (apply Z.pow_le_mono_r; lia).
    split; [|change (2 ^ 4) with 16 in *; lia].
    rewrite HDe in *. destruct first as [|f]; [lia|]. cbn [take] in *.
    change (d :: take f D') with ([d] ++ take f D').
    rewrite val_app.
    apply Forall_cons in HDf as [Hd2 HDf'].
    pose proof (val_bound 2 _ ltac:(lia) HDf').
    unfold isDigit in Hd2. assert (d = 1) as -> by lia.
    unfold val at 1. cbn [foldl].
    assert (0 < 2 ^ Z.of_nat (length (take f D'))) by (apply Z.pow_pos_nonneg; lia).
    lia. }
  rewrite mkTbl_nth by done.
  apply (w4Loop_spec D (length D) first k); [done|done|lia].
Qed.
End Pow.
End PowFacts.

(** ** The identifier algebra *)

Module IdentifierFacts.
Import Secp256k1 Identifier Curve.

Lemma N_gt_1 : 1 < N.
Proof. reflexivity. Qed.

Lemma canonical_toAffine (A : Point) : canonical A -> toAffine A = Ok A.
Proof.
  intros (Hz & _). destruct A as [x y z]. cbn in *. subst z. done.
Qed.

Lemma canonical_valid (A : Point) : canonical A -> valid A.
Proof. intros HA. exists A. split; [by apply canonical_toAffine|done]. Qed.

Lemma valid_not_infinity (p : Point) : valid p -> isInfinity p = false.
Proof.
  intros (A & HA & _). destruct (isInfinity p) eqn:E; [|done].
  unfold isInfinity in E. destruct p as [x y z]. cbn in E.
  apply andb_true_iff in E as [E Ez]. apply andb_true_iff in E as [Ex Ey].
  apply Z.eqb_eq in Ex, Ey, Ez. subst. by vm_compute in HA.
Qed.

(** Compression followed by decompression gives the affine point. *)
Lemma valid_roundtrip (p A : Point) :
  toAffine p = Ok A -> canonical A ->
  exists cb,
    toCompressed p = Ok cb /\ length cb = 33%nat
    /\ Secp256k1.fromBytes cb = Ok A.
Proof.
  intros HA (Hz & Hx & Hy & HY). unfold toCompressed. rewrite HA. cbn [bind].
  destruct (UtilsFacts.intToBytes_32 (px A)) as (bs & -> & Hlen & Hint).
  { assert (P < 2 ^ 256) by reflexivity. lia. }
  cbn [bind]. eexists. split; [done|]. split; [simpl; lia|].
  unfold Secp256k1.fromBytes. cbn [length]. rewrite Hlen. cbn [Nat.eqb andb].
  destruct (Z.land (py A) 1 =? 0); cbn [negb] in HY.
  - change (b2z x02 =? 2) with true. cbn [orb]. rewrite Hint. cbn [bind].
    change (b2z x02 =? 3) with false. done.
  - change (b2z x03 =? 2) with false. change (b2z x03 =? 3) with true.
    cbn [orb]. rewrite Hint. cbn [bind]. done.
Qed.

Lemma toCompressed_affine (p q : Point) :
  toAffine p = toAffine q -> toCompressed p = toCompressed q.
Proof. intros E. unfold toCompressed. by rewrite E. Qed.

Lemma fromBytes_33 (cb : list byte) :
  length cb = 33%nat ->
  Identifier.fromBytes cb = Ok (Identifier.mk (Utils.bytesToHex cb) cb).
Proof. intros E. unfold Identifier.fromBytes. by rewrite E. Qed.

(** *** Scalars *)

Lemma pow_coprime (k i : Z) :
  Z.gcd k N = 1 -> 0 <= i -> 0 < k ^ i mod N < N.
Proof.
  intros Hk Hi. pose proof N_gt_1.
  pose proof (Z.mod_pos_bound (k ^ i) N ltac:(lia)).
  assert (Z.gcd (k ^ i mod N) N = 1) as Hg.
  { apply Z.coprime_mod_l_iff, Z.coprime_pow_l; done. }
  destruct (decide (k ^ i mod N = 0)) as [E|]; [|lia].
  rewrite E, Z.gcd_0_l in Hg. lia.
Qed.

Lemma mod_coprime (k : Z) : Z.gcd k N = 1 -> 0 < k mod N < N.
Proof. intros Hk. rewrite <- (Z.pow_1_r k). by apply pow_coprime. Qed.

Lemma pow_step (k i : Z) :
  0 <= i -> (k ^ i mod N * (k mod N)) mod N = k ^ (i + 1) mod N.
Proof.
  intros Hi. rewrite <- Z.mul_mod by (pose proof N_gt_1; lia).
  by rewrite Z.pow_add_r, Z.pow_1_r by lia.
Qed.

Lemma pow_back (k kInv i : Z) :
  1 <= i -> (kInv * k) mod N = 1 ->
  (k ^ i mod N * kInv) mod N = k ^ (i - 1) mod N.
Proof.
  intros Hi Hinv. pose proof N_gt_1.
  replace i with ((i - 1) + 1) at 1 by lia.
  rewrite Z.pow_add_r, Z.pow_1_r by lia.
  rewrite Z.mul_mod_idemp_l by lia.
  replace (k ^ (i - 1) * k * kInv) with (k ^ (i - 1) * (kInv * k)) by lia.
  rewrite <- Z.mul_mod_idemp_r, Hinv by lia. by rewrite Z.mul_1_r.
Qed.

Section Chain.
(** The scalar multiplication of [@noble/secp256k1], and what the
    identifier algebra needs of it: on points of the curve and scalars
    in [1, N-1] it stays on the curve, multiplying twice multiplies by
    the product, and multiplying by one changes nothing. *)
Variable multiply : Point -> Z -> result Point.

Hypothesis multiply_valid : forall p s,
  valid p -> 0 < s < N -> exists q, multiply p s = Ok q /\ valid q.

Hypothesis multiply_assoc : forall p a b q A,
  valid p -> 0 < a < N -> 0 < b < N -> (a * b) mod N <> 0 ->
  multiply p a = Ok q -> toAffine q = Ok A ->
  exists r1 r2,
    multiply A b = Ok r1 /\ multiply p ((a * b) mod N) = Ok r2
    /\ toAffine r1 = toAffine r2.

Hypothesis multiply_one : forall p q,
  valid p -> multiply p 1 = Ok q -> toAffine q = toAffine p.

Variable k : Z.
Hypothesis k_nonneg : 0 <= k.
Hypothesis k_invertible : Z.gcd k N = 1.

Lemma rem_k : Z.rem k N = k mod N.
Proof. apply Z.rem_mod_nonneg; [done|reflexivity]. Qed.

(** [mulPoint] on a point of the curve and a scalar already reduced. *)
Lemma mulPoint_reduced (p : Point) (s : Z) :
  valid p -> 0 < s < N -> mulPoint multiply p s = multiply p s.
Proof.
  intros Hp Hs. unfold mulPoint. rewrite Z.rem_small by lia.
  rewrite valid_not_infinity by done.
  by destruct (Z.eqb_spec s 0); [lia|].
Qed.

Lemma mulPoint_k (p : Point) :
  valid p -> mulPoint multiply p k = multiply p (k mod N).
Proof.
  intros Hp. pose proof (mod_coprime k k_invertible).
  unfold mulPoint. rewrite rem_k, valid_not_infinity by done.
  by destruct (Z.eqb_spec (k mod N) 0); [lia|].
Qed.

(** [fromChainKey] is the compressed form of [PK * (k^i mod N)]. *)
Lemma fromChainKey_spec (i : Z) (pk : PointArg) (p : Point) :
  1 <= i -> toPoint pk = Ok p -> valid p ->
  exists q A cb,
    multiply p (k ^ i mod N) = Ok q /\ toAffine q = Ok A /\ canonical A
    /\ toCompressed q = Ok cb /\ length cb = 33%nat
    /\ Secp256k1.fromBytes cb = Ok A
    /\ fromChainKey multiply k i pk = Ok (mk (Utils.bytesToHex cb) cb).
Proof.
  intros Hi Hpk Hp. pose proof (pow_coprime k i k_invertible ltac:(lia)) as Hki.
  destruct (multiply_valid p _ Hp Hki) as (q & Hq & (A & HA & HcA)).
  destruct (valid_roundtrip q A HA HcA) as (cb & Hcb & Hlen & Hdec).
  exists q, A, cb. split_and!; try done.
  unfold fromChainKey.
  destruct (Z.ltb_spec i 1); [lia|]. rewrite Hpk. cbn [bind].
  rewrite PowFacts.powModW4_spec by (done || reflexivity || lia). cbn [bind].
  rewrite mulPoint_reduced, Hq by done. cbn [bind]. rewrite Hcb. cbn [bind].
  by apply fromBytes_33.
Qed.

(** A jump from the compressed form of [q = p * a] by a scalar that
    reduces to [s]. *)
Lemma jump_spec (p q A : Point) (cb : list byte) (a s0 s : Z) (hx : jsstring) :
  valid p -> 0 < a < N -> 0 < s < N -> (a * s) mod N <> 0 ->
  multiply p a = Ok q -> toAffine q = Ok A ->
  Secp256k1.fromBytes cb = Ok A ->
  mulPoint multiply A s0 = multiply A s ->
  exists r,
    multiply p ((a * s) mod N) = Ok r
    /\ jump multiply (mk hx cb) s0
       = (c <- toCompressed r ;; Identifier.fromBytes c).
Proof.
  intros Hp Ha Hs Hne Hq HA Hdec Hmul.
  destruct (multiply_assoc p a s q A Hp Ha Hs Hne Hq HA) as (r1 & r2 & H1 & H2 & E).
  exists r2. split; [done|].
  unfold jump, identifierPoint. cbn [bytes]. rewrite Hdec. cbn [bind].
  rewrite Hmul, H1. cbn [bind]. by rewrite (toCompressed_affine r1 r2 E).
Qed.

Lemma kInv_spec :
  exists kInv, Utils.modInv k N = Ok kInv /\ 0 < kInv < N /\ (kInv * k) mod N = 1.
Proof.
  destruct (EgcdFacts.modInv_spec k N N_gt_1 k_invertible) as (r & Hr & Hb & Hinv).
  exists r. split_and!; try done; try lia.
  destruct (decide (r = 0)) as [->|]; [|lia]. by rewrite Z.mul_0_l in Hinv.
Qed.

Lemma next_spec (i : Z) (pk : PointArg) (p : Point) :
  1 <= i -> toPoint pk = Ok p -> valid p ->
  exists id1 id2,
    fromChainKey multiply k i pk = Ok id1
    /\ next multiply id1 k 1 = Ok id2
    /\ fromChainKey multiply k (i + 1) pk = Ok id2.
Proof.
  intros Hi Hpk Hp.
  destruct (fromChainKey_spec i pk p Hi Hpk Hp)
    as (q & A & cb & Hq & HA & HcA & Hcb & Hlen & Hdec & Hid1).
  destruct (fromChainKey_spec (i + 1) pk p ltac:(lia) Hpk Hp)
    as (q' & A' & cb' & Hq' & HA' & HcA' & Hcb' & Hlen' & Hdec' & Hid2).
  pose proof (pow_coprime k i k_invertible ltac:(lia)) as Hki.
  pose proof (pow_coprime k (i + 1) k_invertible ltac:(lia)) as Hki'.
  pose proof (mod_coprime k k_invertible) as Hk.
  destruct (jump_spec p q A cb (k ^ i mod N) k (k mod N) (Utils.bytesToHex cb))
    as (r & Hr & Hjump); try done.
  { rewrite pow_step by lia. lia. }
  { apply mulPoint_k. by apply canonical_valid. }
  rewrite pow_step in Hr by lia. rewrite Hq' in Hr. injection Hr as <-.
  eexists _, _. split_and!; [done| |done].
  unfold next. cbn [Z.eqb Pos.eqb bind]. rewrite Hjump, Hcb'. cbn [bind].
  by apply fromBytes_33.
Qed.

Lemma prev_spec (i : Z) (pk : PointArg) (p : Point) :
  2 <= i -> toPoint pk = Ok p -> valid p ->
  exists id1 id0,
    fromChainKey multiply k i pk = Ok id1
    /\ prev multiply id1 k 1 = Ok id0
    /\ fromChainKey multiply k (i - 1) pk = Ok id0.
Proof.
  intros Hi Hpk Hp.
  destruct (fromChainKey_spec i pk p ltac:(lia) Hpk Hp)
    as (q & A & cb & Hq & HA & HcA & Hcb & Hlen & Hdec & Hid1).
  destruct (fromChainKey_spec (i - 1) pk p ltac:(lia) Hpk Hp)
    as (q' & A' & cb' & Hq' & HA' & HcA' & Hcb' & Hlen' & Hdec' & Hid2).
  pose proof (pow_coprime k i k_invertible ltac:(lia)) as Hki.
  pose proof (pow_coprime k (i - 1) k_invertible ltac:(lia)) as Hki'.
  destruct kInv_spec as (kInv & HkInv & Hb & Hinv).
  destruct (jump_spec p q A cb (k ^ i mod N) kInv kInv (Utils.bytesToHex cb))
    as (r & Hr & Hjump); try done.
  { rewrite (pow_back k kInv i) by (done || lia). lia. }
  { apply mulPoint_reduced; [by apply canonical_valid|done]. }
  rewrite (pow_back k kInv i) in Hr by (done || lia).
  rewrite Hq' in Hr. injection Hr as <-.
  eexists _, _. split_and!; [done| |done].
  unfold prev. rewrite HkInv. cbn [Z.eqb Pos.eqb bind].
  rewrite Hjump, Hcb'. cbn [bind]. by apply fromBytes_33.
Qed.

Lemma prev_next_spec (id : Identifier.t) (p : Point) :
  valid p -> toCompressed p = Ok (bytes id) ->
  hex id = Utils.bytesToHex (bytes id) ->
  exists id', next multiply id k 1 = Ok id' /\ prev multiply id' k 1 = Ok id.
Proof.
  intros (A & HA & HcA) Hcb Hhex.
  destruct (valid_roundtrip p A HA HcA) as (cb & Hcb' & Hlen & Hdec).
  rewrite Hcb in Hcb'. injection Hcb' as <-.
  pose proof (canonical_valid A HcA) as HvA.
  pose proof (mod_coprime k k_invertible) as Hk.
  destruct (multiply_valid A (k mod N) HvA Hk) as (q1 & Hq1 & (A1 & HA1 & HcA1)).
  destruct (valid_roundtrip q1 A1 HA1 HcA1) as (cb1 & Hcb1 & Hlen1 & Hdec1).
  destruct kInv_spec as (kInv & HkInv & Hb & Hinv).
  assert ((k mod N * kInv) mod N = 1) as Hone.
  { rewrite Z.mul_mod_idemp_l by (pose proof N_gt_1; lia).
    by rewrite Z.mul_comm. }
  exists (mk (Utils.bytesToHex cb1) cb1). split.
  - unfold next, jump, identifierPoint. cbn [Z.eqb Pos.eqb bind].
    rewrite Hdec. cbn [bind]. rewrite mulPoint_k, Hq1 by done. cbn [bind].
    rewrite Hcb1. cbn [bind]. by apply fromBytes_33.
  - destruct (jump_spec A q1 A1 cb1 (k mod N) kInv kInv (Utils.bytesToHex cb1))
      as (r & Hr & Hjump); try done.
    { rewrite Hone. lia. }
    { apply mulPoint_reduced; [by apply canonical_valid|done]. }
    rewrite Hone in Hr. pose proof (multiply_one A r HvA Hr) as Er.
    unfold prev. rewrite HkInv. cbn [Z.eqb Pos.eqb bind]. rewrite Hjump.
    rewrite (toCompressed_affine r p).
    2:{ rewrite Er, HA. by apply canonical_toAffine. }
    rewrite Hcb. cbn [bind]. rewrite fromBytes_33 by done.
    destruct id as [hx bs]. cbn in *. by subst hx.
Qed.

(** C6.  For a chain key [k >= 0] invertible modulo [N], an index
    [i >= 1] and a reference point of the curve: the identifier of index
    [i] moved by [next] is the identifier of index [i + 1]; for [i >= 2],
    moved by [prev] it is the identifier of index [i - 1]; and [prev]
    undoes [next] on every identifier that is the compressed form of a
    point of the curve.  The three results exist, and equality is that
    of the 33 bytes and of their hex. *)
Theorem identifier_chain (i : Z) (pk : PointArg) (p : Point) :
  1 <= i -> toPoint pk = Ok p -> valid p ->
  (exists id1 id2,
     fromChainKey multiply k i pk = Ok id1
     /\ next multiply id1 k 1 = Ok id2
     /\ fromChainKey multiply k (i + 1) pk = Ok id2)
  /\ (2 <= i ->
      exists id1 id0,
        fromChainKey multiply k i pk = Ok id1
        /\ prev multiply id1 k 1 = Ok id0
        /\ fromChainKey multiply k (i - 1) pk = Ok id0)
  /\ (forall id q,
        valid q -> toCompressed q = Ok (bytes id) ->
        hex id = Utils.bytesToHex (bytes id) ->
        exists id', next multiply id k 1 = Ok id'
                    /\ prev multiply id' k 1 = Ok id).
Proof.
  intros Hi Hpk Hp. split_and!.
  - by apply (next_spec i pk p).
  - intros Hi2. by apply (prev_spec i pk p).
  - intros id q Hq Hc Hh. by apply (prev_next_spec id q).
Qed.
End Chain.

(** The base point is on the curve. *)
Lemma basePoint_valid : valid basePoint.
Proof.
  exists basePoint. split; [done|].
  split_and!; try (vm_compute; (done || discriminate)).
Qed.

(** The trivial action meets the three requirements. *)
Lemma stay_valid (p : Point) (s : Z) :
  valid p -> 0 < s < N -> exists q, stay p s = Ok q /\ valid q.
Proof. intros Hp _. by exists p. Qed.

Lemma stay_assoc (p : Point) (a b : Z) (q A : Point) :
  valid p -> 0 < a < N -> 0 < b < N -> (a * b) mod N <> 0 ->
  stay p a = Ok q -> toAffine q = Ok A ->
  exists r1 r2,
    stay A b = Ok r1 /\ stay p ((a * b) mod N) = Ok r2
    /\ toAffine r1 = toAffine r2.
Proof.
  intros (A' & HA' & HcA') _ _ _ [= <-] HA. exists A, p.
  split_and!; [done|done|]. rewrite HA. rewrite HA in HA'.
  injection HA' as ->. by apply canonical_toAffine.
Qed.

Lemma stay_one (p q : Point) :
  valid p -> stay p 1 = Ok q -> toAffine q = toAffine p.
Proof. by intros _ [= <-]. Qed.

Lemma identifier_chain_witness :
  (exists id1 id2,
     fromChainKey stay 2 2 (ArgPoint basePoint) = Ok id1
     /\ next stay id1 2 1 = Ok id2
     /\ fromChainKey stay 2 (2 + 1) (ArgPoint basePoint) = Ok id2)
  /\ (2 <= 2 ->
      exists id1 id0,
        fromChainKey stay 2 2 (ArgPoint basePoint) = Ok id1
        /\ prev stay id1 2 1 = Ok id0
        /\ fromChainKey stay 2 (2 - 1) (ArgPoint basePoint) = Ok id0)
  /\ (forall id q,
        valid q -> toCompressed q = Ok (bytes id) ->
        hex id = Utils.bytesToHex (bytes id) ->
        exists id', next stay id 2 1 = Ok id' /\ prev stay id' 2 1 = Ok id).
Proof.
  apply (identifier_chain stay stay_valid stay_assoc stay_one 2
           ltac:(lia) eq_refl 2 (ArgPoint basePoint) basePoint
           ltac:(lia) eq_refl basePoint_valid).
Defined.

(** The chain on the curve itself, with the reference multiplication:
    [ID1 = G * 3], [ID1.next(3) = G * 9 = ID2]. *)
Example chain_on_the_curve :
  (id1 <- fromChainKey refMultiply 3 1 (ArgPoint basePoint) ;;
   id2 <- next refMultiply id1 3 1 ;;
   id2' <- fromChainKey refMultiply 3 2 (ArgPoint basePoint) ;;
   g9 <- refMultiply basePoint 9 ;;
   cb <- toCompressed g9 ;;
   Ok (equals id2 id2' && negb (equals id1 id2) && bool_decide (bytes id2 = cb)))
  = Ok true.
Proof. vm_compute. reflexivity. Qed.

(** The doubling of the base point, against its published value. *)
Example reference_double :
  (q <- refMultiply basePoint 2 ;; cb <- toCompressed q ;; Ok (Utils.bytesToHex cb))
  = Ok (js "02c6047f9441ed7d6d3045406e95c07cd85c778e4b8cef3ca7abac09b95c709ee5").
Proof. vm_compute. reflexivity. Qed.
End IdentifierFacts.

(** ** The decode pipeline *)

Module SerializerClaims.
Import MessageRegistry MessageSerializer PipelineSpec.

Section Decode.
Context {Fields Obj Worker : Type}.
Variable aeadOpen : list byte -> list byte -> list byte -> result (option (list byte)).
Variable decompressZstd : list byte -> result (list byte).
Variable cborDecode : list byte -> result Obj.

Local Abbreviation outcome := (PipelineSpec.outcome aeadOpen decompressZstd cborDecode).
Local Abbreviation plaintextOf := (PipelineSpec.plaintextOf aeadOpen).

(** C7.  For a registered message type, with the key at hand when the
    class requires encryption, [decode] never throws: it returns a
    value, and that value is the [UnknownMessage] with the code of the
    stage that failed (0 the AEAD opens nothing, 1 it opens an empty
    plaintext, 2 decryption throws, 3 decompression, 4 CBOR decoding,
    5 [fromPlainObject]) or, when every stage succeeds, the hydrated
    instance. *)
Theorem decode_failures_are_values
    (messageRegistry : gmap Z (RegistryEntry Fields Obj Worker))
    (header : MessageHeader.t) (data : list byte) (key : option (list byte))
    (entry : RegistryEntry Fields Obj Worker) :
  messageRegistry !! MessageHeader.type header = Some entry ->
  (requiresEncryption (cls entry) = true -> is_Some key) ->
  exists r,
    decode aeadOpen decompressZstd cborDecode messageRegistry header data key = Ok r
    /\ outcome (cls entry) header data key r.
Proof.
  intros Hreg Hkey. unfold decode, create. rewrite Hreg. cbn [bind class fields].
  set (c := cls entry) in *.
  destruct (requiresEncryption c) eqn:Henc.
  - destruct (Hkey eq_refl) as [k ->].
    rewrite bool_decide_eq_true_2 by eauto. cbn [negb andb].
    unfold decrypt. cbn [class]. rewrite Henc.
    destruct (aeadOpen k (take 24 data) (drop 24 data)) as [[pt|]|e] eqn:Hopen.
    + destruct pt as [|b pt].
      * cbn. eexists. split; [done|]. by eapply stage_open_empty.
      * cbn [length Nat.eqb].
        assert (plaintextOf c data (Some k) (b :: pt)) as Hpt
          by (by eapply plain_opened).
        destruct (decompressZstd (b :: pt)) as [z|e] eqn:Hz;
          [|eexists; split; [done|by eapply stage_decompress]].
        destruct (cborDecode z) as [obj|e] eqn:Hobj;
          [|eexists; split; [done|by eapply stage_cbor]].
        destruct (fromPlainObject c) as [hydrate|] eqn:Hh;
          [|eexists; split; [done|by eapply stage_done_plain]].
        destruct (hydrate (construct c) obj) as [f|e] eqn:Hf;
          eexists; (split; [done|]);
          [by eapply stage_done|by eapply stage_hydrate].
    + eexists. split; [done|]. by eapply stage_open_none.
    + eexists. split; [done|]. by eapply stage_open_throws.
  - cbn [andb]. unfold decrypt. cbn [class]. rewrite Henc.
    assert (plaintextOf c data key data) as Hpt by (by apply plain_clear).
    destruct (decompressZstd data) as [z|e] eqn:Hz;
      [|eexists; split; [done|by eapply stage_decompress]].
    destruct (cborDecode z) as [obj|e] eqn:Hobj;
      [|eexists; split; [done|by eapply stage_cbor]].
    destruct (fromPlainObject c) as [hydrate|] eqn:Hh;
      [|eexists; split; [done|by eapply stage_done_plain]].
    destruct (hydrate (construct c) obj) as [f|e] eqn:Hf;
      eexists; (split; [done|]);
      [by eapply stage_done|by eapply stage_hydrate].
Qed.
End Decode.

Lemma decode_failures_are_values_witness :
  exists r,
    decode rejectingAead noZstd noCbor sampleRegistry sampleHeader [x01] (Some [x02])
    = Ok r
    /\ PipelineSpec.outcome rejectingAead noZstd noCbor secretNote sampleHeader
         [x01] (Some [x02]) r.
Proof.
  apply (decode_failures_are_values rejectingAead noZstd noCbor sampleRegistry
           sampleHeader [x01] (Some [x02]) (mkEntry secretNote None)).
  - apply lookup_insert_eq.
  - intros _. by eexists.
Defined.
End SerializerClaims.

(** ** The session and the ingestion engine *)

Module KaspeakClaims.
Import Kaspeak KaspeakSpec.

Section Ledger.
Context {Fields Obj Worker : Type}.
Variable PrivateKey_toPublicKey : jsstring -> result jsstring.
Variable PublicKey_toAddress : jsstring -> result jsstring.
Variable verifyMessage : jsstring -> jsstring -> jsstring -> result bool.

(** C2, at a failing input.  The transaction [shortTx] carries 100
    bytes (200 hex characters, fewer than 286) behind the marker.  It is
    not skipped: its id enters the bounded set and its payload goes to
    the parser, which throws; only the emission is missing. *)
Lemma short_payload_reaches_dedup :
  Z.of_nat (length (payload shortTx)) = 200
  /\ let s := processTransaction PublicKey_toAddress verifyMessage
                blockMeta0 (session0 : Kaspeak.t Fields Obj Worker) shortTx in
     LimitedHashSet.queue (knownTxIds s) = [js "tx1"]
     /\ errorLog s = ["Invalid payload size"%string]
     /\ emitted s = [].
Proof.
  split; [done|]. unfold processTransaction.
  change (Z.odd (Z.of_nat (length (payload shortTx)))) with false.
  change (Z.of_nat (length (payload shortTx)) <? Payload.HEADER_SIZE) with false.
  replace (startsWith (payload shortTx) (js "4b53504b")) with true
    by (symmetry; by apply bool_decide_eq_true_2).
  cbn [negb verboseData shortTx].
  rewrite LimitedHashSetFacts.tryAdd_absent by set_solver.
  cbn [negb]. done.
Qed.

(** A payload shorter than 143 hex characters is skipped untouched. *)
Lemma very_short_payload_skipped (s : Kaspeak.t Fields Obj Worker)
    (tx : ITransaction) (bm : MessageHeader.BlockMeta) :
  Z.of_nat (length (payload tx)) < 143 ->
  processTransaction PublicKey_toAddress verifyMessage bm s tx = s.
Proof.
  intros Hlen. unfold processTransaction.
  destruct (Z.odd _); [done|].
  by replace (Z.of_nat (length (payload tx)) <? Payload.HEADER_SIZE) with true
    by (symmetry; apply Z.ltb_lt; done).
Qed.



End Ledger.


End KaspeakClaims.

Module DedupClaims.
Import LimitedHashSet LimitedHashSetFacts KaspeakSpec.

(** C8.  The session's bounded set has capacity 5000; [tryAdd] of a
    value already present returns [false] and changes nothing; otherwise
    the oldest element leaves first when the set is full, and the value
    enters.  After a stream of more than 5000 distinct ids the set holds
    exactly the last 5000 of them. *)
Theorem dedup_keeps_last_5000 (ids : list jsstring) :
  NoDup ids -> 5000 < Z.of_nat (length ids) ->
  let s := addAll ids (mk [] ∅ 5000) in
  new 5000 = Ok (mk [] ∅ 5000 : t jsstring)
  /\ queue s = lastN 5000 ids
  /\ size s = 5000
  /\ (forall v, has v s = true <-> v ∈ lastN 5000 ids)
  /\ (forall (s' : t jsstring) v, v ∈ set s' -> tryAdd v s' = (false, s'))
  /\ (forall (s' : t jsstring) v, v ∉ set s' ->
        tryAdd v s'
        = (true,
           if Z.of_nat (length (queue s')) =? capacity s'
           then mk (tail (queue s') ++ [v])
                   ({[v]} ∪ (set s' ∖ list_to_set (take 1 (queue s'))))
                   (capacity s')
           else mk (queue s' ++ [v]) ({[v]} ∪ set s') (capacity s'))).
Proof.
  intros Hnd Hlen s.
  destruct (addAll_distinct (Z.to_nat 5000) ids ltac:(lia) Hnd) as (Hq & Hs & Hc).
  rewrite Z2Nat.id in * by lia. fold s in Hq, Hs, Hc.
  assert (queue s = lastN 5000 ids) as Hq'.
  { rewrite Hq. unfold lastN. f_equal. lia. }
  split_and!.
  - done.
  - done.
  - unfold size. rewrite Hq, length_drop. lia.
  - intros v. unfold has. rewrite bool_decide_eq_true, Hs, Hq'.
    apply elem_of_list_to_set.
  - intros s' v. apply tryAdd_present.
  - intros s' v. apply tryAdd_absent.
Qed.

Lemma dedup_keeps_last_5000_witness :
  queue (addAll sampleIds (mk [] ∅ 5000)) = lastN 5000 sampleIds
  /\ size (addAll sampleIds (mk [] ∅ 5000)) = 5000.
Proof.
  assert (NoDup sampleIds) as Hnd.
  { apply NoDup_fmap_2; [|apply NoDup_seq]. intros a b [= E]. lia. }
  assert (5000 < Z.of_nat (length sampleIds)) as Hlen.
  { unfold sampleIds. rewrite length_fmap, length_seq. lia. }
  destruct (dedup_keeps_last_5000 sampleIds Hnd Hlen) as (_ & Hq & Hs & _).
  split; [exact Hq|exact Hs].
Defined.
End DedupClaims.

(** * Further properties of the code *)

(** A computation that has returned continues with its result; as a
    rewriting rule, it leaves the continuation as it is written. *)
Lemma bind_Ok {A B : Type} (a : A) (k : A -> result B) : bind (Ok a) k = k a.
Proof. reflexivity. Qed.

Lemma bind_Err {A B : Type} (e : error) (k : A -> result B) : bind (Err e) k = Err e.
Proof. reflexivity. Qed.

(** ** [src/crypto/utils.ts]: modular arithmetic *)

Module ArithProperties.
Import Utils Digits DigitsFacts UtilsFacts LoopFacts ModFacts EgcdFacts PowFacts.

(** X1.  The Barrett reduction [modP] returns [x mod P], in [0, P), for
    every integer [x], negative ones included. *)
Theorem modP_reduces (x : Z) : modP x = x mod P /\ 0 <= modP x < P.
Proof.
  rewrite modP_spec. split; [done|].
  apply Z.mod_pos_bound. apply P_pos.
Qed.

(** X2.  [egcdLehmer(a, b)] throws a [RangeError] unless both arguments
    are positive; for positive arguments it returns [g = gcd(a, b)] and
    Bezout coefficients [x], [y] with [x * a + y * b = g]. *)
Theorem egcdLehmer_bezout (a b : Z) :
  if (0 <? a) && (0 <? b)
  then exists x y,
         egcdLehmer a b = Ok (Z.gcd a b, x, y) /\ x * a + y * b = Z.gcd a b
  else egcdLehmer a b = Err (RangeError "a,b > 0").
Proof.
  destruct (Z.ltb_spec 0 a) as [Ha|Ha]; destruct (Z.ltb_spec 0 b) as [Hb|Hb]; cbn [andb].
  - destruct (egcdLehmer_spec a b Ha Hb) as (x & y & E & Hg).
    exists x, y. split; [done|lia].
  - unfold egcdLehmer. replace (b <=? 0) with true by (symmetry; apply Z.leb_le; lia).
    by rewrite orb_true_r.
  - unfold egcdLehmer. by replace (a <=? 0) with true by (symmetry; apply Z.leb_le; lia).
  - unfold egcdLehmer. by replace (a <=? 0) with true by (symmetry; apply Z.leb_le; lia).
Qed.

(** X3.  For a modulus [n > 1], [modInv(a, n)] returns the inverse of [a]
    modulo [n], in [0, n), when [gcd(a, n) = 1], and throws a [RangeError]
    otherwise. *)
Theorem modInv_inverse_iff (a n : Z) :
  1 < n ->
  if decide (Z.gcd a n = 1)
  then exists r, modInv a n = Ok r /\ 0 <= r < n /\ (a * r) mod n = 1
  else exists msg, modInv a n = Err (RangeError msg).
Proof.
  intros Hn. destruct (decide (Z.gcd a n = 1)) as [Hg|Hg].
  - destruct (modInv_spec a n Hn Hg) as (r & E & Hr & Hm).
    exists r. split_and!; [done|lia|lia|by rewrite Z.mul_comm].
  - unfold modInv. rewrite mod__spec by lia.
    assert (Z.gcd (a mod n) n = Z.gcd a n) as Hg'.
    { rewrite Z.gcd_mod by lia. by rewrite Z.gcd_comm. }
    pose proof (Z.mod_pos_bound a n ltac:(lia)) as Hr.
    destruct (decide (a mod n = 0)) as [E0|E0].
    + rewrite E0. by eexists.
    + destruct (egcdLehmer_spec (a mod n) n ltac:(lia) ltac:(lia)) as (x & y & -> & _).
      cbn [bind]. rewrite Hg'.
      pose proof (Z.gcd_nonneg a n).
      destruct (Z.eqb_spec (Z.gcd a n) 1); [done|].
      destruct (Z.eqb_spec (Z.gcd a n) (-1)); [lia|]. by eexists.
Qed.

Lemma modInv_inverse_iff_witness :
  exists r, modInv 3 7 = Ok r /\ 0 <= r < 7 /\ (3 * r) mod 7 = 1.
Proof. apply (modInv_inverse_iff 3 7). lia. Defined.

(** *** [powMod] *)

Section PowMod.
Variables (base exponent modulus : Z).
Hypothesis exponent_pos : 0 < exponent.
Hypothesis modulus_pos : 0 < modulus.

Local Abbreviation powModInv := (PowModSpec.powModInv base exponent modulus).

Lemma powModStep_ok (s : Z * Z * Z) :
  powModInv s ->
  match powModStep modulus s with
  | inl s' => powModInv s' /\ snd s' < snd s
  | inr r => r = base ^ exponent mod modulus
  end.
Proof.
  destruct s as [[res b] e]. intros (He & Hb & Hv & Hres). unfold powModStep.
  destruct (Z.ltb_spec 0 e) as [Hpos|Hz].
  - assert (Z.shiftr e 1 = e / 2) as Hsh by (rewrite Z.shiftr_div_pow2 by lia; done).
    assert (Z.land e 1 = e mod 2) as Hl.
    { change 1 with (Z.ones 1) at 1. rewrite Z.land_ones by lia. done. }
    pose proof (Z.div_mod e 2 ltac:(lia)) as Hdm.
    pose proof (Z.mod_pos_bound e 2 ltac:(lia)) as Hm2.
    rewrite Hsh, Hl, !mod__spec by lia.
    pose proof (Z.mod_pos_bound (b * b) modulus ltac:(lia)).
    pose proof (Z.mod_pos_bound (res * b) modulus ltac:(lia)).
    assert (((b * b) mod modulus) ^ (e / 2) mod modulus = (b ^ (2 * (e / 2))) mod modulus)
      as Hsq.
    { rewrite Z.mod_pow_l. f_equal. rewrite Z.pow_mul_r by lia. f_equal. lia. }
    cbn [snd]. split; [|lia].
    destruct (Z.eqb_spec (e mod 2) 0) as [Hev|Hodd];
      unfold PowModSpec.powModInv; cbv beta iota; split_and!; try lia.
    + rewrite <- Hv. rewrite <- Z.mul_mod_idemp_r by lia. rewrite Hsq.
      rewrite Z.mul_mod_idemp_r by lia. do 2 f_equal. f_equal. lia.
    + rewrite <- Hv. rewrite <- Z.mul_mod_idemp_r by lia. rewrite Hsq.
      rewrite Z.mul_mod_idemp_r, Z.mul_mod_idemp_l by lia. f_equal.
      replace e with (1 + 2 * (e / 2)) at 2 by lia.
      rewrite Z.pow_add_r, Z.pow_1_r by lia. lia.
  - assert (e = 0) as -> by lia. rewrite Z.pow_0_r, Z.mul_1_r in Hv.
    destruct Hres as [Hres|[_ ?]]; [|lia].
    rewrite <- Hv. symmetry. by apply Z.mod_small.
Qed.

Lemma powMod_spec : powMod base exponent modulus = Ok (base ^ exponent mod modulus).
Proof.
  unfold powMod. destruct (Z.eqb_spec modulus 0); [lia|].
  destruct (runLoop_terminates (powModStep modulus) powModInv
              (fun r => r = base ^ exponent mod modulus) snd)
    with (budget := exponent + 1) (s := (1, mod_ base modulus, exponent))
    as (r & -> & ->); try done.
  - intros [[res b] e] (He & _). simpl. lia.
  - apply powModStep_ok.
  - rewrite mod__spec by lia. unfold PowModSpec.powModInv. cbv beta iota.
    split; [lia|]. split; [apply Z.mod_pos_bound; lia|]. split; [|right; lia].
    rewrite Z.mul_1_l. apply Z.mod_pow_l.
  - simpl. lia.
Qed.
End PowMod.

Lemma powMod_nonpositive (base e m : Z) :
  m <> 0 -> e <= 0 -> powMod base e m = Ok 1.
Proof.
  intros Hm He. unfold powMod. destruct (Z.eqb_spec m 0); [done|].
  unfold runLoop. replace (Z.to_pos (e + 1)) with 1%positive by lia.
  cbn [iterP powModStep]. by replace (0 <? e) with false by (symmetry; apply Z.ltb_ge; lia).
Qed.

(** X4.  [powMod(base, e, m)] is [base^e mod m] for [e > 0] and [m > 0],
    for a negative base too; it is [1] for [e <= 0], and it throws a
    [RangeError] for [m = 0]. *)
Theorem powMod_correct (base e m : Z) :
  0 <= m ->
  powMod base e m
  = if m =? 0 then Err (RangeError "Division by zero")
    else if e <=? 0 then Ok 1 else Ok (base ^ e mod m).
Proof.
  intros Hm. destruct (Z.eqb_spec m 0) as [->|Hm0]; [done|].
  destruct (Z.leb_spec e 0) as [He|He].
  - by apply powMod_nonpositive.
  - apply powMod_spec; lia.
Qed.

Lemma powMod_correct_witness :
  powMod (-2) 5 7
  = if 7 =? 0 then Err (RangeError "Division by zero")
    else if 5 <=? 0 then Ok 1 else Ok ((-2) ^ 5 mod 7).
Proof. apply (powMod_correct (-2) 5 7). lia. Defined.

(** X5.  The windowed [powModW4] agrees with [powMod] for a non-negative
    base, a non-negative exponent and a positive modulus: both return
    [base^e mod m] for [e > 0] and [1] for [e = 0]. *)
Theorem powModW4_agrees_with_powMod (base e m : Z) :
  0 <= base -> 0 <= e -> 0 < m ->
  powModW4 base e m = powMod base e m
  /\ powModW4 base e m = Ok (if e =? 0 then 1 else base ^ e mod m).
Proof.
  intros Hb He Hm.
  destruct (Z.eqb_spec e 0) as [->|He0].
  - rewrite powMod_nonpositive by lia. done.
  - rewrite powMod_spec by lia. by rewrite powModW4_spec by lia.
Qed.

Lemma powModW4_agrees_with_powMod_witness :
  powModW4 3 200 1000 = powMod 3 200 1000
  /\ powModW4 3 200 1000 = Ok (if 200 =? 0 then 1 else 3 ^ 200 mod 1000).
Proof. apply (powModW4_agrees_with_powMod 3 200 1000); lia. Defined.

End ArithProperties.

(** ** [src/crypto/utils.ts]: hex, bytes and integers *)

Module HexFacts.
Import Utils Digits DigitsFacts UtilsFacts HexSpec.

Lemma list_pair_ind {A : Type} (Q : list A -> Prop) :
  Q [] -> (forall x, Q [x]) -> (forall x y l, Q l -> Q (x :: y :: l)) ->
  forall l, Q l.
Proof.
  intros H0 H1 H2 l.
  assert (Q l /\ forall x, Q (x :: l)) as [H _]; [|done].
  induction l as [|a l [IH1 IH2]]; [by split|].
  split; [apply IH2|]. intros x. by apply H2.
Qed.

Lemma fixed_16_2 (x : Z) : fixed 16 2 x = [(x / 16) mod 16; x mod 16].
Proof. reflexivity. Qed.

Lemma nibbles_cons (b : byte) (bs : list byte) :
  nibbles (b :: bs) = [b2z b / 16; b2z b mod 16] ++ nibbles bs.
Proof.
  unfold nibbles. cbn [mbind list_bind]. rewrite fixed_16_2.
  pose proof (b2z_range b). rewrite (Z.mod_small (b2z b / 16)); [done|].
  split; [apply Z.div_pos; lia|apply Z.div_lt_upper_bound; lia].
Qed.

Lemma bytesToHex_nibbles (bs : list byte) :
  bytesToHex bs = Js.digitChar <$> nibbles bs.
Proof.
  induction bs as [|b bs IH]; [done|].
  rewrite bytesToHex_cons, nibbles_cons, fmap_app, IH, HEX_fixed, fixed_16_2.
  pose proof (b2z_range b). rewrite (Z.mod_small (b2z b / 16)); [done|].
  split; [apply Z.div_pos; lia|apply Z.div_lt_upper_bound; lia].
Qed.

Lemma nibbles_length (bs : list byte) : length (nibbles bs) = (2 * length bs)%nat.
Proof.
  induction bs as [|b bs IH]; [done|].
  rewrite nibbles_cons, length_app, IH. simpl. lia.
Qed.

Lemma nibbles_isDigit (bs : list byte) : Forall (isDigit 16) (nibbles bs).
Proof.
  induction bs as [|b bs IH]; [constructor|].
  rewrite nibbles_cons. pose proof (b2z_range b).
  apply Forall_app. split; [|done].
  repeat constructor; unfold isDigit.
  - apply Z.div_pos; lia.
  - apply Z.div_lt_upper_bound; lia.
  - apply Z.mod_pos_bound; lia.
  - apply Z.mod_pos_bound; lia.
Qed.

Lemma nibbles_val_acc (bs : list byte) (acc : Z) :
  foldl (fun a d => a * 16 + d) acc (nibbles bs)
  = foldl (fun a b => a * 256 + b2z b) acc bs.
Proof.
  revert acc. induction bs as [|b bs IH]; intros acc; [done|].
  rewrite nibbles_cons, foldl_app. cbn [foldl]. rewrite IH. f_equal.
  pose proof (Z.div_mod (b2z b) 16 ltac:(lia)). lia.
Qed.

Lemma nibbles_val (bs : list byte) : val 16 (nibbles bs) = beValue bs.
Proof. apply nibbles_val_acc. Qed.

Lemma beValue_bound (bs : list byte) :
  0 <= beValue bs < 256 ^ Z.of_nat (length bs).
Proof.
  rewrite <- nibbles_val.
  pose proof (val_bound 16 (nibbles bs) ltac:(lia) (nibbles_isDigit bs)) as Hb.
  rewrite nibbles_length in Hb.
  replace (256 ^ Z.of_nat (length bs)) with (16 ^ Z.of_nat (2 * length bs)); [done|].
  rewrite Nat2Z.inj_mul, Z.pow_mul_r by lia. done.
Qed.

Lemma hexPairs_bytesToHex (bs : list byte) : hexPairs (bytesToHex bs) = bs.
Proof.
  induction bs as [|b bs IH]; [done|].
  rewrite bytesToHex_nibbles, nibbles_cons, fmap_app, <- bytesToHex_nibbles.
  pose proof (b2z_range b).
  assert (0 <= b2z b / 16 < 16) as H1.
  { split; [apply Z.div_pos; lia|apply Z.div_lt_upper_bound; lia]. }
  pose proof (Z.mod_pos_bound (b2z b) 16 ltac:(lia)) as H2.
  cbn [fmap list_fmap app hexPairs]. rewrite IH.
  rewrite !DECODE_digitChar, lor_nibbles by lia. f_equal.
  rewrite <- (z2b_b2z b) at 3. f_equal.
  pose proof (Z.div_mod (b2z b) 16 ltac:(lia)). lia.
Qed.

Lemma bytesToHex_length (bs : list byte) :
  length (bytesToHex bs) = (2 * length bs)%nat.
Proof. by rewrite bytesToHex_nibbles, length_fmap, nibbles_length. Qed.

Lemma odd_double (n : nat) : Z.odd (Z.of_nat (2 * n)) = false.
Proof. rewrite Nat2Z.inj_mul. apply Z.odd_even. Qed.

Lemma hexToBytes_bytesToHex (bs : list byte) : hexToBytes (bytesToHex bs) = Ok bs.
Proof.
  unfold hexToBytes. rewrite bytesToHex_length, odd_double.
  by rewrite hexPairs_bytesToHex.
Qed.

Lemma bytesToHex_inj (a b : list byte) : bytesToHex a = bytesToHex b -> a = b.
Proof.
  intros E. apply (f_equal hexPairs) in E. by rewrite !hexPairs_bytesToHex in E.
Qed.

Lemma bytesToHex_lower (bs : list byte) : Forall isLowerHexChar (bytesToHex bs).
Proof.
  rewrite bytesToHex_nibbles. apply Forall_fmap.
  eapply Forall_impl; [apply nibbles_isDigit|].
  intros d Hd. unfold isDigit in Hd. unfold isLowerHexChar, Js.digitChar, compose.
  destruct (Z.ltb_spec d 10); lia.
Qed.

Lemma lowerHex_digits (s : jsstring) :
  Forall isLowerHexChar s ->
  exists D, Forall (isDigit 16) D /\ s = Js.digitChar <$> D.
Proof.
  induction 1 as [|c s Hc _ (D & HD & ->)]; [by exists []|].
  exists ((if c <? 58 then c - 48 else c - 87) :: D). split.
  - constructor; [|done]. unfold isDigit, isLowerHexChar in *.
    destruct (Z.ltb_spec c 58); lia.
  - cbn [fmap list_fmap]. f_equal. unfold Js.digitChar, isLowerHexChar in *.
    destruct (Z.ltb_spec c 58).
    + destruct (Z.ltb_spec (c - 48) 10); lia.
    + destruct (Z.ltb_spec (c - 87) 10); lia.
Qed.

Lemma hexPairs_length (s : jsstring) :
  Z.odd (Z.of_nat (length s)) = false -> length s = (2 * length (hexPairs s))%nat.
Proof.
  induction s as [|x|x y s IH] using list_pair_ind; [done|done|].
  intros Hodd. cbn [hexPairs length].
  rewrite IH; [lia|].
  rewrite <- Hodd. cbn [length].
  rewrite !Nat2Z.inj_succ, <- !Z.add_1_r, !Z.odd_add. cbn.
  by destruct (Z.odd (Z.of_nat (length s))).
Qed.

(** Exactly [length D] digits of the value of [D] are [D] itself. *)
Lemma fixed_of_val (radix : Z) (D : list Z) :
  2 <= radix -> Forall (isDigit radix) D ->
  fixed radix (length D) (val radix D) = D.
Proof.
  intros Hr. induction D as [|d D IH] using rev_ind; intros HD; [done|].
  apply Forall_app in HD as [HD Hd]. apply Forall_inv in Hd.
  unfold isDigit in Hd.
  rewrite length_app, Nat.add_1_r, fixed_S, val_snoc.
  replace ((val radix D * radix + d) / radix) with (val radix D).
  2:{ symmetry. rewrite Z.add_comm, Z.div_add by lia.
      rewrite Z.div_small by lia. done. }
  rewrite IH by done. f_equal. f_equal.
  rewrite Z.add_comm, Z.mod_add by lia. by apply Z.mod_small.
Qed.

Lemma pow_16_double (n : nat) : 16 ^ Z.of_nat (n * 2) = 256 ^ Z.of_nat n.
Proof. rewrite Nat2Z.inj_mul, Z.mul_comm, Z.pow_mul_r by lia. done. Qed.

Lemma hexPairs_ext (s s' : jsstring) :
  DECODE <$> s = DECODE <$> s' -> hexPairs s = hexPairs s'.
Proof.
  revert s'. induction s as [|x|x y s IH] using list_pair_ind; intros s' E.
  - by destruct s'.
  - destruct s' as [|x' [|y' s']]; done.
  - destruct s' as [|x' [|y' s']]; try done.
    cbn [fmap list_fmap] in E. injection E as E1 E2 E3.
    cbn [hexPairs]. rewrite E1, E2. f_equal. by apply IH.
Qed.

(** [bytesToInt] reads a non-empty byte array as a big-endian number; on
    the empty array it throws a [SyntaxError]. *)
Lemma bytesToInt_beValue (bs : list byte) :
  bytesToInt bs
  = match bs with
    | [] => Err (SyntaxError "Cannot convert to a BigInt")
    | _ => Ok (beValue bs)
    end.
Proof.
  destruct bs as [|b bs]; [done|].
  unfold bytesToInt. rewrite bytesToHex_nibbles, BigInt0x_digits.
  - by rewrite nibbles_val.
  - intros E. apply (f_equal length) in E. rewrite nibbles_length in E. done.
  - apply nibbles_isDigit.
Qed.

End HexFacts.

Module HexProperties.
Import Utils Digits DigitsFacts UtilsFacts HexSpec HexFacts.

(** X6.  [hexToBytes(bytesToHex(bytes))] gives [bytes] back, for every byte
    array; [bytesToHex] gives two characters [0-9a-f] per byte. *)
Theorem hexToBytes_inverts_bytesToHex (bs : list byte) :
  hexToBytes (bytesToHex bs) = Ok bs
  /\ length (bytesToHex bs) = (2 * length bs)%nat
  /\ Forall isLowerHexChar (bytesToHex bs).
Proof.
  split_and!.
  - apply hexToBytes_bytesToHex.
  - apply bytesToHex_length.
  - apply bytesToHex_lower.
Qed.

(** X7.  For a width of [n >= 1] bytes, [intToBytes(x, n)] and
    [bytesToInt] are inverse bijections between the integers of
    [0, 256^n) and the arrays of [n] bytes. *)
Theorem intToBytes_bytesToInt_inverse (n : nat) :
  (1 <= n)%nat ->
  (forall x, 0 <= x < 256 ^ Z.of_nat n ->
     exists bs, intToBytes x (Some n) = Ok bs /\ length bs = n
                /\ bytesToInt bs = Ok x)
  /\ (forall bs, length bs = n ->
        exists x, bytesToInt bs = Ok x /\ 0 <= x < 256 ^ Z.of_nat n
                  /\ intToBytes x (Some n) = Ok bs).
Proof.
  intros Hn. split.
  - intros x Hx. unfold intToBytes, intToHex, hexToBytes, bytesToInt.
    rewrite padStart_toString by (rewrite ?pow_16_double; lia).
    rewrite length_fmap, fixed_length.
    rewrite (Nat.mul_comm n 2), odd_double.
    assert (Forall (isDigit 16) (fixed 16 (2 * n) x)) as HD by (apply fixed_isDigit; lia).
    destruct (hexPairs_digits n (fixed 16 (2 * n) x)) as [H1 H2];
      [by rewrite fixed_length|done|].
    eexists. split_and!; [done|done|].
    rewrite H2, BigInt0x_digits;
      [|intros E%(f_equal length); rewrite fixed_length in E; simpl in E; lia|done].
    f_equal. apply fixed_val; [lia|].
    rewrite (Nat.mul_comm 2 n), pow_16_double. lia.
  - intros bs Hlen. exists (beValue bs).
    pose proof (beValue_bound bs) as Hb. rewrite Hlen in Hb.
    split_and!; [|lia|lia|].
    + rewrite bytesToInt_beValue. destruct bs; [simpl in Hlen; lia|done].
    + unfold intToBytes, intToHex.
      rewrite padStart_toString by (rewrite ?pow_16_double; lia).
      rewrite <- nibbles_val.
      replace (n * 2)%nat with (length (nibbles bs)) by (rewrite nibbles_length; lia).
      rewrite fixed_of_val by (lia || apply nibbles_isDigit).
      rewrite <- bytesToHex_nibbles. apply hexToBytes_bytesToHex.
Qed.

Lemma intToBytes_bytesToInt_inverse_witness :
  (forall x, 0 <= x < 256 ^ Z.of_nat 32 ->
     exists bs, intToBytes x (Some 32%nat) = Ok bs /\ length bs = 32%nat
                /\ bytesToInt bs = Ok x)
  /\ (forall bs, length bs = 32%nat ->
        exists x, bytesToInt bs = Ok x /\ 0 <= x < 256 ^ Z.of_nat 32
                  /\ intToBytes x (Some 32%nat) = Ok bs).
Proof. apply (intToBytes_bytesToInt_inverse 32). lia. Defined.

(** X8.  [intToBytes] does not see the sign: for [0 < x < 16^(2n-1)],
    [intToBytes(-x, n)] is [intToBytes(x, n)], because [hexToBytes] reads
    the minus sign of the hex string as the digit [0]. *)
Theorem intToBytes_drops_sign (n : nat) (x : Z) :
  (1 <= n)%nat -> 0 < x < 16 ^ (Z.of_nat (2 * n) - 1) ->
  intToBytes (- x) (Some n) = intToBytes x (Some n).
Proof.
  intros Hn Hx. unfold intToBytes, intToHex, Js.toString.
  replace (- x <? 0) with true by (symmetry; apply Z.ltb_lt; lia).
  replace (x <? 0) with false by (symmetry; apply Z.ltb_ge; lia).
  rewrite Z.opp_involutive.
  destruct (digits_fixed 16 (2 * n - 1) x ltac:(lia) ltac:(lia)) as [_ Hlen].
  { split; [lia|]. replace (Z.of_nat (2 * n - 1)) with (Z.of_nat (2 * n) - 1) by lia. lia. }
  set (ds := Js.digitChar <$> Js.digits 16 x).
  assert (length ds <= 2 * n - 1)%nat as Hds by (unfold ds; by rewrite length_fmap).
  unfold Js.padStart. cbn [length].
  replace (n * 2 - length ds)%nat with (S (n * 2 - S (length ds))) by lia.
  rewrite replicate_S_end, <- app_assoc. cbn [app].
  unfold hexToBytes. rewrite !length_app. cbn [length].
  destruct (Z.odd _); [done|].
  f_equal. apply hexPairs_ext. rewrite !fmap_app. done.
Qed.

Lemma intToBytes_drops_sign_witness :
  intToBytes (- 5) (Some 32%nat) = intToBytes 5 (Some 32%nat).
Proof. apply (intToBytes_drops_sign 32 5); [lia|]. split; [lia|reflexivity]. Defined.

End HexProperties.

(** ** [src/crypto/secp256k1.ts]: square roots, points and their encodings *)

Module CurveFacts.
Import Utils Secp256k1 Curve ModFacts HexSpec HexFacts.

Lemma P_same : Secp256k1.P = Utils.P.
Proof. reflexivity. Qed.

Local Abbreviation pw n e := (Egcd.powmod n Utils.P e).

Lemma sqr_spec (x : Z) : sqr x = (x * x) mod Utils.P.
Proof. unfold sqr. apply modP_spec. Qed.

Lemma mul_spec (x y : Z) : mul x y = (x * y) mod Utils.P.
Proof. unfold mul. apply modP_spec. Qed.

Lemma sqr_n (n : Z) : sqr n = pw n 2.
Proof. rewrite sqr_spec. unfold Egcd.powmod. f_equal. lia. Qed.

Lemma mul_pw_n (n : Z) (a : positive) :
  mul (pw n (Zpos a)) n = pw n (Zpos (a + 1)).
Proof.
  rewrite mul_spec. unfold Egcd.powmod.
  rewrite Z.mul_mod_idemp_l by done. f_equal.
  rewrite Pos2Z.inj_add, Z.pow_add_r by lia. lia.
Qed.

Lemma mul_pw (n : Z) (a b : positive) :
  mul (pw n (Zpos a)) (pw n (Zpos b)) = pw n (Zpos (a + b)).
Proof.
  rewrite mul_spec. unfold Egcd.powmod.
  rewrite <- Z.mul_mod by done. f_equal.
  rewrite Pos2Z.inj_add, Z.pow_add_r by lia. done.
Qed.

Lemma sqr_pw (n : Z) (a : positive) : sqr (pw n (Zpos a)) = pw n (Zpos a~0).
Proof.
  rewrite sqr_spec. unfold Egcd.powmod.
  rewrite <- Z.mul_mod by done. f_equal.
  rewrite <- Z.pow_add_r by lia. f_equal. lia.
Qed.

Lemma sqrN_pw (n : Z) (k : nat) (a : positive) :
  sqrN k (pw n (Zpos a)) = pw n (Zpos (Pos.shiftl_nat a k)).
Proof.
  induction k as [|k IH]; [done|].
  change (sqrN (S k) (pw n (Zpos a))) with (sqr (sqrN k (pw n (Zpos a)))).
  rewrite IH, sqr_pw. done.
Qed.

(** The addition chain of [sqrtModSecp256k1] raises to the power
    [(P + 1) / 4]. *)
Lemma sqrt_power (n : Z) :
  sqrtModSecp256k1 n
  = let r := n ^ ((Secp256k1.P + 1) / 4) mod Secp256k1.P in
    if (r * r) mod Secp256k1.P =? n mod Secp256k1.P then Ok r
    else Err (Error "no sqrt").
Proof.
  unfold sqrtModSecp256k1. cbv zeta.
  rewrite !(sqr_n n).
  repeat first [rewrite (mul_pw_n n) | rewrite sqr_pw | rewrite sqrN_pw | rewrite mul_pw].
  rewrite !modP_spec.
  match goal with
  | |- context [Egcd.powmod n Utils.P (Zpos ?e)] =>
      replace (Zpos e) with ((Secp256k1.P + 1) / 4) by (vm_compute; reflexivity)
  end.
  unfold Egcd.powmod. rewrite P_same.
  by destruct (_ =? _).
Qed.

Lemma land_1_odd (y : Z) : (Z.land y 1 =? 1) = Z.odd y.
Proof.
  change 1 with (Z.ones 1) at 1. rewrite Z.land_ones by lia.
  change (2 ^ 1) with 2. by rewrite Zodd_mod.
Qed.

Lemma land_1_even (y : Z) : (Z.land y 1 =? 0) = Z.even y.
Proof.
  change 1 with (Z.ones 1) at 1. rewrite Z.land_ones by lia.
  change (2 ^ 1) with 2. by rewrite Zeven_mod.
Qed.

Lemma sqrt_ok (n r : Z) :
  sqrtModSecp256k1 n = Ok r ->
  0 <= r < Secp256k1.P /\ (r * r) mod Secp256k1.P = n mod Secp256k1.P.
Proof.
  rewrite sqrt_power. cbv zeta.
  destruct (Z.eqb_spec ((n ^ ((Secp256k1.P + 1) / 4) mod Secp256k1.P
                         * (n ^ ((Secp256k1.P + 1) / 4) mod Secp256k1.P))
                        mod Secp256k1.P) (n mod Secp256k1.P)) as [E|]; [|done].
  intros [= <-]. split; [|done]. by apply Z.mod_pos_bound.
Qed.

Lemma computeY_spec (x : Z) (isOdd : bool) (A : Point) :
  computeY x isOdd = Ok A ->
  px A = x /\ pz A = 1 /\ 0 <= py A < Secp256k1.P
  /\ (py A * py A) mod Secp256k1.P = (x * x * x + 7) mod Secp256k1.P
  /\ (py A <> 0 -> Z.odd (py A) = isOdd).
Proof.
  unfold computeY. rewrite modP_spec, <- P_same.
  destruct (sqrtModSecp256k1 _) as [r|] eqn:Hs; [|done]. cbn [bind].
  apply sqrt_ok in Hs as [Hr Hsq].
  rewrite Z.mod_mod in Hsq by done.
  assert ((Z.rem (x * x) Secp256k1.P * x + B) mod Secp256k1.P
          = (x * x * x + 7) mod Secp256k1.P) as Hrhs.
  { rewrite Z.rem_mod_nonneg by nia.
    rewrite Z.add_mod, Z.mul_mod_idemp_l, <- Z.add_mod by done. done. }
  rewrite Hrhs in Hsq. intros [= <-]. cbn [px py pz fromAffine].
  split; [done|]. split; [done|].
  rewrite land_1_odd, modP_spec, <- P_same.
  destruct (Bool.eqb (Z.odd r) isOdd) eqn:Ep; cbn [negb].
  - split; [done|]. split; [done|]. intros _. by apply Bool.eqb_prop.
  - pose proof (Z.mod_pos_bound (- r) Secp256k1.P ltac:(done)) as Hb.
    split; [done|]. split.
    + rewrite <- Z.mul_mod by done. rewrite <- Hsq. f_equal. lia.
    + intros Hne.
      assert (r <> 0) as Hr0 by (intros ->; by apply Hne).
      assert ((- r) mod Secp256k1.P = Secp256k1.P - r) as ->.
      { symmetry. apply (Z.mod_unique_pos _ _ (-1)); lia. }
      rewrite Z.odd_sub. change (Z.odd Secp256k1.P) with true.
      apply Bool.eqb_false_iff in Ep.
      destruct (Z.odd r), isOdd; done.
Qed.

Lemma bytes2_x02 (b : byte) : b2z b = 2 -> b = x02.
Proof. intros E. by apply b2z_inj. Qed.

Lemma bytes3_x03 (b : byte) : b2z b = 3 -> b = x03.
Proof. intros E. by apply b2z_inj. Qed.

Lemma bytes4_x04 (b : byte) : b2z b = 4 -> b = x04.
Proof. intros E. by apply b2z_inj. Qed.

(** [intToBytes] gives back the bytes that [bytesToInt] read. *)
Lemma intToBytes_of_bytes (bs : list byte) (x : Z) :
  bs <> [] -> bytesToInt bs = Ok x -> intToBytes x (Some (length bs)) = Ok bs.
Proof.
  intros Hne Hx.
  assert (x = beValue bs) as ->.
  { unfold bytesToInt in Hx. rewrite bytesToHex_nibbles in Hx.
    rewrite UtilsFacts.BigInt0x_digits in Hx.
    - rewrite nibbles_val in Hx. congruence.
    - intros E. apply (f_equal length) in E. rewrite nibbles_length in E.
      destruct bs; [done|simpl in E; lia].
    - apply nibbles_isDigit. }
  pose proof (beValue_bound bs) as Hb.
  assert (1 <= length bs)%nat by (destruct bs; [done|simpl; lia]).
  unfold intToBytes, intToHex.
  rewrite DigitsFacts.padStart_toString by (rewrite ?pow_16_double; lia).
  rewrite <- nibbles_val.
  replace (length bs * 2)%nat with (length (nibbles bs)) by (rewrite nibbles_length; lia).
  rewrite fixed_of_val by (lia || apply nibbles_isDigit).
  rewrite <- bytesToHex_nibbles. apply hexToBytes_bytesToHex.
Qed.

Lemma intToBytes_width (x : Z) (n : nat) :
  (1 <= n)%nat -> 0 <= x < 256 ^ Z.of_nat n ->
  exists bs, intToBytes x (Some n) = Ok bs /\ length bs = n /\ bytesToInt bs = Ok x.
Proof.
  intros Hn Hx. unfold intToBytes, intToHex, hexToBytes, bytesToInt.
  rewrite DigitsFacts.padStart_toString by (rewrite ?pow_16_double; lia).
  rewrite length_fmap, DigitsFacts.fixed_length.
  rewrite (Nat.mul_comm n 2), odd_double.
  assert (Forall (Digits.isDigit 16) (Digits.fixed 16 (2 * n) x)) as HD
    by (apply DigitsFacts.fixed_isDigit; lia).
  destruct (UtilsFacts.hexPairs_digits n (Digits.fixed 16 (2 * n) x)) as [H1 H2];
    [by rewrite DigitsFacts.fixed_length|done|].
  eexists. split_and!; [done|done|].
  rewrite H2, UtilsFacts.BigInt0x_digits;
    [|intros E%(f_equal length); rewrite DigitsFacts.fixed_length in E; simpl in E; lia|done].
  f_equal. apply DigitsFacts.fixed_val; [lia|].
  rewrite (Nat.mul_comm 2 n), pow_16_double. lia.
Qed.

Lemma fromBytes_33_inv (bs : list byte) (A : Point) :
  length bs = 33%nat -> Secp256k1.fromBytes bs = Ok A ->
  exists b0 rest x, bs = b0 :: rest /\ length rest = 32%nat
    /\ (b2z b0 = 2 \/ b2z b0 = 3)
    /\ bytesToInt rest = Ok x /\ computeY x (b2z b0 =? 3) = Ok A.
Proof.
  intros Hlen Hfb. destruct bs as [|b0 rest]; [discriminate Hlen|].
  unfold Secp256k1.fromBytes in Hfb. rewrite Hlen in Hfb.
  change (33 =? 33)%nat with true in Hfb. change (33 =? 65)%nat with false in Hfb.
  rewrite andb_true_l, andb_false_l in Hfb.
  assert (length rest = 32%nat) as Hrest by (simpl in Hlen; lia).
  destruct ((b2z b0 =? 2) || (b2z b0 =? 3)) eqn:Eb; [|discriminate Hfb].
  destruct (bytesToInt rest) as [x|] eqn:Ex; [|discriminate Hfb].
  rewrite bind_Ok in Hfb.
  exists b0, rest, x. split; [reflexivity|]. split; [exact Hrest|]. split.
  { apply orb_true_iff in Eb as [Eb|Eb]; apply Z.eqb_eq in Eb; auto. }
  split; [exact Ex|exact Hfb].
Qed.

(** [toCompressed] and [toUncompressed] of an affine point. *)
Lemma toCompressed_affine_point (x y : Z) :
  toCompressed (mkPoint x y 1)
  = (xb <- intToBytes x (Some 32%nat) ;;
     Ok ((if Z.even y then x02 else x03) :: xb)).
Proof.
  unfold toCompressed, toAffine. cbn [pz px py]. change (1 =? 1) with true.
  cbv iota. rewrite bind_Ok. cbn [px py]. by rewrite land_1_even.
Qed.

(** Decompression of the base point. *)
Lemma computeY_G : computeY Gx false = Ok basePoint.
Proof. vm_compute. reflexivity. Qed.

Lemma fromBytes_G : Secp256k1.fromBytes CurveSamples.basePointBytes = Ok basePoint.
Proof.
  unfold Secp256k1.fromBytes, CurveSamples.basePointBytes.
  assert (bytesToInt
            (hexPairs
               (js "79be667ef9dcbbac55a06295ce870b07029bfcdb2dce28d959f2815b16f81798"))
          = Ok Gx) as E by (vm_compute; reflexivity).
  assert (length
            (hexPairs
               (js "79be667ef9dcbbac55a06295ce870b07029bfcdb2dce28d959f2815b16f81798"))
          = 32%nat) as Hl by (vm_compute; reflexivity).
  cbn [length]. rewrite Hl. change (33 =? 33)%nat with true.
  change (b2z x02 =? 2) with true. change (b2z x02 =? 3) with false.
  rewrite andb_true_l, orb_true_l, E, bind_Ok. apply computeY_G.
Qed.

Lemma toCompressed_G : toCompressed basePoint = Ok CurveSamples.basePointBytes.
Proof. vm_compute. reflexivity. Qed.

(** [bytesToInt] returns on every non-empty array. *)
Lemma intToBytes_bytesToInt_helper (bs : list byte) :
  (1 <= length bs)%nat -> exists x, bytesToInt bs = Ok x.
Proof.
  intros Hl. exists (beValue bs).
  unfold bytesToInt. rewrite bytesToHex_nibbles, UtilsFacts.BigInt0x_digits.
  - by rewrite nibbles_val.
  - intros E. apply (f_equal length) in E. rewrite nibbles_length in E.
    simpl in E. lia.
  - apply nibbles_isDigit.
Qed.

End CurveFacts.

Module CurveProperties.
Import Utils Secp256k1 Curve ModFacts HexSpec HexFacts CurveFacts IdentifierFacts.

(** X9.  A point that [computeY(x, isOdd)] returns is affine, keeps [x]
    as given, and has [0 <= y < P] with [y^2 = x^3 + 7] modulo [P]; unless
    [y] is zero, [y] is odd exactly when [isOdd] is set. *)
Theorem computeY_on_curve (x : Z) (isOdd : bool) (A : Point) :
  computeY x isOdd = Ok A ->
  px A = x /\ pz A = 1 /\ 0 <= py A < P
  /\ (py A * py A) mod P = (x * x * x + 7) mod P
  /\ (py A <> 0 -> Z.odd (py A) = isOdd).
Proof. apply computeY_spec. Qed.

Lemma computeY_on_curve_witness :
  px basePoint = Gx /\ pz basePoint = 1 /\ 0 <= py basePoint < P
  /\ (py basePoint * py basePoint) mod P = (Gx * Gx * Gx + 7) mod P
  /\ (py basePoint <> 0 -> Z.odd (py basePoint) = false).
Proof. apply (computeY_on_curve Gx false basePoint). exact computeY_G. Defined.

(** X10.  Compression inverts decompression: if [Point.fromBytes] accepts
    a 33-byte encoding and the point it returns has [y <> 0], then
    [toCompressed] of that point is the encoding itself. *)
Theorem toCompressed_inverts_fromBytes (bs : list byte) (A : Point) :
  length bs = 33%nat -> Secp256k1.fromBytes bs = Ok A -> py A <> 0 ->
  toCompressed A = Ok bs.
Proof.
  intros Hlen Hfb Hy.
  destruct (fromBytes_33_inv bs A Hlen Hfb) as (b0 & rest & x & -> & Hrest & Hb0 & Hx & HY).
  destruct (computeY_spec _ _ _ HY) as (Hpx & Hz & _ & _ & Hpar).
  specialize (Hpar Hy). destruct A as [ax ay az]. cbn [px py pz] in *. subst ax az.
  rewrite toCompressed_affine_point.
  pose proof (intToBytes_of_bytes rest x) as Hib. rewrite Hrest in Hib.
  rewrite Hib; [|by intros ->|done]. rewrite bind_Ok. do 2 f_equal.
  rewrite <- Z.negb_odd, Hpar.
  destruct Hb0 as [E|E]; rewrite E.
  - by apply bytes2_x02 in E.
  - by apply bytes3_x03 in E.
Qed.

Lemma toCompressed_inverts_fromBytes_witness :
  toCompressed basePoint = Ok CurveSamples.basePointBytes.
Proof.
  apply (toCompressed_inverts_fromBytes CurveSamples.basePointBytes basePoint).
  - reflexivity.
  - exact fromBytes_G.
  - discriminate.
Defined.

(** X11.  The 65-byte encoding: [toUncompressed] of an affine point with
    coordinates in [0, 2^256) is 65 bytes that [Point.fromBytes] reads back
    to the point, on the curve or not; and [toUncompressed] gives back every
    65-byte encoding that [Point.fromBytes] accepts. *)
Theorem uncompressed_roundtrip :
  (forall x y, 0 <= x < 2 ^ 256 -> 0 <= y < 2 ^ 256 ->
     exists bs, toUncompressed (fromAffine x y) = Ok bs /\ length bs = 65%nat
                /\ Secp256k1.fromBytes bs = Ok (fromAffine x y))
  /\ (forall bs A, length bs = 65%nat -> Secp256k1.fromBytes bs = Ok A ->
         toUncompressed A = Ok bs).
Proof.
  split.
  - intros x y Hx Hy. unfold toUncompressed, toAffine, fromAffine.
    cbn [pz px py Z.eqb Pos.eqb bind].
    destruct (intToBytes_width x 32 ltac:(lia)) as (xb & -> & Hxl & Hxi).
    { by rewrite <- pow_16_double. }
    destruct (intToBytes_width y 32 ltac:(lia)) as (yb & -> & Hyl & Hyi).
    { by rewrite <- pow_16_double. }
    cbn [bind]. eexists. split; [done|]. split.
    { cbn [length]. rewrite length_app. lia. }
    unfold Secp256k1.fromBytes. cbn [length]. rewrite length_app, Hxl, Hyl.
    cbn [Nat.add Nat.eqb andb]. change (b2z x04 =? 4) with true.
    rewrite take_app_length' by done. rewrite Hxi. cbn [bind].
    rewrite drop_app_length' by done. rewrite take_ge by lia. by rewrite Hyi.
  - intros [|b0 rest] A Hlen Hfb; [done|].
    unfold Secp256k1.fromBytes in Hfb. rewrite Hlen in Hfb. cbn [Nat.eqb andb] in Hfb.
    assert (length rest = 64%nat) as Hrest by (simpl in Hlen; lia).
    destruct (Z.eqb_spec (b2z b0) 4) as [E4|]; [|done].
    apply bytes4_x04 in E4 as ->.
    destruct (bytesToInt (take 32 rest)) as [x|] eqn:Ex; [|done]. cbn [bind] in Hfb.
    destruct (bytesToInt (take 32 (drop 32 rest))) as [y|] eqn:Ey; [|done].
    cbn [bind] in Hfb. injection Hfb as <-.
    unfold toUncompressed, toAffine, fromAffine. cbn [pz px py Z.eqb Pos.eqb].
    rewrite bind_Ok. cbn [px py].
    pose proof (intToBytes_of_bytes (take 32 rest) x) as Hx.
    pose proof (intToBytes_of_bytes (take 32 (drop 32 rest)) y) as Hy.
    rewrite length_take, Hrest in Hx.
    rewrite length_take, length_drop, Hrest in Hy.
    change (32 `min` 64)%nat with 32%nat in Hx.
    change (32 `min` (64 - 32))%nat with 32%nat in Hy.
    rewrite Hx; [|intros E%(f_equal length); rewrite length_take, Hrest in E; done|done].
    cbn [bind].
    rewrite Hy; [|intros E%(f_equal length);
                  rewrite length_take, length_drop, Hrest in E; done|done].
    cbn [bind]. do 2 f_equal.
    rewrite (take_ge (drop 32 rest)) by (rewrite length_drop; lia).
    apply take_drop.
Qed.

(** X12.  [toAffine] normalises: for a point whose [z] is coprime to [P]
    it returns an affine point [(x', y', 1)] with [x' * z = x] and
    [y' * z = y] modulo [P], and that point is a fixed point of
    [toAffine]. *)
Theorem toAffine_normalises (p : Point) :
  Z.gcd (pz p) P = 1 ->
  exists A, toAffine p = Ok A /\ pz A = 1
            /\ (px A * pz p) mod P = px p mod P
            /\ (py A * pz p) mod P = py p mod P
            /\ toAffine A = Ok A.
Proof.
  intros Hg. unfold toAffine at 1.
  destruct (Z.eqb_spec (pz p) 1) as [E1|E1].
  - eexists. split; [done|]. cbn [px py pz]. rewrite E1, !Z.mul_1_r.
    split_and!; done.
  - destruct ((px p =? 0) && (py p =? 0) && (pz p =? 0)) eqn:E0.
    { apply andb_true_iff in E0 as [_ Ez]. apply Z.eqb_eq in Ez.
      rewrite Ez in Hg. by vm_compute in Hg. }
    destruct (EgcdFacts.modInv_spec (pz p) Utils.P ltac:(done) Hg) as (iz & Hiz & Hr & Hinv).
    rewrite P_same. rewrite Hiz. cbn [bind]. eexists. split; [done|].
    unfold fromAffine. cbn [px py pz]. rewrite !modP_spec.
    split; [done|].
    assert (forall v, (v * iz mod Utils.P * pz p) mod Utils.P = v mod Utils.P) as Hk.
    { intros v. rewrite Z.mul_mod_idemp_l by done.
      rewrite <- Z.mul_assoc, <- Z.mul_mod_idemp_r, Hinv by done.
      by rewrite Z.mul_1_r. }
    rewrite !Hk. split_and!; done.
Qed.

Lemma toAffine_normalises_witness :
  exists A, toAffine (mkPoint 6 8 2) = Ok A /\ pz A = 1
            /\ (px A * pz (mkPoint 6 8 2)) mod P = px (mkPoint 6 8 2) mod P
            /\ (py A * pz (mkPoint 6 8 2)) mod P = py (mkPoint 6 8 2) mod P
            /\ toAffine A = Ok A.
Proof. apply (toAffine_normalises (mkPoint 6 8 2)). reflexivity. Defined.

End CurveProperties.

(** ** [src/crypto/identifier.ts], [src/crypto/peer.ts]: identifiers and
       shared secrets *)

Module IdentifierMoreFacts.
Import Utils Secp256k1 Identifier Curve HexSpec HexFacts CaseSpec CurveFacts IdentifierFacts.

Lemma pow_add_mod (k i c : Z) :
  0 <= i -> 0 <= c -> (k ^ i mod N * (k ^ c mod N)) mod N = k ^ (i + c) mod N.
Proof.
  intros Hi Hc. rewrite <- Z.mul_mod by (pose proof N_gt_1; lia).
  by rewrite Z.pow_add_r by lia.
Qed.

Lemma inverse_coprime (k kInv : Z) : (kInv * k) mod N = 1 -> Z.gcd kInv N = 1.
Proof.
  intros Hinv. pose proof N_gt_1.
  pose proof (Z.gcd_nonneg kInv N) as Hn.
  pose proof (Z.gcd_divide_l kInv N) as Hl.
  pose proof (Z.gcd_divide_r kInv N) as Hr.
  assert ((Z.gcd kInv N | 1)) as H1.
  { rewrite <- Hinv, Z.mod_eq by lia.
    apply Z.divide_sub_r.
    - by apply Z.divide_mul_l.
    - by apply Z.divide_mul_l. }
  apply Z.divide_1_r_nonneg in H1; done.
Qed.

Lemma pow_inverse_back (k kInv i c : Z) :
  0 <= i -> 0 <= c -> (kInv * k) mod N = 1 ->
  (k ^ (i + c) mod N * (kInv ^ c mod N)) mod N = k ^ i mod N.
Proof.
  intros Hi Hc Hinv. pose proof N_gt_1.
  rewrite <- Z.mul_mod by lia.
  rewrite Z.pow_add_r by lia. rewrite <- Z.mul_assoc, <- Z.pow_mul_l.
  rewrite <- Z.mul_mod_idemp_r by lia.
  rewrite <- (Z.mod_pow_l (k * kInv)), (Z.mul_comm k kInv), Hinv.
  rewrite Z.pow_1_l by lia. rewrite Z.mod_1_l by lia. by rewrite Z.mul_1_r.
Qed.

Lemma toCompressed_Infinity : toCompressed Infinity = Err (RangeError "a,b > 0").
Proof. vm_compute. reflexivity. Qed.

Lemma mulPoint_zero (multiply : Point -> Z -> result Point) (p : Point) (s : Z) :
  Z.rem s N = 0 -> mulPoint multiply p s = Ok Infinity.
Proof. intros E. unfold mulPoint. rewrite E. by rewrite orb_true_r. Qed.

Lemma DECODE_asciiLower (c : Z) : DECODE (asciiLower c) = DECODE c.
Proof.
  unfold asciiLower.
  destruct (Z.leb_spec 65 c), (Z.leb_spec c 90); cbn [andb]; unfold DECODE.
  all: repeat match goal with
         | |- context [?a <=? ?b] => destruct (Z.leb_spec a b)
         | |- context [?a <? ?b] => destruct (Z.ltb_spec a b)
         end; cbn [andb]; lia.
Qed.

Lemma asciiLower_hex (c : Z) : isHexChar c -> isLowerHexChar (asciiLower c).
Proof.
  unfold isHexChar, isLowerHexChar, asciiLower. intros Hc.
  destruct (Z.leb_spec 65 c), (Z.leb_spec c 90); cbn [andb]; lia.
Qed.

(** Decoding hex digits of either case and printing the bytes gives the
    lower-case string. *)
Lemma bytesToHex_hexPairs_lower (h : jsstring) :
  Forall isHexChar h -> Z.odd (Z.of_nat (length h)) = false ->
  bytesToHex (hexPairs h) = asciiLower <$> h.
Proof.
  intros Hh Hodd.
  rewrite (hexPairs_ext h (asciiLower <$> h)).
  2:{ rewrite <- list_fmap_compose. apply list_fmap_ext.
      intros _ c _. simpl. by rewrite DECODE_asciiLower. }
  assert (Forall isLowerHexChar (asciiLower <$> h)) as Hl.
  { apply Forall_fmap. eapply Forall_impl; [done|]. intros c. apply asciiLower_hex. }
  destruct (lowerHex_digits _ Hl) as (D & HD & HE).
  assert (length D = length h) as Hlen.
  { apply (f_equal length) in HE. by rewrite !length_fmap in HE. }
  rewrite HE.
  apply (UtilsFacts.hexPairs_digits (length (hexPairs (Js.digitChar <$> D)))); [|done].
  rewrite <- hexPairs_length; [by rewrite length_fmap|by rewrite length_fmap, Hlen].
Qed.

Lemma hexChar_ascii (c : Z) : isHexChar c -> 0 <= c < 128.
Proof. unfold isHexChar. lia. Qed.

End IdentifierMoreFacts.

Module IdentifierProperties.
Import Utils Secp256k1 Identifier Curve HexSpec HexFacts CaseSpec CurveFacts.
Import IdentifierFacts IdentifierMoreFacts.

(** X13.  A scalar that is a multiple of [N] never reaches the curve
    library: [Secp256k1.mul] returns [Infinity], and [toCompressed] throws
    a [RangeError] on it.  So [getSharedSecret] with such a private key and
    [Identifier.fromChainKey] with such a chain key throw. *)
Theorem zero_scalar_cannot_be_encoded
    (multiply : Point -> Z -> result Point) (sha256 : list byte -> list byte)
    (p : Point) (s : Z) :
  0 <= s -> s mod N = 0 ->
  mulPoint multiply p s = Ok Infinity
  /\ toCompressed Infinity = Err (RangeError "a,b > 0")
  /\ getSharedSecret multiply sha256 s p = Err (RangeError "a,b > 0")
  /\ (forall i, 1 <= i ->
        fromChainKey multiply s i (ArgPoint p) = Err (RangeError "a,b > 0")).
Proof.
  intros Hs Hmod. pose proof N_gt_1.
  assert (Z.rem s N = 0) as Hrem by (rewrite Z.rem_mod_nonneg by lia; done).
  split_and!.
  - by apply mulPoint_zero.
  - apply toCompressed_Infinity.
  - unfold getSharedSecret. rewrite mulPoint_zero, bind_Ok by done.
    by rewrite toCompressed_Infinity.
  - intros i Hi. unfold fromChainKey.
    destruct (Z.ltb_spec i 1); [lia|]. cbn [toPoint]. rewrite bind_Ok.
    rewrite PowFacts.powModW4_spec by lia. rewrite bind_Ok.
    assert (s ^ i mod N = 0) as ->.
    { rewrite <- Z.mod_pow_l, Hmod. rewrite Z.pow_0_l by lia. done. }
    rewrite mulPoint_zero, bind_Ok by done.
    by rewrite toCompressed_Infinity.
Qed.

Lemma zero_scalar_cannot_be_encoded_witness :
  mulPoint stay basePoint 0 = Ok Infinity
  /\ toCompressed Infinity = Err (RangeError "a,b > 0")
  /\ getSharedSecret stay CurveSamples.constantHash 0 basePoint
     = Err (RangeError "a,b > 0")
  /\ (forall i, 1 <= i ->
        fromChainKey stay 0 i (ArgPoint basePoint) = Err (RangeError "a,b > 0")).
Proof.
  apply (zero_scalar_cannot_be_encoded stay CurveSamples.constantHash basePoint 0).
  - lia.
  - reflexivity.
Defined.

Section WithCase.
Variable toLowerCase : jsstring -> jsstring.
(** What [toLowerCase] does to a string of ASCII characters. *)
Hypothesis toLowerCase_ascii : forall s,
  Forall (fun c => 0 <= c < 128) s -> toLowerCase s = asciiLower <$> s.

(** X14.  On a string of 66 hex digits, of either case,
    [Identifier.fromHex] returns the identifier that [Identifier.fromBytes]
    returns on the decoded bytes: the stored hex is the lower-case hex of
    the stored bytes. *)
Theorem fromHex_agrees_with_fromBytes (h : jsstring) :
  Forall isHexChar h -> length h = 66%nat ->
  exists bs,
    hexToBytes h = Ok bs
    /\ Identifier.fromHex toLowerCase h = Identifier.fromBytes bs
    /\ Identifier.fromBytes bs = Ok (Identifier.mk (bytesToHex bs) bs).
Proof.
  intros Hh Hlen.
  assert (Z.odd (Z.of_nat (length h)) = false) as Hodd by (by rewrite Hlen).
  assert (length (hexPairs h) = 33%nat) as H33.
  { pose proof (hexPairs_length h Hodd). lia. }
  exists (hexPairs h). unfold Identifier.fromHex, hexToBytes. rewrite Hodd, bind_Ok.
  split; [done|]. rewrite fromBytes_33 by done. split; [|done].
  rewrite H33. cbn [Nat.eqb negb]. f_equal. f_equal.
  rewrite toLowerCase_ascii.
  - symmetry. by apply bytesToHex_hexPairs_lower.
  - eapply Forall_impl; [done|]. apply hexChar_ascii.
Qed.
End WithCase.

Lemma fromHex_agrees_with_fromBytes_witness :
  exists bs,
    hexToBytes basePointHexUpper = Ok bs
    /\ Identifier.fromHex asciiLowerCase basePointHexUpper = Identifier.fromBytes bs
    /\ Identifier.fromBytes bs = Ok (Identifier.mk (bytesToHex bs) bs).
Proof.
  apply (fromHex_agrees_with_fromBytes asciiLowerCase).
  - intros s _. reflexivity.
  - unfold basePointHexUpper. apply Forall_forall. intros c Hc.
    apply list_elem_of_In in Hc. vm_compute in Hc. unfold isHexChar.
    repeat (destruct Hc as [<-|Hc]; [lia|]). destruct Hc.
  - reflexivity.
Defined.

(** X15.  [SecretIdentifier.fromSecret] reduces a non-negative secret
    modulo [N]: it throws when the secret is a multiple of [N]; otherwise
    the stored secret is [s mod N], in [1, N-1], the stored hex is the hex
    of the stored bytes, and [s + N] gives the same identifier. *)
Theorem fromSecret_normalises
    (multiply : Point -> Z -> result Point) (s : Z) :
  0 <= s ->
  (s mod N = 0 ->
     SecretIdentifier.fromSecret multiply (SecretIdentifier.SecretBigint s)
     = Err (Error "secret must be non-zero"))
  /\ (forall sid,
        SecretIdentifier.fromSecret multiply (SecretIdentifier.SecretBigint s) = Ok sid ->
        SecretIdentifier.secret sid = s mod N
        /\ 1 <= SecretIdentifier.secret sid < N
        /\ hex (SecretIdentifier.identifier sid)
           = bytesToHex (bytes (SecretIdentifier.identifier sid))
        /\ SecretIdentifier.fromSecret multiply
             (SecretIdentifier.SecretBigint (s + N)) = Ok sid).
Proof.
  intros Hs. pose proof N_gt_1.
  assert (Z.rem s N = s mod N) as Hrem by (apply Z.rem_mod_nonneg; lia).
  assert (Z.rem (s + N) N = s mod N) as Hrem'.
  { rewrite Z.rem_mod_nonneg by lia.
    rewrite <- (Z.mul_1_l N) at 1. by rewrite Z.mod_add by lia. }
  pose proof (Z.mod_pos_bound s N ltac:(lia)).
  unfold SecretIdentifier.fromSecret. rewrite !bind_Ok, Hrem, Hrem'.
  split.
  - by intros ->.
  - intros sid. destruct (Z.eqb_spec (s mod N) 0) as [|Hne]; [done|].
    intros Hsid. split_and!; try done.
    all: unfold SecretIdentifier.new in Hsid.
    all: destruct (getPub multiply (s mod N)) as [q|]; [|done].
    all: rewrite bind_Ok in Hsid.
    all: destruct (toCompressed q) as [cpub|]; [|done].
    all: rewrite bind_Ok in Hsid; injection Hsid as <-; cbn; lia || done.
Qed.

Lemma fromSecret_normalises_witness :
  exists sid,
    SecretIdentifier.fromSecret stay (SecretIdentifier.SecretBigint 6) = Ok sid
    /\ SecretIdentifier.secret sid = 6 mod N
    /\ 1 <= SecretIdentifier.secret sid < N
    /\ hex (SecretIdentifier.identifier sid)
       = bytesToHex (bytes (SecretIdentifier.identifier sid))
    /\ SecretIdentifier.fromSecret stay
         (SecretIdentifier.SecretBigint (6 + N)) = Ok sid.
Proof.
  destruct (SecretIdentifier.fromSecret stay (SecretIdentifier.SecretBigint 6))
    as [sid|] eqn:E; [|vm_compute in E; discriminate].
  exists sid. split; [done|].
  apply (fromSecret_normalises stay 6); [lia|done].
Defined.

End IdentifierProperties.

(** ** Moving along the chain by several steps, and the shared secret *)

Module ChainProperties.
Import Utils Secp256k1 Identifier Curve HexSpec HexFacts CurveFacts.
Import IdentifierFacts IdentifierMoreFacts.

Section Chain.
(** The scalar multiplication of [@noble/secp256k1], with the laws of a
    scalar action on the points of the curve. *)
Variable multiply : Point -> Z -> result Point.

Hypothesis multiply_valid : forall p s,
  valid p -> 0 < s < N -> exists q, multiply p s = Ok q /\ valid q.

Hypothesis multiply_assoc : forall p a b q A,
  valid p -> 0 < a < N -> 0 < b < N -> (a * b) mod N <> 0 ->
  multiply p a = Ok q -> toAffine q = Ok A ->
  exists r1 r2,
    multiply A b = Ok r1 /\ multiply p ((a * b) mod N) = Ok r2
    /\ toAffine r1 = toAffine r2.

(** The scalar that [next] and [prev] pass to [jump]. *)
Lemma step_scalar (b c : Z) :
  0 <= b -> Z.gcd b N = 1 -> 1 <= c ->
  exists s0,
    (if c =? 1 then Ok b else powModW4 b c N) = Ok s0
    /\ 0 < b ^ c mod N < N
    /\ forall A, valid A -> mulPoint multiply A s0 = multiply A (b ^ c mod N).
Proof.
  intros Hb Hg Hc. pose proof (pow_coprime b c Hg ltac:(lia)) as Hbc.
  destruct (Z.eqb_spec c 1) as [->|Hc1].
  - exists b. split; [done|]. split; [done|]. intros A HA.
    rewrite Z.pow_1_r. by apply (mulPoint_k multiply).
  - exists (b ^ c mod N). split.
    { apply PowFacts.powModW4_spec; (done || reflexivity || lia). }
    split; [done|]. intros A HA. by apply mulPoint_reduced.
Qed.

Section Key.
Variable k : Z.
Hypothesis k_nonneg : 0 <= k.
Hypothesis k_invertible : Z.gcd k N = 1.

(** X16.  Moving by [count] steps: for a chain key [k >= 0] coprime to
    [N], an index [i >= 1], a count [c >= 1] and a reference point of the
    curve, [fromChainKey(k, i, PK).next(k, c)] is
    [fromChainKey(k, i + c, PK)], and [prev(k, c)] of the latter is the
    former. *)
Theorem chain_moves_by_count (i c : Z) (pk : PointArg) (p : Point) :
  1 <= i -> 1 <= c -> toPoint pk = Ok p -> valid p ->
  exists id1 id2,
    fromChainKey multiply k i pk = Ok id1
    /\ next multiply id1 k c = Ok id2
    /\ fromChainKey multiply k (i + c) pk = Ok id2
    /\ prev multiply id2 k c = Ok id1.
Proof.
  intros Hi Hc Hpk Hp. pose proof N_gt_1.
  destruct (fromChainKey_spec multiply multiply_valid k k_nonneg k_invertible
              i pk p Hi Hpk Hp)
    as (q & A & cb & Hq & HA & HcA & Hcb & Hlen & Hdec & Hid1).
  destruct (fromChainKey_spec multiply multiply_valid k k_nonneg k_invertible
              (i + c) pk p ltac:(lia) Hpk Hp)
    as (q' & A' & cb' & Hq' & HA' & HcA' & Hcb' & Hlen' & Hdec' & Hid2).
  pose proof (pow_coprime k i k_invertible ltac:(lia)) as Hki.
  pose proof (pow_coprime k (i + c) k_invertible ltac:(lia)) as Hki'.
  destruct (kInv_spec k k_invertible) as (kInv & HkInv & HkInvb & Hinv).
  pose proof (inverse_coprime k kInv Hinv) as HgInv.
  destruct (step_scalar k c k_nonneg k_invertible Hc) as (s0 & Es0 & Hs0 & Hm0).
  destruct (step_scalar kInv c ltac:(lia) HgInv Hc) as (s1 & Es1 & Hs1 & Hm1).
  exists (mk (bytesToHex cb) cb), (mk (bytesToHex cb') cb').
  split; [done|]. split; [|split; [done|]].
  - destruct (jump_spec multiply multiply_assoc p q A cb (k ^ i mod N) s0
                (k ^ c mod N) (bytesToHex cb))
      as (r & Hr & Hjump); try done.
    { rewrite pow_add_mod by lia. lia. }
    { apply Hm0. by apply canonical_valid. }
    rewrite pow_add_mod in Hr by lia. rewrite Hq' in Hr. injection Hr as <-.
    unfold next. rewrite Es0, bind_Ok, Hjump, Hcb', bind_Ok.
    by apply fromBytes_33.
  - destruct (jump_spec multiply multiply_assoc p q' A' cb' (k ^ (i + c) mod N) s1
                (kInv ^ c mod N) (bytesToHex cb'))
      as (r & Hr & Hjump); try done.
    { rewrite (pow_inverse_back k kInv i c) by (done || lia). lia. }
    { apply Hm1. by apply canonical_valid. }
    rewrite (pow_inverse_back k kInv i c) in Hr by (done || lia).
    rewrite Hq in Hr. injection Hr as <-.
    unfold prev. rewrite HkInv, bind_Ok, Es1, bind_Ok, Hjump, Hcb, bind_Ok.
    by apply fromBytes_33.
Qed.
End Key.

Section SharedSecret.
Variable sha256 : list byte -> list byte.
Hypothesis sha256_length : forall data, length (sha256 data) = 32%nat.

(** The public key of a private scalar, as the peer receives it. *)
Lemma publicKey_point (a : Z) (pub : list byte) :
  0 < a < N ->
  (pa <- getPub multiply a ;; toCompressed pa) = Ok pub ->
  exists q A,
    multiply basePoint a = Ok q /\ toAffine q = Ok A /\ canonical A
    /\ Secp256k1.fromBytes pub = Ok A.
Proof.
  intros Ha E. unfold getPub in E.
  rewrite mulPoint_reduced in E by (apply basePoint_valid || done).
  destruct (multiply_valid basePoint a basePoint_valid Ha) as (q & Hq & (A & HA & HcA)).
  rewrite Hq, bind_Ok in E.
  destruct (valid_roundtrip q A HA HcA) as (cb & Hcb & _ & Hfb).
  rewrite Hcb in E. injection E as <-. by exists q, A.
Qed.

(** The secret that the holder of [b] derives from the public key of
    [a]. *)
Lemma shared_with (a b : Z) (q A : Point) :
  0 < a < N -> 0 < b < N -> (a * b) mod N <> 0 ->
  multiply basePoint a = Ok q -> toAffine q = Ok A -> canonical A ->
  exists r cb,
    multiply basePoint ((a * b) mod N) = Ok r /\ toCompressed r = Ok cb
    /\ getSharedSecret multiply sha256 b A = Ok (sha256 (sha256 cb)).
Proof.
  intros Ha Hb Hne Hq HA HcA. pose proof N_gt_1.
  destruct (multiply_assoc basePoint a b q A basePoint_valid Ha Hb Hne Hq HA)
    as (r1 & r2 & H1 & H2 & E).
  pose proof (Z.mod_pos_bound (a * b) N ltac:(lia)) as Hab.
  destruct (multiply_valid basePoint ((a * b) mod N) basePoint_valid ltac:(lia))
    as (r & Hr & (R & HR & HcR)).
  rewrite H2 in Hr. injection Hr as <-.
  destruct (valid_roundtrip r2 R HR HcR) as (cb & Hcb & _ & _).
  exists r2, cb. split; [done|]. split; [done|].
  unfold getSharedSecret.
  rewrite mulPoint_reduced by (done || by apply canonical_valid).
  rewrite H1, bind_Ok, (toCompressed_affine r1 r2 E), Hcb. done.
Qed.

Lemma product_nonzero (a b : Z) :
  0 < b < N -> Z.gcd a N = 1 -> (a * b) mod N <> 0.
Proof.
  intros Hb Hg E. pose proof N_gt_1.
  apply Z.mod_divide in E; [|lia].
  assert ((N | b)) as Hd.
  { apply (Z.gauss N a b); [done|]. by rewrite Z.gcd_comm. }
  apply Z.divide_pos_le in Hd; lia.
Qed.

(** X17.  Both ends derive the same keys: if [pubA] and [pubB] are the
    compressed public keys of the private scalars [a] and [b], both in
    [1, N-1] and coprime to [N], then the peer that holds [a] and sees
    [pubB] and the peer that holds [b] and sees [pubA] get the same
    [sharedSecret] and the same [chainKey]. *)
Theorem peers_share_the_same_secret (a b : Z) (pubA pubB : list byte)
    (addrA addrB : jsstring) (sigA sigB : list byte) (ownA ownB : bool) :
  0 < a < N -> 0 < b < N -> Z.gcd a N = 1 -> Z.gcd b N = 1 ->
  (pa <- getPub multiply a ;; toCompressed pa) = Ok pubA ->
  (pb <- getPub multiply b ;; toCompressed pb) = Ok pubB ->
  exists secret chainKey,
    MessageHeader.sharedSecret multiply sha256
      (MessageHeader.mkPeer addrB pubB sigB ownB a) = Ok secret
    /\ MessageHeader.sharedSecret multiply sha256
         (MessageHeader.mkPeer addrA pubA sigA ownA b) = Ok secret
    /\ MessageHeader.chainKey multiply sha256
         (MessageHeader.mkPeer addrB pubB sigB ownB a) = Ok chainKey
    /\ MessageHeader.chainKey multiply sha256
         (MessageHeader.mkPeer addrA pubA sigA ownA b) = Ok chainKey.
Proof.
  intros Ha Hb Hga Hgb HpubA HpubB.
  destruct (publicKey_point a pubA Ha HpubA) as (qa & A & Hqa & HA & HcA & HfA).
  destruct (publicKey_point b pubB Hb HpubB) as (qb & B & Hqb & HB & HcB & HfB).
  destruct (shared_with a b qa A Ha Hb (product_nonzero a b Hb Hga) Hqa HA HcA)
    as (r & cb & Hr & Hcb & Hsa).
  destruct (shared_with b a qb B Hb Ha (product_nonzero b a Ha Hgb) Hqb HB HcB)
    as (r' & cb' & Hr' & Hcb' & Hsb).
  rewrite (Z.mul_comm b a), Hr in Hr'. injection Hr' as <-.
  rewrite Hcb in Hcb'. injection Hcb' as <-.
  assert (exists ck, bytesToInt (sha256 (sha256 (sha256 cb))) = Ok ck) as [ck Hck].
  { destruct (intToBytes_bytesToInt_helper (sha256 (sha256 (sha256 cb)))) as [x Hx].
    - rewrite sha256_length. lia.
    - by exists x. }
  exists (sha256 (sha256 cb)), ck.
  unfold MessageHeader.chainKey, MessageHeader.sharedSecret.
  cbn [MessageHeader.peerPublicKey MessageHeader.peerPrivateKey].
  rewrite HfA, HfB, !bind_Ok, Hsa, Hsb, !bind_Ok. done.
Qed.
End SharedSecret.
End Chain.

Lemma chain_moves_by_count_witness :
  exists id1 id2,
    fromChainKey stay 2 2 (ArgPoint basePoint) = Ok id1
    /\ next stay id1 2 3 = Ok id2
    /\ fromChainKey stay 2 (2 + 3) (ArgPoint basePoint) = Ok id2
    /\ prev stay id2 2 3 = Ok id1.
Proof.
  apply (chain_moves_by_count stay stay_valid stay_assoc 2 ltac:(lia) ltac:(reflexivity)
           2 3 (ArgPoint basePoint) basePoint); [lia|lia|reflexivity|].
  exact basePoint_valid.
Defined.

Lemma peers_share_the_same_secret_witness :
  exists secret chainKey,
    MessageHeader.sharedSecret stay CurveSamples.constantHash
      (MessageHeader.mkPeer [] CurveSamples.basePointBytes [] false 6) = Ok secret
    /\ MessageHeader.sharedSecret stay CurveSamples.constantHash
         (MessageHeader.mkPeer [] CurveSamples.basePointBytes [] false 7) = Ok secret
    /\ MessageHeader.chainKey stay CurveSamples.constantHash
         (MessageHeader.mkPeer [] CurveSamples.basePointBytes [] false 6) = Ok chainKey
    /\ MessageHeader.chainKey stay CurveSamples.constantHash
         (MessageHeader.mkPeer [] CurveSamples.basePointBytes [] false 7) = Ok chainKey.
Proof.
  apply (peers_share_the_same_secret stay stay_valid stay_assoc
           CurveSamples.constantHash ltac:(reflexivity) 6 7
           CurveSamples.basePointBytes CurveSamples.basePointBytes);
    try reflexivity; split; reflexivity.
Defined.

End ChainProperties.

(** ** [src/models/payload.ts]: the frame and its parser *)

Module PayloadMoreFacts.
Import Payload PayloadSpec PayloadMoreSpec PayloadFacts HexSpec HexFacts.

(** [toBytes] without a bound on the data: the length field holds the
    length modulo 65536. *)
Lemma toBytes_header (p : t) :
  marker p = MARKER -> version p = PROTOCOL_VERSION ->
  length (prefix p) = 4%nat -> 0 <= type p <= 65535 ->
  length (id p) = 33%nat -> length (publicKey p) = 33%nat ->
  length (signature p) = 64%nat ->
  toBytes p = Ok (header p ++ data p).
Proof.
  intros Hm Hv Hp Ht Hi Hk Hs. destruct p as [m v pre ty i pk sg d].
  simpl in *. subst m v.
  explode pre Hp. explode i Hi. explode pk Hk. explode sg Hs.
  unfold toBytes, header, setAt, writeU16, MARKER.
  cbn [marker version prefix type id publicKey signature data length
       Nat.add replicate take drop app Nat.ltb Nat.leb bind list_insert alter
       insert Nat.sub].
  rewrite !length_replicate.
  cbn [marker version prefix type id publicKey signature data length
       Nat.add replicate take drop app Nat.ltb Nat.leb bind list_insert alter
       insert Nat.sub].
  replace (match length d with 0%nat => false | S m' => (length d <=? m')%nat end)
    with false.
  2:{ destruct (length d) as [|n] eqn:E; [done|]. symmetry. apply Nat.leb_gt. lia. }
  rewrite drop_replicate, Nat.sub_diag. cbn [replicate app take].
  rewrite app_nil_r.
  rewrite land_65535 by lia.
  rewrite !(Z.mod_small ty 65536) by lia.
  rewrite !(Z.mod_mod (Z.of_nat (length d)) 65536) by lia.
  reflexivity.
Qed.

Lemma header_length (p : t) :
  marker p = MARKER -> length (prefix p) = 4%nat ->
  length (id p) = 33%nat -> length (publicKey p) = 33%nat ->
  length (signature p) = 64%nat ->
  length (header p) = 143%nat.
Proof.
  intros Hm Hp Hi Hk Hs. unfold header.
  rewrite !length_app, Hm, Hp, Hi, Hk, Hs. done.
Qed.

Lemma header_frame (p : t) :
  Z.of_nat (length (data p)) <= 65535 -> header p ++ data p = frame p.
Proof.
  intros Hd. unfold header, frame.
  rewrite (Z.mod_small (Z.of_nat (length (data p))) 65536) by lia.
  by rewrite <- !app_assoc.
Qed.

(** Slices of a list that follow one another. *)
Lemma take_subarray (l : list byte) (i j : nat) :
  (i <= j)%nat -> take j l = take i l ++ subarray l i j.
Proof.
  intros Hij. unfold subarray.
  replace j with (i + (j - i))%nat at 1 by lia. by rewrite take_take_drop.
Qed.

Lemma subarray_single (l : list byte) (i : nat) :
  (i < length l)%nat -> subarray l i (S i) = [nth i l x00].
Proof.
  intros Hi. unfold subarray. replace (S i - i)%nat with 1%nat by lia.
  revert i Hi. induction l as [|a l IH]; intros i Hi; [simpl in Hi; lia|].
  destruct i as [|i]; [done|]. simpl. apply IH. simpl in Hi. lia.
Qed.

Lemma frame_of_parsed (bytes : list byte) :
  parses bytes ->
  frame (parsed bytes)
  = take (143 + Z.to_nat (readU16 bytes 141)) bytes.
Proof.
  intros (Hlen & Hm & Hv & Hd). unfold HEADER_SIZE in Hlen.
  pose proof (readU16_range bytes 141) as Hr.
  remember (Z.to_nat (readU16 bytes 141)) as n eqn:En.
  assert (length (subarray bytes 143 (143 + n)) = n) as Hn by lia.
  assert (143 + n <= length bytes)%nat as Hfit.
  { unfold subarray in Hn. rewrite length_take, length_drop in Hn. lia. }
  rewrite (take_subarray bytes 143 (143 + n)) by lia.
  rewrite (take_subarray bytes 142 143) by lia.
  rewrite (take_subarray bytes 141 142) by lia.
  rewrite (take_subarray bytes 77 141) by lia.
  rewrite (take_subarray bytes 44 77) by lia.
  rewrite (take_subarray bytes 11 44) by lia.
  rewrite (take_subarray bytes 10 11) by lia.
  rewrite (take_subarray bytes 9 10) by lia.
  rewrite (take_subarray bytes 5 9) by lia.
  rewrite (take_subarray bytes 4 5) by lia.
  rewrite !subarray_single by lia.
  unfold frame, parsed.
  cbn [marker version prefix type id publicKey signature data].
  rewrite <- En, Hn.
  change (take 4 bytes) with (subarray bytes 0 4). rewrite Hm.
  rewrite <- Hv. unfold byteAt at 1. rewrite z2b_b2z.
  unfold readU16, byteAt.
  pose proof (b2z_range (nth 9 bytes x00)).
  pose proof (b2z_range (nth (9 + 1) bytes x00)).
  pose proof (b2z_range (nth 141 bytes x00)).
  pose proof (b2z_range (nth (141 + 1) bytes x00)).
  assert (forall lo hi, 0 <= b2z lo < 256 -> 0 <= b2z hi < 256 ->
            z2b ((b2z lo + 256 * b2z hi) mod 256) = lo
            /\ z2b ((b2z lo + 256 * b2z hi) / 256) = hi) as Hsplit.
  { intros lo hi Hlo Hhi. split.
    - rewrite (Z.mul_comm 256), Z.mod_add by lia.
      rewrite Z.mod_small by lia. apply z2b_b2z.
    - rewrite (Z.mul_comm 256), Z.div_add by lia.
      rewrite Z.div_small by lia. rewrite Z.add_0_l. apply z2b_b2z. }
  destruct (Hsplit (nth 9 bytes x00) (nth (9 + 1) bytes x00)) as [-> ->]; [done|done|].
  assert (Z.of_nat n = readU16 bytes 141) as -> by lia.
  unfold readU16, byteAt.
  destruct (Hsplit (nth 141 bytes x00) (nth (141 + 1) bytes x00)) as [-> ->]; [done|done|].
  rewrite <- !app_assoc. reflexivity.
Qed.

Lemma toHex_fromHex (p : t) (bytes : list byte) :
  toBytes p = Ok bytes ->
  toHex p = Ok (Utils.bytesToHex bytes)
  /\ fromHex (Utils.bytesToHex bytes) = fromBytes bytes.
Proof.
  intros E. unfold toHex, fromHex. rewrite E, bind_Ok.
  split; [done|]. by rewrite hexToBytes_bytesToHex, bind_Ok.
Qed.

End PayloadMoreFacts.

Module PayloadProperties.
Import Payload PayloadSpec PayloadMoreSpec PayloadFacts PayloadMoreFacts HexSpec HexFacts.

(** X18.  Every payload that [Payload.fromBytes] returns has the marker
    [KSPK] and version 1, a prefix of 4 bytes, a type in 0..65535, an id
    and a public key of 33 bytes, a signature of 64 bytes and at most
    65535 bytes of data, all of which lie within the input. *)
Theorem parsed_payload_invariants (bytes : list byte) (p : t) :
  fromBytes bytes = Ok p ->
  marker p = MARKER /\ version p = PROTOCOL_VERSION
  /\ length (prefix p) = 4%nat /\ 0 <= type p <= 65535
  /\ length (id p) = 33%nat /\ length (publicKey p) = 33%nat
  /\ length (signature p) = 64%nat
  /\ Z.of_nat (length (data p)) <= 65535
  /\ (143 + length (data p) <= length bytes)%nat.
Proof.
  intros Hp. destruct (fromBytes_wf bytes p Hp) as [Hm Hv Hpre Ht Hi Hk Hs Hd].
  split_and!; try done; try lia.
  destruct (fromBytes_inv bytes p Hp) as [(Hlen & _ & _ & Hn) ->].
  cbn [parsed data]. unfold subarray in *.
  rewrite length_take, length_drop in *. unfold HEADER_SIZE in *. lia.
Qed.

Lemma parsed_payload_invariants_witness :
  marker samplePayload = MARKER /\ version samplePayload = PROTOCOL_VERSION
  /\ length (prefix samplePayload) = 4%nat /\ 0 <= type samplePayload <= 65535
  /\ length (id samplePayload) = 33%nat /\ length (publicKey samplePayload) = 33%nat
  /\ length (signature samplePayload) = 64%nat
  /\ Z.of_nat (length (data samplePayload)) <= 65535
  /\ (143 + length (data samplePayload) <= length (frame samplePayload))%nat.
Proof.
  apply (parsed_payload_invariants (frame samplePayload) samplePayload).
  vm_compute. reflexivity.
Defined.

(** X19.  Serialising a parsed payload gives the input back, up to the end
    of the data: if [Payload.fromBytes(bytes)] returns [p], then
    [p.toBytes()] is the first [143 + p.data.length] bytes of [bytes]. *)
Theorem toBytes_of_parsed (bytes : list byte) (p : t) :
  fromBytes bytes = Ok p ->
  toBytes p = Ok (take (143 + length (data p)) bytes).
Proof.
  intros Hp. pose proof (fromBytes_wf bytes p Hp) as Hwf.
  destruct (fromBytes_inv bytes p Hp) as [Hok ->].
  rewrite (toBytes_frame _ Hwf), (frame_of_parsed _ Hok). do 2 f_equal.
  destruct Hok as (_ & _ & _ & Hn). cbn [parsed data]. lia.
Qed.

Lemma toBytes_of_parsed_witness :
  toBytes samplePayload
  = Ok (take (143 + length (data samplePayload)) (frame samplePayload ++ [xff])).
Proof.
  apply (toBytes_of_parsed (frame samplePayload ++ [xff]) samplePayload).
  vm_compute. reflexivity.
Defined.

(** X20.  Data of any length: for a prefix of 4 bytes, a type in 0..65535
    and an identifier and a public key of 33 bytes, the constructor and
    [toBytes] succeed whatever the length [L] of the data, the frame has
    [143 + L] bytes, and parsing it gives the payload with its data cut to
    the first [L mod 65536] bytes. *)
Theorem long_data_is_cut (prefix_ : list byte) (type_ : Z)
    (identifier : Identifier.t) (publicKey_ data_ : list byte) :
  length prefix_ = 4%nat -> 0 <= type_ <= 65535 ->
  length (Identifier.bytes identifier) = 33%nat ->
  length publicKey_ = 33%nat ->
  exists p bytes,
    new prefix_ type_ identifier publicKey_ data_ = Ok p
    /\ toBytes p = Ok bytes
    /\ length bytes = (143 + length data_)%nat
    /\ fromBytes bytes
       = Ok (withData p (take (Z.to_nat (Z.of_nat (length data_) mod 65536)) data_)).
Proof.
  intros Hp Ht Hi Hk.
  set (p := mk MARKER PROTOCOL_VERSION prefix_ type_ (Identifier.bytes identifier)
               publicKey_ (replicate 64 x00) data_).
  assert (new prefix_ type_ identifier publicKey_ data_ = Ok p) as Hnew.
  { unfold new, toUint32. rewrite Z.mod_small by lia.
    replace (65535 <? type_) with false by (symmetry; apply Z.ltb_ge; lia).
    by rewrite Hk. }
  exists p, (header p ++ data_). split; [done|].
  assert (toBytes p = Ok (header p ++ data_)) as Hto.
  { apply (toBytes_header p); done. }
  split; [done|]. split.
  { rewrite length_app, header_length; done. }
  pose proof (Z.mod_pos_bound (Z.of_nat (length data_)) 65536 ltac:(lia)) as Hm.
  pose proof (Z.mod_le (Z.of_nat (length data_)) 65536 ltac:(lia) ltac:(lia)) as Hle.
  set (m := Z.to_nat (Z.of_nat (length data_) mod 65536)) in *.
  assert (length (take m data_) = m) as Hlen by (rewrite length_take; lia).
  assert (wf (withData p (take m data_))) as Hwf.
  { split; cbn; try done; lia. }
  rewrite <- (take_drop m data_) at 1. rewrite app_assoc.
  replace (header p ++ take m data_) with (frame (withData p (take m data_))).
  { by apply fromBytes_frame. }
  rewrite <- header_frame by (cbn; lia). unfold header. cbn.
  rewrite Hlen. replace (Z.of_nat m) with (Z.of_nat (length data_) mod 65536) by lia.
  by rewrite Z.mod_mod by lia.
Qed.

Lemma long_data_is_cut_witness :
  exists p bytes,
    new [x54; x45; x53; x54] 1 sampleIdentifier samplePublicKey
        (replicate (Z.to_nat 65537) xaa) = Ok p
    /\ toBytes p = Ok bytes
    /\ length bytes = (143 + length (replicate (Z.to_nat 65537) xaa))%nat
    /\ fromBytes bytes
       = Ok (withData p
               (take (Z.to_nat
                        (Z.of_nat (length (replicate (Z.to_nat 65537) xaa)) mod 65536))
                     (replicate (Z.to_nat 65537) xaa))).
Proof.
  apply (long_data_is_cut [x54; x45; x53; x54] 1 sampleIdentifier samplePublicKey
           (replicate (Z.to_nat 65537) xaa)); (reflexivity || lia).
Defined.

End PayloadProperties.

(** ** [src/utils/limited-hash-set.ts], [src/sdk/message-registry.ts],
       [src/sdk/event-bus.ts] *)

Module ContainerFacts.
Import ContainerSpec.

Section BoundedSet.
Context {T : Type} `{Countable T}.
Import LimitedHashSet.

Lemma new_inv (c : Z) (s : t T) : new c = Ok s -> setInv s /\ capacity s = c /\ queue s = [].
Proof.
  unfold new. destruct (Z.ltb_spec c 1); [done|]. intros [= <-].
  split; [|done]. split_and!; cbn; [constructor|done|lia|lia].
Qed.

Lemma tryAdd_inv (v : T) (s : t T) :
  setInv s ->
  setInv (tryAdd v s).2 /\ v ∈ set (tryAdd v s).2
  /\ capacity (tryAdd v s).2 = capacity s
  /\ (forall x, x ∈ queue (tryAdd v s).2 -> x ∈ queue s \/ x = v).
Proof.
  intros (Hnd & Hset & Hlen & Hcap). unfold tryAdd.
  destruct (decide (v ∈ set s)) as [Hin|Hnin]; cbn [snd].
  { split_and!; try done. intros x Hx. by left. }
  assert (v ∉ queue s) as Hvq by (rewrite Hset in Hnin; set_solver).
  destruct (Z.eqb_spec (Z.of_nat (length (queue s))) (capacity s)) as [E|E].
  - unfold evict. destruct s as [[|o q] st c]; cbn in *; [lia|].
    apply NoDup_cons in Hnd as [Ho Hq].
    split_and!; cbn; try done; try lia.
    + split_and!; cbn.
      * apply NoDup_app. split_and!; [done| |apply NoDup_singleton].
        intros x Hx ->%list_elem_of_singleton. apply Hvq. by right.
      * subst st. rewrite list_to_set_app_L. cbn. set_solver.
      * rewrite length_app. cbn. lia.
      * lia.
    + set_solver.
    + intros x [Hx| ->%list_elem_of_singleton]%elem_of_app; [left; by right|by right].
  - split_and!; cbn; try done; try lia.
    + split_and!; cbn.
      * apply NoDup_app. split_and!; [done| |apply NoDup_singleton].
        intros x Hx ->%list_elem_of_singleton. done.
      * rewrite Hset, list_to_set_app_L. cbn. set_solver.
      * rewrite length_app. cbn. lia.
      * lia.
    + set_solver.
    + intros x [Hx| ->%list_elem_of_singleton]%elem_of_app; [by left|by right].
Qed.

Lemma addAll_inv (l : list T) (s : t T) :
  setInv s ->
  setInv (addAll l s) /\ capacity (addAll l s) = capacity s
  /\ (forall x, x ∈ queue (addAll l s) -> x ∈ queue s \/ x ∈ l)
  /\ (forall pre v, l = pre ++ [v] -> v ∈ set (addAll l s)).
Proof.
  induction l as [|v l IH] using rev_ind; intros Hs.
  - split_and!; try done.
    + intros x Hx. by left.
    + intros pre v E. by destruct pre.
  - destruct (IH Hs) as (Hi & Hc & Hq & _).
    rewrite LimitedHashSetFacts.addAll_snoc.
    destruct (tryAdd_inv v (addAll l s) Hi) as (Hi' & Hv & Hc' & Hq').
    split_and!; try done; try congruence.
    + intros x Hx. destruct (Hq' x Hx) as [Hx'| ->].
      * destruct (Hq x Hx'); [by left|right; set_solver].
      * right. set_solver.
    + intros pre v' E. apply app_inj_tail in E as [_ <-]. done.
Qed.

Lemma tryAdd_keeps (v w : T) (s : t T) (pre post : list T) :
  setInv s -> queue s = pre ++ v :: post ->
  Z.of_nat (length post) + 1 < capacity s ->
  exists pre' post',
    queue (tryAdd w s).2 = pre' ++ v :: post'
    /\ (length post' <= length post + 1)%nat.
Proof.
  intros (Hnd & Hset & Hlen & Hcap) Hq Hpost. unfold tryAdd.
  destruct (decide (w ∈ set s)) as [Hin|Hnin]; cbn [snd].
  { exists pre, post. split; [done|lia]. }
  destruct (Z.eqb_spec (Z.of_nat (length (queue s))) (capacity s)) as [E|E].
  - unfold evict. rewrite Hq. rewrite Hq, length_app in E. cbn [length] in E.
    destruct pre as [|o pre]; [cbn [length] in E; lia|].
    cbn [queue app]. exists pre, (post ++ [w]).
    rewrite length_app. cbn [length]. split; [|lia].
    by rewrite <- app_assoc.
  - cbn [queue]. exists pre, (post ++ [w]).
    rewrite length_app. cbn [length]. split; [|lia].
    by rewrite Hq, <- app_assoc.
Qed.

Lemma addAll_keeps (v : T) (l : list T) :
  forall (s : t T) (pre post : list T),
    setInv s -> queue s = pre ++ v :: post ->
    Z.of_nat (length post) + Z.of_nat (length l) < capacity s ->
    exists pre' post', queue (addAll l s) = pre' ++ v :: post'.
Proof.
  induction l as [|w l IH]; intros s pre post Hs Hq Hlen.
  - by exists pre, post.
  - cbn [length] in Hlen.
    destruct (tryAdd_keeps v w s pre post Hs Hq) as (pre' & post' & Hq' & Hl'); [lia|].
    destruct (tryAdd_inv w s Hs) as (Hs' & _ & Hc' & _).
    change (addAll (w :: l) s) with (addAll l (tryAdd w s).2).
    apply (IH _ pre' post' Hs' Hq'). lia.
Qed.

Lemma tryAdd_fresh_queue (v : T) (s : t T) :
  (tryAdd v s).1 = true -> exists pre, queue (tryAdd v s).2 = pre ++ [v].
Proof.
  unfold tryAdd. destruct (decide (v ∈ set s)); [done|]. intros _. cbn [snd queue].
  by eexists.
Qed.
End BoundedSet.

Section Bus.
Context {K F : Type} `{Countable K} `{EqDecision F}.
Import EventBus.

Lemma emit_onFn (e : K) (fn : Listener F) (bus : t K F) :
  emit e (onFn e fn bus) = emit e bus ++ [fn].
Proof.
  unfold emit, onFn. cbn [listeners]. rewrite lookup_insert_eq.
  by destruct (listeners bus !! e).
Qed.

Lemma emit_offFn (e : K) (fn : Listener F) (bus : t K F) :
  emit e (offFn e fn bus) = filter (fun g => g ≠ fn) (emit e bus).
Proof.
  unfold emit, offFn. destruct (listeners bus !! e) as [arr|] eqn:E.
  - cbn [listeners]. by rewrite lookup_insert_eq.
  - by rewrite E.
Qed.

Lemma emit_onFn_ne (e e' : K) (fn : Listener F) (bus : t K F) :
  e ≠ e' -> emit e' (onFn e fn bus) = emit e' bus.
Proof.
  intros Hne. unfold emit, onFn. cbn [listeners]. by rewrite lookup_insert_ne.
Qed.

Lemma emit_offFn_ne (e e' : K) (fn : Listener F) (bus : t K F) :
  e ≠ e' -> emit e' (offFn e fn bus) = emit e' bus.
Proof.
  intros Hne. unfold emit, offFn. destruct (listeners bus !! e) as [arr|] eqn:E.
  - cbn [listeners]. by rewrite lookup_insert_ne.
  - done.
Qed.

Lemma emit_bump (e : K) (bus : t K F) (n : nat) :
  emit e (mk (listeners bus) n) = emit e bus.
Proof. done. Qed.

Lemma filter_fresh (w : Listener F) (arr : list (Listener F)) :
  w ∉ arr -> filter (fun g => g ≠ w) arr = arr.
Proof.
  intros Hw. induction arr as [|a arr IH]; [done|].
  rewrite filter_cons_True by (intros ->; apply Hw; by left).
  f_equal. apply IH. intros Hin. apply Hw. by right.
Qed.

(** Every bus that [on], [off] and [once] build keeps its wrappers older
    than the next one. *)
Lemma busInv_new : busInv (new : t K F).
Proof.
  intros e arr n f Harr. unfold new in Harr. cbn [listeners] in Harr.
  by rewrite lookup_empty in Harr.
Qed.

Lemma busInv_onFn (e : K) (fn : Listener F) (bus : t K F) (c : nat) :
  busInv bus -> (created bus <= c)%nat ->
  match fn with User _ => True | OnceWrapper n _ => (n < c)%nat end ->
  busInv (onFn e fn (mk (listeners bus) c)).
Proof.
  intros Hinv Hc Hfn e' arr n f Harr Hin. unfold onFn in Harr |- *.
  cbn [listeners created] in *.
  destruct (decide (e = e')) as [<-|Hne].
  - rewrite lookup_insert_eq in Harr. injection Harr as <-.
    apply elem_of_app in Hin as [Hin|Hin].
    + destruct (listeners bus !! e) as [arr0|] eqn:E; [|by apply elem_of_nil in Hin].
      specialize (Hinv e arr0 n f E Hin). lia.
    + apply list_elem_of_singleton in Hin. by subst fn.
  - rewrite lookup_insert_ne in Harr by done.
    specialize (Hinv e' arr n f Harr Hin). lia.
Qed.

Lemma busInv_on (e : K) (g : F) (bus : t K F) : busInv bus -> busInv (on e g bus).
Proof.
  intros Hinv. destruct bus as [ls c].
  by apply (busInv_onFn e (User g) (mk ls c) c).
Qed.

Lemma busInv_once (e : K) (g : F) (bus : t K F) : busInv bus -> busInv (once e g bus).
Proof.
  intros Hinv. unfold once.
  apply (busInv_onFn e (OnceWrapper (created bus) g) bus (S (created bus))); [done|lia|lia].
Qed.

Lemma busInv_offFn (e : K) (fn : Listener F) (bus : t K F) :
  busInv bus -> busInv (offFn e fn bus).
Proof.
  intros Hinv e' arr n f Harr Hin. unfold offFn in Harr |- *.
  destruct (listeners bus !! e) as [arr0|] eqn:E; [|by apply (Hinv e' arr n f)].
  cbn [listeners created] in *.
  destruct (decide (e = e')) as [<-|Hne].
  - rewrite lookup_insert_eq in Harr. injection Harr as <-.
    apply list_elem_of_filter in Hin as [_ Hin]. by apply (Hinv e arr0 n f).
  - rewrite lookup_insert_ne in Harr by done. by apply (Hinv e' arr n f).
Qed.

Lemma runAll_calls (e : K) (q : list (Listener F)) (bus : t K F) :
  (runAll e q bus).2 = called <$> q.
Proof.
  unfold runAll.
  assert (forall b calls,
            (foldl (fun acc fn => let '(b, calls) := acc in
                                  let '(b', f0) := run e fn b in (b', calls ++ [f0]))
                   (b, calls) q).2
            = calls ++ (called <$> q)) as Hgen.
  { induction q as [|g q IH]; intros b calls; [by rewrite app_nil_r|].
    cbn [foldl fmap list_fmap]. destruct g as [h|n h]; cbn [run];
      rewrite IH, <- app_assoc; done. }
  apply Hgen.
Qed.
End Bus.

End ContainerFacts.

Module ContainerProperties.
Import ContainerSpec ContainerFacts.

Section BoundedSet.
Context {T : Type} `{Countable T}.
Import LimitedHashSet.

(** X21.  The bounded set under any stream of [tryAdd], repeats
    included: a set created with capacity [c] never holds more than [c]
    elements, its queue has no duplicates and holds only elements of the
    stream, [has] answers membership in the queue, and the element added
    last is present. *)
Theorem bounded_set_invariants (c : Z) (s0 : t T) (l : list T) :
  new c = Ok s0 ->
  let s := addAll l s0 in
  0 <= size s <= c /\ NoDup (queue s)
  /\ (forall v, has v s = true <-> v ∈ queue s)
  /\ (forall v, v ∈ queue s -> v ∈ l)
  /\ (forall pre v, l = pre ++ [v] -> has v s = true).
Proof.
  intros Hnew. destruct (new_inv c s0 Hnew) as (Hi & Hc & Hq0).
  destruct (addAll_inv l s0 Hi) as ((Hnd & Hset & Hlen & Hcap) & Hc' & Hq & Hlast).
  cbv zeta. unfold size, has. split_and!.
  - lia.
  - lia.
  - done.
  - intros v. rewrite bool_decide_eq_true, Hset. set_solver.
  - intros v Hv. destruct (Hq v Hv) as [Hv'|]; [|done].
    rewrite Hq0 in Hv'. by apply elem_of_nil in Hv'.
  - intros pre v E. rewrite bool_decide_eq_true. by apply (Hlast pre v).
Qed.

(** X22.  An element that [tryAdd] has just added is remembered while
    fewer calls of [tryAdd] than the capacity follow, whatever they add:
    [has] answers true and adding it again is refused. *)
Theorem fresh_element_is_retained (c : Z) (s0 : t T) (l0 l : list T) (v : T) :
  new c = Ok s0 ->
  (tryAdd v (addAll l0 s0)).1 = true ->
  Z.of_nat (length l) < c ->
  let s := addAll l (tryAdd v (addAll l0 s0)).2 in
  has v s = true /\ tryAdd v s = (false, s).
Proof.
  intros Hnew Hfresh Hlen. cbv zeta.
  destruct (new_inv c s0 Hnew) as (Hi & Hc & _).
  destruct (addAll_inv l0 s0 Hi) as (Hi0 & Hc0 & _).
  destruct (tryAdd_inv v (addAll l0 s0) Hi0) as (Hi1 & _ & Hc1 & _).
  destruct (tryAdd_fresh_queue v _ Hfresh) as (pre & Hq).
  destruct (addAll_keeps v l _ pre [] Hi1 Hq) as (pre' & post' & Hq').
  { cbn [length]. lia. }
  destruct (addAll_inv l _ Hi1) as ((_ & Hset & _) & _).
  assert (v ∈ set (addAll l (tryAdd v (addAll l0 s0)).2)) as Hin.
  { rewrite Hset, Hq'. set_solver. }
  split.
  - unfold has. by rewrite bool_decide_eq_true.
  - by apply LimitedHashSetFacts.tryAdd_present.
Qed.
End BoundedSet.

Lemma fresh_element_is_retained_witness :
  let s := LimitedHashSet.addAll [4; 5]
             (LimitedHashSet.tryAdd 3
                (LimitedHashSet.addAll [1; 2] (LimitedHashSet.mk [] ∅ 3))).2 in
  LimitedHashSet.has (3 : Z) s = true /\ LimitedHashSet.tryAdd 3 s = (false, s).
Proof.
  apply (fresh_element_is_retained 3 (LimitedHashSet.mk [] ∅ 3) [1; 2] [4; 5] 3).
  - reflexivity.
  - vm_compute. reflexivity.
  - cbn. lia.
Defined.

Lemma bounded_set_invariants_witness :
  let s := LimitedHashSet.addAll [1; 2; 1; 3; 4] (LimitedHashSet.mk [] ∅ 2) in
  0 <= LimitedHashSet.size s <= 2 /\ NoDup (LimitedHashSet.queue s)
  /\ (forall v : Z, LimitedHashSet.has v s = true <-> v ∈ LimitedHashSet.queue s)
  /\ (forall v : Z, v ∈ LimitedHashSet.queue s -> v ∈ [1; 2; 1; 3; 4])
  /\ (forall pre (v : Z), [1; 2; 1; 3; 4] = pre ++ [v] ->
        LimitedHashSet.has v s = true).
Proof.
  apply (bounded_set_invariants 2 (LimitedHashSet.mk [] ∅ 2) [1; 2; 1; 3; 4]).
  reflexivity.
Defined.

Section Registry.
Context {Fields Obj Worker : Type}.
Import MessageRegistry Kaspeak.

(** X23.  [registerMessage] throws for a message type outside 0..65535
    and otherwise registers the class: [getCtor], [getWorker] and [create]
    then answer with the class and the worker just given, which replace
    what was registered for that type, and what they answer for every
    other type is as before. *)
Theorem registerMessage_then_lookup (s : Kaspeak.t Fields Obj Worker)
    (message : MessageClass Fields Obj) (worker : option Worker) :
  if (0 <=? messageType message) && (messageType message <=? 65535)
  then exists s',
         registerMessage s message worker = Ok s'
         /\ getCtor (messageType message) (messageRegistry s') = Some message
         /\ getWorker (messageType message) (messageRegistry s') = Ok worker
         /\ MessageRegistry.create (messageType message) (messageRegistry s')
            = Ok (mkInstance message None (construct message))
         /\ forall key, key <> messageType message ->
              getCtor key (messageRegistry s') = getCtor key (messageRegistry s)
              /\ getWorker key (messageRegistry s') = getWorker key (messageRegistry s)
              /\ MessageRegistry.create key (messageRegistry s') = MessageRegistry.create key (messageRegistry s)
  else exists msg, registerMessage s message worker = Err (Error msg).
Proof.
  unfold registerMessage.
  destruct (Z.leb_spec 0 (messageType message)) as [H0|H0];
    destruct (Z.leb_spec (messageType message) 65535) as [H1|H1]; cbn [andb].
  - replace (messageType message <? 0) with false by (symmetry; apply Z.ltb_ge; lia).
    replace (65535 <? messageType message) with false by (symmetry; apply Z.ltb_ge; lia).
    cbn [orb]. eexists. split; [done|].
    unfold getCtor, getWorker, MessageRegistry.create, register. cbn [messageRegistry withRegistry].
    rewrite !lookup_insert_eq. split_and!; try done.
    intros key Hne. by rewrite !lookup_insert_ne.
  - replace (65535 <? messageType message) with true by (symmetry; apply Z.ltb_lt; lia).
    rewrite orb_true_r. by eexists.
  - replace (messageType message <? 0) with true by (symmetry; apply Z.ltb_lt; lia).
    by eexists.
  - replace (messageType message <? 0) with true by (symmetry; apply Z.ltb_lt; lia).
    by eexists.
Qed.
End Registry.

Section Bus.
Context {K F : Type} `{Countable K} `{EqDecision F}.
Import EventBus.

(** X24.  A listener registered with [once] is wrapped in a closure that
    [emit] queues like any other.  [off] with the listener itself does
    not remove it, the closure being what is registered.  When its
    microtask runs, the wrapper leaves the bus, which then holds the
    listeners it held before, and the listener is called.  But the wrapper
    leaves only then: if the event is emitted twice before the microtasks
    run, the listener is called twice. *)
Theorem once_runs_until_delivered (bus : EventBus.t K F) (e : K) (f : F) :
  busInv bus ->
  let w := OnceWrapper (created bus) f in
  let bus1 := once e f bus in
  emit e bus1 = emit e bus ++ [w]
  /\ emit e (off e f bus1) = filter (fun g => g ≠ User f) (emit e bus) ++ [w]
  /\ run e w bus1 = (offFn e w bus1, f)
  /\ emit e (offFn e w bus1) = emit e bus
  /\ (runAll e (emit e bus1 ++ emit e bus1) bus1).2
     = (called <$> emit e bus) ++ [f] ++ (called <$> emit e bus) ++ [f].
Proof.
  intros Hinv. cbv zeta. unfold once, off.
  assert (OnceWrapper (created bus) f ∉ emit e bus) as Hfresh.
  { unfold emit. destruct (listeners bus !! e) as [arr|] eqn:E; [|apply not_elem_of_nil].
    intros Hin. specialize (Hinv e arr _ f E Hin). lia. }
  split_and!.
  - by rewrite emit_onFn, emit_bump.
  - rewrite emit_offFn, emit_onFn, emit_bump, filter_app.
    by rewrite (filter_cons_True _ (OnceWrapper (created bus) f)).
  - done.
  - rewrite emit_offFn, emit_onFn, emit_bump, filter_app, filter_fresh by done.
    rewrite (filter_cons_False _ (OnceWrapper (created bus) f)) by (intros Hn; by apply Hn).
    cbn [filter list_filter]. by rewrite app_nil_r.
  - rewrite runAll_calls, emit_onFn, emit_bump, !fmap_app. cbn [fmap list_fmap called].
    by rewrite <- !app_assoc.
Qed.
End Bus.

Lemma once_runs_until_delivered_witness :
  let bus : EventBus.t Z Z := EventBus.on 1 7 EventBus.new in
  let w := EventBus.OnceWrapper (EventBus.created bus) 8 in
  let bus1 := EventBus.once 1 8 bus in
  EventBus.emit 1 bus1 = EventBus.emit 1 bus ++ [w]
  /\ EventBus.emit 1 (EventBus.off 1 8 bus1)
     = filter (fun g => g ≠ EventBus.User 8) (EventBus.emit 1 bus) ++ [w]
  /\ EventBus.run 1 w bus1 = (EventBus.offFn 1 w bus1, 8)
  /\ EventBus.emit 1 (EventBus.offFn 1 w bus1) = EventBus.emit 1 bus
  /\ (EventBus.runAll 1 (EventBus.emit 1 bus1 ++ EventBus.emit 1 bus1) bus1).2
     = (called <$> EventBus.emit 1 bus) ++ [8] ++ (called <$> EventBus.emit 1 bus) ++ [8].
Proof.
  apply (once_runs_until_delivered (EventBus.on 1 7 EventBus.new) 1 8).
  apply busInv_on, busInv_new.
Defined.

End ContainerProperties.

(** ** [src/sdk/kaspeak.ts]: the transactions of a block *)

Module IngestFacts.
Import Kaspeak IngestSpec ContainerSpec.

(** *** [getOutpointIds] *)


Lemma insertByIndex_perm (x : Input) (l : list Input) :
  insertByIndex x l ≡ₚ x :: l.
Proof.
  induction l as [|y l IH]; [done|]. cbn [insertByIndex].
  destruct (index x - index y <? 0); [done|].
  rewrite IH. apply Permutation_swap.
Qed.

Lemma sortByIndex_snoc (l : list Input) (x : Input) :
  sortByIndex (l ++ [x]) = insertByIndex x (sortByIndex l).
Proof. unfold sortByIndex. by rewrite foldl_app. Qed.

Lemma sortByIndex_perm (l : list Input) : sortByIndex l ≡ₚ l.
Proof.
  induction l as [|x l IH] using rev_ind; [done|].
  rewrite sortByIndex_snoc, insertByIndex_perm, IH.
  by rewrite Permutation_app_comm.
Qed.

Lemma insertByIndex_sorted (x : Input) (l : list Input) :
  StronglySorted (fun a b => index a <= index b) l ->
  StronglySorted (fun a b => index a <= index b) (insertByIndex x l).
Proof.
  induction 1 as [|y l Hl IH Hy]; cbn [insertByIndex].
  - repeat constructor.
  - destruct (Z.ltb_spec (index x - index y) 0) as [Hlt|Hge].
    + constructor; [by constructor|]. constructor; [lia|].
      eapply Forall_impl; [exact Hy|]. intros z Hz. cbn in *. lia.
    + constructor; [done|].
      rewrite insertByIndex_perm. constructor; [lia|done].
Qed.

Lemma sortByIndex_sorted (l : list Input) :
  StronglySorted (fun a b => index a <= index b) (sortByIndex l).
Proof.
  induction l as [|x l IH] using rev_ind; [constructor|].
  rewrite sortByIndex_snoc. by apply insertByIndex_sorted.
Qed.

Lemma sorted_strict (l : list Input) :
  NoDup (index <$> l) ->
  StronglySorted (fun a b => index a <= index b) l ->
  StronglySorted (fun a b => index a < index b) l.
Proof.
  induction 2 as [|y l Hl IH Hy]; [constructor|].
  cbn in H. apply NoDup_cons in H as [Hnin Hnd].
  constructor; [by apply IH|].
  apply Forall_forall. intros z Hz.
  rewrite Forall_forall in Hy. specialize (Hy z Hz).
  assert (index z <> index y); [|lia].
  intros E. apply Hnin. rewrite <- E. by apply list_elem_of_fmap_2.
Qed.

Lemma ltIndex_trans : Transitive (fun a b : Input => index a < index b).
Proof. intros a b c ? ?. lia. Qed.

Lemma ltIndex_antisymm : AntiSymm (=) (fun a b : Input => index a < index b).
Proof. intros a b ? ?. lia. Qed.

Lemma sorted_by_index_unique (l1 l2 : list Input) :
  StronglySorted (fun a b => index a < index b) l1 ->
  StronglySorted (fun a b => index a < index b) l2 ->
  l1 ≡ₚ l2 -> l1 = l2.
Proof.
  pose proof ltIndex_trans. pose proof ltIndex_antisymm.
  apply StronglySorted_unique; assumption.
Qed.

(** *** [processTransactions] *)

Lemma tryAdd_member (v : jsstring) (k : LimitedHashSet.t jsstring) :
  v ∈ LimitedHashSet.set (LimitedHashSet.tryAdd v k).2.
Proof.
  unfold LimitedHashSet.tryAdd. destruct (decide _); [done|].
  cbn [snd LimitedHashSet.set]. set_solver.
Qed.

Section Ledger.
Context {Fields Obj Worker : Type}.
Variable PublicKey_toAddress : jsstring -> result jsstring.
Variable verifyMessage : jsstring -> jsstring -> jsstring -> result bool.

Local Abbreviation session := (Kaspeak.t Fields Obj Worker).
Local Abbreviation pT := (processTransaction PublicKey_toAddress verifyMessage).
Local Abbreviation pTs := (processTransactions PublicKey_toAddress verifyMessage).
Local Abbreviation just := (justified PublicKey_toAddress verifyMessage).

(** One transaction: the settings stay, the bounded set takes the id
    where one is offered, and the three logs grow by what the transaction
    gives: at most one event, and a worker only with an event. *)
Lemma pT_shape (m : MessageHeader.BlockMeta) (s : session) (tx : ITransaction) :
  exists ev sch lg,
    pT m s tx
    = mk (privateKey s) (publicKey s) (publicKeyHex s) (address s)
         (prefixString s)
         (match attempted tx with
          | Some txid => (LimitedHashSet.tryAdd txid (knownTxIds s)).2
          | None => knownTxIds s
          end)
         (messageRegistry s) (prefixFilterEnabled s)
         (signatureVerificationEnabled s)
         (emitted s ++ ev) (scheduled s ++ sch) (errorLog s ++ lg)
    /\ (ev = [] /\ sch = []
        \/ exists h d txid,
             ev = [(h, d)] /\ just s m tx h d
             /\ attempted tx = Some txid
             /\ (LimitedHashSet.tryAdd txid (knownTxIds s)).1 = true
             /\ (sch = []
                 \/ exists w, sch = [(w, h, d)]
                      /\ MessageHeader.prefix h = prefixString s
                      /\ MessageRegistry.getWorker (MessageHeader.type h) (messageRegistry s)
                         = Ok (Some w))).
Proof.
  destruct s as [pk pub pubh addr pre known reg pfe sve em sc el].
  unfold processTransaction, attempted. cbn [payload].
  destruct (Z.odd _).
  { exists [], [], []. rewrite !app_nil_r. split; [reflexivity|left; split; reflexivity]. }
  destruct (_ <? Payload.HEADER_SIZE).
  { exists [], [], []. rewrite !app_nil_r. split; [reflexivity|left; split; reflexivity]. }
  destruct (negb (startsWith _ _)).
  { exists [], [], []. rewrite !app_nil_r. split; [reflexivity|left; split; reflexivity]. }
  destruct (verboseData tx) as [txid|] eqn:Ev.
  2:{ exists [], [], [message (Error "verboseData is undefined in tx")].
      rewrite !app_nil_r. split; [reflexivity|left; split; reflexivity]. }
  cbn [knownTxIds].
  destruct (LimitedHashSet.tryAdd txid known) as [added known'] eqn:Ea.
  destruct added; cbn [negb snd fst].
  2:{ exists [], [], []. rewrite !app_nil_r. split; [|left; split; reflexivity].
      unfold LimitedHashSet.tryAdd in Ea.
      destruct (decide _); by simplify_eq. }
  unfold withKnown, logError, emit, callWorker, schedule, logError.
  cbn [privateKey publicKey publicKeyHex address prefixString knownTxIds
       messageRegistry prefixFilterEnabled signatureVerificationEnabled
       emitted scheduled errorLog].
  destruct (Payload.fromHex (payload tx)) as [p|e] eqn:Ep.
  2:{ exists [], [], [message e]. rewrite !app_nil_r. split; [reflexivity|left; split; reflexivity]. }
  destruct (pfe && negb (bool_decide (Payload.getPrefix p = pre))) eqn:Ef.
  { exists [], [], []. rewrite !app_nil_r. split; [reflexivity|left; split; reflexivity]. }
  destruct (if sve then _ else _) as [[|]|e] eqn:Es.
  3:{ exists [], [], [message e]. rewrite !app_nil_r. split; [reflexivity|left; split; reflexivity]. }
  2:{ exists [], [], []. rewrite !app_nil_r. split; [reflexivity|left; split; reflexivity]. }
  destruct (createMessageHeaderFromTransaction _ _ _ _ _ _ _) as [h|e] eqn:Eh.
  2:{ exists [], [], [message e]. rewrite !app_nil_r. split; [reflexivity|left; split; reflexivity]. }
  assert (just (mk pk pub pubh addr pre known reg pfe sve em sc el) m tx h
               (Payload.data p)) as Hj.
  { exists txid, p. cbn [prefixFilterEnabled signatureVerificationEnabled
                          prefixString].
    split_and!; try done.
    - intros ->. cbn [andb] in Ef. apply negb_false_iff in Ef.
      by apply bool_decide_eq_true in Ef.
    - intros ->. done. }
  cbn [prefixString messageRegistry].
  destruct (bool_decide (Payload.getPrefix p = pre)) eqn:Epre.
  2:{ exists [(h, Payload.data p)], [], []. rewrite !app_nil_r. split; [done|].
      right. exists h, (Payload.data p), txid.
      split_and!; try done; [by rewrite Ea|]. by left. }
  apply bool_decide_eq_true in Epre.
  destruct (MessageRegistry.getWorker (MessageHeader.type h) reg) as [[w|]|e] eqn:Ew.
  - exists [(h, Payload.data p)], [(w, h, Payload.data p)], [].
    rewrite !app_nil_r. split; [done|].
    right. exists h, (Payload.data p), txid.
    split_and!; try done; [by rewrite Ea|].
    right. exists w. split_and!; try done.
    unfold createMessageHeaderFromTransaction, MessageHeader.fromTransaction in Eh.
    destruct (PublicKey_toAddress _); [|done]. rewrite bind_Ok in Eh.
    destruct (Identifier.fromBytes _); [|done]. rewrite bind_Ok in Eh.
    injection Eh as <-. done.
  - exists [(h, Payload.data p)], [], []. rewrite !app_nil_r. split; [done|].
    right. exists h, (Payload.data p), txid.
      split_and!; try done; [by rewrite Ea|]. by left.
  - exists [(h, Payload.data p)], [], [message e]. rewrite !app_nil_r. split; [done|].
    right. exists h, (Payload.data p), txid.
      split_and!; try done; [by rewrite Ea|]. by left.
Qed.

Lemma just_sameSettings (m : MessageHeader.BlockMeta) (s s' : session)
    (tx : ITransaction) (h : MessageHeader.t) (d : list byte) :
  sameSettings s s' -> just s' m tx h d -> just s m tx h d.
Proof.
  intros (Hk & _ & _ & Ha & Hp & _ & Hf & Hv) (txid & p & H1 & H2 & H3 & H4 & H5 & H6).
  exists txid, p. split_and!; try done.
  - rewrite <- Hf, <- Hp. done.
  - by rewrite <- Hv.
  - unfold createMessageHeaderFromTransaction in *. by rewrite <- Hk, <- Ha.
Qed.

Lemma pT_sameSettings (m : MessageHeader.BlockMeta) (s : session) (tx : ITransaction) :
  sameSettings s (pT m s tx).
Proof.
  destruct (pT_shape m s tx) as (ev & sch & lg & -> & _). by repeat split.
Qed.

Lemma sameSettings_trans (s1 s2 s3 : session) :
  sameSettings s1 s2 -> sameSettings s2 s3 -> sameSettings s1 s3.
Proof. unfold sameSettings. intros ? ?. destruct_and!. split_and!; congruence. Qed.

Lemma pTs_snoc (m : MessageHeader.BlockMeta) (s : session)
    (txs : list ITransaction) (tx : ITransaction) :
  pTs (txs ++ [tx]) m s = pT m (pTs txs m s) tx.
Proof. unfold processTransactions. by rewrite foldl_app. Qed.

(** A block: what the logs gain. *)
Lemma pTs_shape (m : MessageHeader.BlockMeta) (s : session) (txs : list ITransaction) :
  sameSettings s (pTs txs m s)
  /\ knownTxIds (pTs txs m s)
     = LimitedHashSet.addAll (omap attempted txs) (knownTxIds s)
  /\ exists ev sch,
       emitted (pTs txs m s) = emitted s ++ ev
       /\ scheduled (pTs txs m s) = scheduled s ++ sch
       /\ (length ev <= length txs)%nat
       /\ (forall h d, (h, d) ∈ ev -> exists tx, tx ∈ txs /\ just s m tx h d)
       /\ (forall w h d, (w, h, d) ∈ sch ->
             (h, d) ∈ ev /\ MessageHeader.prefix h = prefixString s
             /\ MessageRegistry.getWorker (MessageHeader.type h) (messageRegistry s) = Ok (Some w)).
Proof.
  induction txs as [|tx txs IH] using rev_ind.
  - split_and!; [by repeat split|done|].
    exists [], []. rewrite !app_nil_r. split_and!; try done.
    + intros h d Hin. by apply elem_of_nil in Hin.
    + intros w h d Hin. by apply elem_of_nil in Hin.
  - destruct IH as (Hs & Hk & ev & sch & He & Hc & Hl & Hj & Hw).
    rewrite pTs_snoc.
    destruct (pT_shape m (pTs txs m s) tx) as (ev1 & sch1 & lg1 & E & Hcase).
    rewrite E. cbn [knownTxIds emitted scheduled].
    assert (sameSettings s (pT m (pTs txs m s) tx)) as Hs'.
    { eapply sameSettings_trans; [exact Hs|apply pT_sameSettings]. }
    rewrite E in Hs'. split; [exact Hs'|]. split.
    { rewrite omap_app. unfold LimitedHashSet.addAll. rewrite foldl_app.
      fold (LimitedHashSet.addAll (omap attempted txs) (knownTxIds s)).
      rewrite <- Hk. cbn [omap list_omap foldl]. destruct (attempted tx); done. }
    exists (ev ++ ev1), (sch ++ sch1).
    rewrite He, Hc, <- !app_assoc. split; [done|]. split; [done|].
    rewrite !length_app. cbn [length].
    destruct Hcase as [[-> ->]|(h & d & txid & -> & Hj1 & _ & _ & Hsch)].
    + rewrite !app_nil_r. split_and!.
      * cbn [length]. lia.
      * intros h d Hin. destruct (Hj h d Hin) as (tx' & Hin' & Hj').
        exists tx'. split; [set_solver|done].
      * done.
    + split_and!.
      * cbn [length]. lia.
      * intros h' d' [Hin|Hin]%elem_of_app.
        -- destruct (Hj h' d' Hin) as (tx' & Hin' & Hj').
           exists tx'. split; [set_solver|done].
        -- apply list_elem_of_singleton in Hin. injection Hin as -> ->.
           exists tx. split; [set_solver|]. by eapply just_sameSettings.
      * destruct Hs as (_ & _ & _ & _ & Hp & Hr & _).
        intros w h' d' [Hin|Hin]%elem_of_app.
        -- destruct (Hw w h' d' Hin) as (? & ? & ?). split_and!; [set_solver|done|done].
        -- destruct Hsch as [->|(w1 & -> & Hp1 & Hw1)]; [by apply elem_of_nil in Hin|].
           apply list_elem_of_singleton in Hin. injection Hin as -> -> ->.
           split_and!; [set_solver|congruence|congruence].
Qed.

(** A transaction whose id the bounded set holds changes nothing. *)
Lemma pT_known (m : MessageHeader.BlockMeta) (s : session) (tx : ITransaction)
    (txid : jsstring) :
  verboseData tx = Some txid ->
  txid ∈ LimitedHashSet.set (knownTxIds s) ->
  pT m s tx = s.
Proof.
  intros Hv Hin. unfold processTransaction. rewrite Hv.
  rewrite (LimitedHashSetFacts.tryAdd_present _ _ Hin). cbn [negb].
  destruct (Z.odd _); [done|]. destruct (_ <? _); [done|].
  by destruct (negb _).
Qed.

Lemma pT_unattempted (m : MessageHeader.BlockMeta) (s : session) (tx : ITransaction)
    (txid : jsstring) :
  verboseData tx = Some txid -> attempted tx = None -> pT m s tx = s.
Proof.
  intros Hv. unfold processTransaction, attempted. rewrite Hv.
  destruct (Z.odd _); [done|]. destruct (_ <? _); [done|].
  by destruct (negb _).
Qed.

(** The bounded set of a session stays well formed. *)
Lemma pTs_setInv (m : MessageHeader.BlockMeta) (s : session) (txs : list ITransaction) :
  setInv (knownTxIds s) -> setInv (knownTxIds (pTs txs m s)).
Proof.
  intros Hinv. destruct (pTs_shape m s txs) as (_ & -> & _).
  by apply ContainerFacts.addAll_inv.
Qed.

Lemma create_setInv (PrivateKey_toPublicKey : jsstring -> result jsstring)
    (key : PrivateKeyArg) (prefix : jsstring) (s : session) :
  create PrivateKey_toPublicKey PublicKey_toAddress key prefix = Ok s ->
  setInv (knownTxIds s).
Proof.
  unfold create. destruct (toBigInt key); [|done]. rewrite bind_Ok.
  destruct (LimitedHashSet.new 5000) as [known|] eqn:Ek; [|done]. rewrite bind_Ok.
  destruct (PrivateKey_toPublicKey _); [|done]. rewrite bind_Ok.
  destruct (Utils.hexToBytes _); [|done]. rewrite bind_Ok.
  destruct (PublicKey_toAddress _); [|done]. rewrite bind_Ok.
  intros [= <-]. cbn [knownTxIds]. by apply (ContainerFacts.new_inv 5000).
Qed.
End Ledger.

End IngestFacts.

Module IngestProperties.
Import Kaspeak IngestSpec ContainerSpec IngestFacts.

(** X25.  [getOutpointIds] does not depend on the order of the inputs
    when their indices are distinct: it joins the transaction ids of the
    inputs in the increasing order of their indices. *)
Theorem getOutpointIds_ignores_input_order (tx tx' : ITransaction) :
  NoDup (index <$> inputs tx) ->
  inputs tx' ≡ₚ inputs tx ->
  getOutpointIds tx' = getOutpointIds tx
  /\ sortByIndex (inputs tx) ≡ₚ inputs tx
  /\ StronglySorted (fun a b => index a < index b) (sortByIndex (inputs tx)).
Proof.
  intros Hnd Hp.
  assert (forall l, NoDup (index <$> l) ->
            StronglySorted (fun a b => index a < index b) (sortByIndex l)) as Hs.
  { intros l Hl. apply sorted_strict; [|apply sortByIndex_sorted].
    by rewrite sortByIndex_perm. }
  split_and!.
  - unfold getOutpointIds. f_equal. f_equal.
    apply sorted_by_index_unique.
    + apply Hs. by rewrite Hp.
    + by apply Hs.
    + by rewrite !sortByIndex_perm.
  - apply sortByIndex_perm.
  - by apply Hs.
Qed.

Lemma getOutpointIds_ignores_input_order_witness :
  getOutpointIds (mkTx (reverse sampleInputs) [] None)
  = getOutpointIds (mkTx sampleInputs [] None)
  /\ sortByIndex sampleInputs ≡ₚ sampleInputs
  /\ StronglySorted (fun a b => index a < index b) (sortByIndex sampleInputs).
Proof.
  apply (getOutpointIds_ignores_input_order
           (mkTx sampleInputs [] None) (mkTx (reverse sampleInputs) [] None)).
  - cbn. repeat constructor; set_solver.
  - cbn [inputs]. apply reverse_Permutation.
Defined.

Section Ledger.
Context {Fields Obj Worker : Type}.
Variable PublicKey_toAddress : jsstring -> result jsstring.
Variable verifyMessage : jsstring -> jsstring -> jsstring -> result bool.

Local Abbreviation session := (Kaspeak.t Fields Obj Worker).
Local Abbreviation pT := (processTransaction PublicKey_toAddress verifyMessage).
Local Abbreviation pTs := (processTransactions PublicKey_toAddress verifyMessage).

(** X26.  Processing the transactions of a block leaves the keys, the
    prefix, the registry and the switches of the session as they were and
    only appends to the events, at most one for each transaction; and
    behind every event it appends stands a transaction of the block that
    has an id, whose payload parses to the data of the event, carries the
    prefix of the session if the prefix filter is on, and has a signature
    that [verify] accepts if the signature check is on. *)
Theorem events_are_justified (blockMeta : MessageHeader.BlockMeta)
    (s : session) (txs : list ITransaction) :
  let s' := pTs txs blockMeta s in
  sameSettings s s'
  /\ exists ev,
       emitted s' = emitted s ++ ev
       /\ (length ev <= length txs)%nat
       /\ forall h d, (h, d) ∈ ev ->
            exists tx, tx ∈ txs
              /\ justified PublicKey_toAddress verifyMessage s blockMeta tx h d.
Proof.
  cbv zeta.
  destruct (pTs_shape PublicKey_toAddress verifyMessage blockMeta s txs)
    as (Hs & _ & ev & sch & He & _ & Hl & Hj & _).
  split; [done|]. by exists ev.
Qed.

(** X27.  A worker is queued only together with an event that the same
    call appends: for a message whose prefix is that of the session, and
    it is the worker registered for the type of the message.  This holds
    also with the prefix filter switched off. *)
Theorem workers_run_for_own_prefix (blockMeta : MessageHeader.BlockMeta)
    (s : session) (txs : list ITransaction) :
  let s' := pTs txs blockMeta s in
  exists ev sch,
    emitted s' = emitted s ++ ev
    /\ scheduled s' = scheduled s ++ sch
    /\ forall w h d, (w, h, d) ∈ sch ->
         (h, d) ∈ ev
         /\ MessageHeader.prefix h = prefixString s
         /\ MessageRegistry.getWorker (MessageHeader.type h) (messageRegistry s)
            = Ok (Some w).
Proof.
  cbv zeta.
  destruct (pTs_shape PublicKey_toAddress verifyMessage blockMeta s txs)
    as (_ & _ & ev & sch & He & Hc & _ & _ & Hw).
  exists ev, sch. split; [done|]. split; [done|]. exact Hw.
Qed.

(** X28.  A transaction with an id that is new to the bounded set is not
    delivered again while fewer transactions than the capacity of the set
    follow it: processing it again then changes nothing. *)
Theorem delivered_transaction_is_not_redelivered
    (blockMeta : MessageHeader.BlockMeta) (s : session) (tx : ITransaction)
    (txs : list ITransaction) (txid : jsstring) :
  setInv (knownTxIds s) ->
  verboseData tx = Some txid ->
  LimitedHashSet.has txid (knownTxIds s) = false ->
  Z.of_nat (length txs) < LimitedHashSet.capacity (knownTxIds s) ->
  let s2 := pTs txs blockMeta (pT blockMeta s tx) in
  pT blockMeta s2 tx = s2.
Proof.
  intros Hinv Hv Hnew Hlen. cbv zeta.
  destruct (attempted tx) as [txid'|] eqn:Ea.
  2:{ by apply (pT_unattempted _ _ _ _ _ txid). }
  assert (txid' = txid) as ->.
  { unfold attempted in Ea. rewrite Hv in Ea.
    destruct (Z.odd _); [done|]. destruct (_ <? _); [done|].
    destruct (negb _); congruence. }
  apply (pT_known _ _ _ _ _ txid); [done|].
  destruct (pTs_shape PublicKey_toAddress verifyMessage blockMeta (pT blockMeta s tx) txs)
    as (_ & -> & _).
  destruct (pT_shape PublicKey_toAddress verifyMessage blockMeta s tx)
    as (ev & sch & lg & -> & _).
  cbn [knownTxIds]. rewrite Ea.
  apply bool_decide_eq_false in Hnew.
  assert ((LimitedHashSet.tryAdd txid (knownTxIds s)).1 = true) as Hfresh.
  { unfold LimitedHashSet.tryAdd. by rewrite decide_False. }
  destruct (ContainerFacts.tryAdd_inv txid _ Hinv) as (Hi1 & _ & Hc1 & _).
  destruct (ContainerFacts.tryAdd_fresh_queue txid _ Hfresh) as (pre & Hq).
  destruct (ContainerFacts.addAll_keeps txid (omap attempted txs) _ pre [] Hi1 Hq)
    as (pre' & post' & Hq').
  { cbn [length]. rewrite Hc1.
    assert (length (omap attempted txs) <= length txs)%nat; [|lia].
    clear. induction txs as [|t txs IH]; [done|].
    cbn [omap list_omap length]. destruct (attempted t); cbn [length]; lia. }
  destruct (ContainerFacts.addAll_inv (omap attempted txs) _ Hi1) as ((_ & -> & _) & _).
  rewrite Hq'. set_solver.
Qed.
End Ledger.

Lemma delivered_transaction_is_not_redelivered_witness :
  let pT := processTransaction (Fields := unit) (Obj := unit) (Worker := unit)
              KaspeakSpec.anyAddress (fun _ _ _ => Ok true)
              KaspeakSpec.blockMeta0 in
  let s2 := processTransactions KaspeakSpec.anyAddress (fun _ _ _ => Ok true)
              [KaspeakSpec.shortTx] KaspeakSpec.blockMeta0
              (pT KaspeakSpec.session0 KaspeakSpec.shortTx) in
  pT s2 KaspeakSpec.shortTx = s2.
Proof.
  apply (delivered_transaction_is_not_redelivered (Fields := unit) (Obj := unit)
           (Worker := unit) KaspeakSpec.anyAddress (fun _ _ _ => Ok true)
           KaspeakSpec.blockMeta0 KaspeakSpec.session0 KaspeakSpec.shortTx
           [KaspeakSpec.shortTx] (js "tx1")).
  - split_and!; cbn; [constructor|done|lia|lia].
  - reflexivity.
  - reflexivity.
  - cbn. lia.
Defined.

End IngestProperties.

(** ** [src/sdk/message-serializer.ts] *)

Module SerializerProperties.
Import MessageRegistry MessageSerializer ContainerSpec.

Section Codec.
Context {Fields Obj Worker : Type}.
Variable aeadOpen : list byte -> list byte -> list byte -> result (option (list byte)).
Variable aeadSeal : list byte -> list byte -> list byte -> result (list byte).
Variable decompressZstd : list byte -> result (list byte).
Variable compressZstd : list byte -> Z -> result (list byte).
Variable cborDecode : list byte -> result Obj.
Variable cborEncode : Obj -> result (list byte).

Local Abbreviation encode := (MessageSerializer.encode cborEncode compressZstd aeadSeal).
Local Abbreviation decode :=
  (MessageSerializer.decode (Worker := Worker) aeadOpen decompressZstd cborDecode).

(** X29.  [decode] inverts [encode].  With libraries that invert each
    other (the cipher opens what it sealed under the same key and nonce,
    the decompression undoes the compression, whose output is not empty,
    and the CBOR decoder reads back what the encoder wrote), a message of
    a registered class that [encode] serialised with a 24-byte nonce is
    read back by [decode] under the same key, with the header it is given,
    provided [fromPlainObject] of the class restores the fields from what
    [toPlainObject] gives. *)
Theorem decode_inverts_encode
    (registry : gmap Z (RegistryEntry Fields Obj Worker))
    (c : MessageClass Fields Obj) (f : Fields) (h0 : option MessageHeader.t)
    (header : MessageHeader.t) (nonce data : list byte) (key : option (list byte)) :
  (forall k n p ct, length n = 24%nat ->
     aeadSeal k n p = Ok ct -> aeadOpen k n ct = Ok (Some p)) ->
  (forall b level z, compressZstd b level = Ok z ->
     decompressZstd z = Ok b /\ z <> []) ->
  (forall o b, cborEncode o = Ok b -> cborDecode b = Ok o) ->
  getCtor (MessageHeader.type header) registry = Some c ->
  match fromPlainObject c with
  | Some hydrate => hydrate (construct c) (toPlainObject c f) = Ok f
  | None => f = construct c
  end ->
  length nonce = 24%nat ->
  encode nonce (mkInstance c h0 f) key = Ok data ->
  decode registry header data key = Ok (Typed (mkInstance c (Some header) f)).
Proof.
  intros Haead Hzstd Hcbor Hreg Hclass Hnonce.
  unfold MessageSerializer.encode, MessageSerializer.decode, create, decrypt.
  unfold getCtor in Hreg. destruct (registry !! _) as [entry|]; [|done].
  injection Hreg as Hreg. rewrite Hreg, bind_Ok. cbn [class fields].
  destruct (requiresEncryption c && negb (bool_decide (is_Some key))); [done|].
  destruct (cborEncode _) as [cborBuf|] eqn:Ec; [|done]. rewrite bind_Ok.
  destruct (compressZstd _ _) as [compressed|] eqn:Ez; [|done]. rewrite bind_Ok.
  destruct (Hzstd _ _ _ Ez) as [Hd Hne]. apply Hcbor in Ec.
  assert (match fromPlainObject c with
          | Some hydrate =>
              match hydrate (construct c) (toPlainObject c f) with
              | Err e => Ok (UnknownMessage data ("fromPlainObject failed: " +:+ message e) 5)
              | Ok fields' => Ok (Typed (mkInstance c (Some header) fields'))
              end
          | None => Ok (Typed (mkInstance c (Some header) (construct c)))
          end = Ok (Typed (mkInstance c (Some header) f))) as Hend.
  { destruct (fromPlainObject c); [by rewrite Hclass|by rewrite Hclass]. }
  destruct (if requiresEncryption c then key else None) as [k|].
  - destruct (aeadSeal _ _ _) as [ct|] eqn:Es; [|done]. rewrite bind_Ok.
    intros [= <-]. rewrite take_app_length' by done.
    rewrite drop_app_length' by done.
    rewrite (Haead _ _ _ _ Hnonce Es).
    destruct compressed; [done|]. cbn [length Nat.eqb].
    by rewrite Hd, Ec.
  - intros [= <-]. by rewrite Hd, Ec.
Qed.

End Codec.

Lemma decode_inverts_encode_witness :
  let registry : gmap Z (RegistryEntry (list byte) (list byte) unit) :=
    register bytesNote None ∅ in
  let header :=
    MessageHeader.mk [] (MessageHeader.mkPeer [] [] [] false 1) [] 101
                     (Identifier.mk [] []) (MessageHeader.mkBlockMeta [] 0 0) [] in
  MessageSerializer.decode idOpen tagDecompress idCborDecode registry header
    (replicate 24 x00 ++ [x28; x01]) (Some [x07])
  = Ok (Typed (mkInstance bytesNote (Some header) [x01])).
Proof.
  apply (decode_inverts_encode idOpen idSeal tagDecompress tagCompress
           idCborDecode idCborEncode _ bytesNote [x01] None _
           (replicate 24 x00) _ (Some [x07])).
  - intros k n p ct _ [= <-]. done.
  - intros b level z [= <-]. done.
  - intros o b [= <-]. done.
  - reflexivity.
  - reflexivity.
  - reflexivity.
  - reflexivity.
Defined.

End SerializerProperties.

(** ** [src/sdk/kaspeak.ts]: from [createPayload] to the event *)

Module EndToEndFacts.
Import Kaspeak IngestSpec.

Lemma codePoints_ascii (l : jsstring) :
  Forall (fun c => 0 <= c <= 127) l -> codePoints l = l.
Proof.
  induction 1 as [|c l Hc Hl IH]; [done|]. cbn [codePoints].
  unfold isHighSurrogate, isLowSurrogate.
  replace (55296 <=? c) with false by (symmetry; apply Z.leb_gt; lia).
  replace (56320 <=? c) with false by (symmetry; apply Z.leb_gt; lia).
  cbn [andb]. by rewrite IH.
Qed.

Lemma utf8Encode_ascii (l : jsstring) :
  Forall (fun c => 0 <= c <= 127) l -> l ≫= utf8Encode = z2b <$> l.
Proof.
  induction 1 as [|c l Hc Hl IH]; [done|].
  cbn [mbind list_bind fmap list_fmap]. unfold utf8Encode at 1.
  replace (c <? 128) with true by (symmetry; apply Z.ltb_lt; lia).
  cbn [app]. f_equal. apply IH.
Qed.

(** The prefix field of a session whose prefix is at most four ASCII
    characters: the characters, filled up with NUL. *)
Lemma prefixBytes_ascii {Fields Obj Worker : Type} (s : Kaspeak.t Fields Obj Worker) :
  Forall (fun c => 1 <= c <= 127) (prefixString s) ->
  (length (prefixString s) <= 4)%nat ->
  prefixBytes s
  = z2b <$> (prefixString s ++ replicate (4 - length (prefixString s)) 0).
Proof.
  intros Hc Hl. unfold prefixBytes, TextEncoder_encode, Utils.slice, Js.padEnd.
  rewrite drop_0. rewrite take_ge by (rewrite length_app, length_replicate; lia).
  assert (Forall (fun c => 0 <= c <= 127)
            (prefixString s ++ replicate (4 - length (prefixString s)) 0)) as Ha.
  { apply Forall_app. split.
    - eapply Forall_impl; [exact Hc|]. intros c ?. cbn beta in *. lia.
    - apply Forall_replicate. lia. }
  rewrite codePoints_ascii by done. by apply utf8Encode_ascii.
Qed.

Lemma removeNul_padding (l : jsstring) (n : nat) :
  Forall (fun c => 1 <= c <= 127) l ->
  Payload.removeNul (l ++ replicate n 0) = l.
Proof.
  intros Hl. unfold Payload.removeNul, jsstring. rewrite filter_app.
  replace (filter (fun c : Z => c ≠ 0) (replicate n 0)) with (@nil Z).
  2:{ induction n as [|n IH]; [done|]. cbn [replicate].
      by rewrite filter_cons_False by (intros Hn; by apply Hn). }
  rewrite app_nil_r. induction Hl as [|c l Hc Hl IH]; [done|].
  rewrite filter_cons_True by lia. by rewrite IH.
Qed.

Lemma getPrefix_ascii (p : Payload.t) (l : jsstring) (n : nat) :
  Forall (fun c => 1 <= c <= 127) l ->
  Payload.prefix p = z2b <$> (l ++ replicate n 0) ->
  Payload.getPrefix p = l.
Proof.
  intros Hl Hp. unfold Payload.getPrefix. rewrite Hp.
  assert (Forall (fun c => 0 <= c <= 127) (l ++ replicate n 0)) as Ha.
  { apply Forall_app. split.
    - eapply Forall_impl; [exact Hl|]. intros c ?. cbn beta in *. lia.
    - apply Forall_replicate. lia. }
  assert (b2z <$> (z2b <$> (l ++ replicate n 0)) = l ++ replicate n 0) as Hb.
  { clear Hp. induction Ha as [|c k Hc Hk IH]; [done|].
    cbn [fmap list_fmap]. rewrite b2z_z2b by lia. f_equal. apply IH. }
  rewrite PayloadClaims.TextDecoder_decode_ascii.
  - rewrite Hb. by apply removeNul_padding.
  - apply Forall_fmap. eapply Forall_impl; [exact Ha|].
    intros c ?. unfold compose. cbn beta in *. rewrite b2z_z2b by lia. lia.
Qed.

Lemma startsWith_marker (rest : list byte) :
  startsWith (Utils.bytesToHex (Payload.MARKER ++ rest)) (js "4b53504b") = true.
Proof.
  unfold startsWith. apply bool_decide_eq_true.
  rewrite UtilsFacts.bytesToHex_app.
  change (Utils.bytesToHex Payload.MARKER) with (js "4b53504b").
  by rewrite take_app_length.
Qed.

End EndToEndFacts.

Module EndToEndProperties.
Import Kaspeak IngestSpec EndToEndSpec EndToEndFacts.

Section Ledger.
Context {Fields Obj Worker : Type}.
Variable PublicKey_toAddress : jsstring -> result jsstring.
Variable verifyMessage : jsstring -> jsstring -> jsstring -> result bool.
Variable signMessage : jsstring -> jsstring -> result jsstring.

(** X30.  What [createPayload] creates, [processTransactions] delivers.
    Let the prefix of the session be at most four ASCII characters other
    than NUL, the identifier 33 bytes and the data at most 65535 bytes, and
    let the ledger library sign with 64 bytes that it accepts under the
    public key of the session.  Then a transaction that carries the payload
    that [createPayload] returned, with an id that is new and the outpoint
    ids that were signed, makes the session emit one event with the data,
    the message type, the prefix of the session and the identifier. *)
Theorem created_payload_is_delivered (s : Kaspeak.t Fields Obj Worker)
    (outpointIds : jsstring) (messageType : Z) (identifier : Identifier.t)
    (data : list byte) (hex txid addr : jsstring) (tx : ITransaction)
    (blockMeta : MessageHeader.BlockMeta) :
  Forall (fun c => 1 <= c <= 127) (prefixString s) ->
  (length (prefixString s) <= 4)%nat ->
  length (Identifier.bytes identifier) = 33%nat ->
  Z.of_nat (length data) <= 65535 ->
  (forall msg sigHex sg,
     signMessage msg (Utils.intToHex (privateKey s) (Some 32%nat)) = Ok sigHex ->
     Utils.hexToBytes sigHex = Ok sg ->
     length sg = 64%nat
     /\ verifyMessage msg (Utils.bytesToHex sg)
          (drop 2 (Utils.bytesToHex (publicKey s))) = Ok true) ->
  PublicKey_toAddress (Utils.bytesToHex (publicKey s)) = Ok addr ->
  createPayload signMessage s outpointIds messageType identifier data = Ok hex ->
  payload tx = hex ->
  verboseData tx = Some txid ->
  getOutpointIds tx = outpointIds ->
  LimitedHashSet.has txid (knownTxIds s) = false ->
  exists h,
    emitted (processTransactions PublicKey_toAddress verifyMessage [tx] blockMeta s)
    = emitted s ++ [(h, data)]
    /\ MessageHeader.txid h = txid
    /\ MessageHeader.type h = messageType
    /\ MessageHeader.prefix h = prefixString s
    /\ Identifier.bytes (MessageHeader.identifier h) = Identifier.bytes identifier
    /\ MessageHeader.consensusHash h = outpointIds
    /\ MessageHeader.isOwn (MessageHeader.peer h) = bool_decide (address s = addr).
Proof.
  intros Hascii Hlen Hid Hdata Hsig Haddr Hcreate Hpay Hv Hout Hnew.
  unfold createPayload in Hcreate.
  destruct ((messageType <? 0) || (65535 <? messageType)) eqn:Hrange; [done|].
  apply orb_false_elim in Hrange as [H0 H1].
  apply Z.ltb_ge in H0, H1.
  unfold Payload.new, Payload.toUint32 in Hcreate.
  rewrite Z.mod_small in Hcreate by lia.
  replace (65535 <? messageType) with false in Hcreate
    by (symmetry; apply Z.ltb_ge; lia).
  destruct (length (publicKey s) =? 33)%nat eqn:Hpk; [|done].
  apply Nat.eqb_eq in Hpk. cbn [negb] in Hcreate. rewrite bind_Ok in Hcreate.
  unfold Payload_sign, Schnorr_sign in Hcreate.
  destruct (signMessage _ _) as [sigHex|] eqn:Es; [|done]. rewrite bind_Ok in Hcreate.
  destruct (Utils.hexToBytes sigHex) as [sg|] eqn:Eh; [|done].
  rewrite !bind_Ok in Hcreate.
  cbn [Payload.marker Payload.version Payload.prefix Payload.type Payload.id
       Payload.publicKey Payload.data] in Hcreate.
  destruct (Hsig _ _ _ Es Eh) as [Hsg Hver].
  remember (Payload.mk Payload.MARKER Payload.PROTOCOL_VERSION (prefixBytes s)
              messageType (Identifier.bytes identifier) (publicKey s) sg data)
    as p eqn:Ep.
  assert (Payload.prefix p
          = z2b <$> (prefixString s ++ replicate (4 - length (prefixString s)) 0))
    as Hpre.
  { rewrite Ep. cbn [Payload.prefix]. by apply prefixBytes_ascii. }
  assert (PayloadSpec.wf p) as Hwf.
  { rewrite Ep.
    split; cbn [Payload.marker Payload.version Payload.prefix Payload.type
                Payload.id Payload.publicKey Payload.signature Payload.data];
      try done; try lia.
    rewrite prefixBytes_ascii by done.
    rewrite length_fmap, length_app, length_replicate. lia. }
  unfold Payload.toHex in Hcreate.
  rewrite (PayloadFacts.toBytes_frame p Hwf), bind_Ok in Hcreate.
  injection Hcreate as <-.
  assert (Payload.getPrefix p = prefixString s) as Hgp.
  { by apply (getPrefix_ascii p _ (4 - length (prefixString s))). }
  assert (Payload.fromHex (payload tx) = Ok p) as Hparse.
  { rewrite Hpay. unfold Payload.fromHex.
    rewrite HexFacts.hexToBytes_bytesToHex, bind_Ok.
    rewrite <- (app_nil_r (PayloadSpec.frame p)). by apply PayloadFacts.fromBytes_frame. }
  unfold processTransactions. cbn [foldl]. unfold processTransaction.
  rewrite Hparse, Hv, Hpay, HexFacts.bytesToHex_length, HexFacts.odd_double.
  rewrite (PayloadFacts.frame_length p Hwf).
  replace (Z.of_nat (2 * (143 + length (Payload.data p))) <? Payload.HEADER_SIZE)
    with false by (symmetry; apply Z.ltb_ge; unfold Payload.HEADER_SIZE; lia).
  replace (startsWith (Utils.bytesToHex (PayloadSpec.frame p)) (js "4b53504b"))
    with true.
  2:{ symmetry. unfold PayloadSpec.frame. rewrite (PayloadSpec.wf_marker p Hwf).
      apply startsWith_marker. }
  cbn [negb].
  apply bool_decide_eq_false in Hnew.
  rewrite (LimitedHashSetFacts.tryAdd_absent _ _ Hnew).
  cbn [negb]. rewrite Hgp.
  unfold withKnown.
  cbn [privateKey publicKey publicKeyHex address prefixString knownTxIds
       messageRegistry prefixFilterEnabled signatureVerificationEnabled
       emitted scheduled errorLog].
  rewrite bool_decide_eq_true_2 by done. cbn [negb]. rewrite andb_false_r.
  assert ((if signatureVerificationEnabled s
           then Payload_verify verifyMessage p (getOutpointIds tx)
           else Ok true) = Ok true) as ->.
  { destruct (signatureVerificationEnabled s); [|done].
    unfold Payload_verify, Schnorr_verify.
    replace (Payload.signature p) with sg by (by rewrite Ep).
    rewrite Hsg. cbn [Nat.eqb negb].
    replace (Payload.publicKey p) with (publicKey s) by (by rewrite Ep).
    rewrite Hout. rewrite <- Hver. f_equal. by rewrite Ep. }
  unfold createMessageHeaderFromTransaction, MessageHeader.fromTransaction.
  cbn [privateKey address].
  replace (Payload.publicKey p) with (publicKey s) by (by rewrite Ep).
  rewrite Haddr, bind_Ok.
  replace (Payload.id p) with (Identifier.bytes identifier) by (by rewrite Ep).
  unfold Identifier.fromBytes. rewrite Hid. cbn [Nat.eqb negb]. rewrite bind_Ok.
  eexists. split.
  - unfold emit, callWorker, schedule, logError.
    cbn [privateKey publicKey publicKeyHex address prefixString knownTxIds
         messageRegistry prefixFilterEnabled signatureVerificationEnabled
         emitted scheduled errorLog].
    rewrite bool_decide_eq_true_2 by done.
    replace (Payload.data p) with data by (by rewrite Ep).
    destruct (MessageRegistry.getWorker _ _) as [[w|]|e]; reflexivity.
  - cbn [MessageHeader.txid MessageHeader.type MessageHeader.prefix
         MessageHeader.identifier MessageHeader.consensusHash MessageHeader.peer
         MessageHeader.isOwn Identifier.bytes].
    rewrite Hout. split_and!; try done. by rewrite Ep.
Qed.
End Ledger.

Lemma created_payload_is_delivered_witness :
  exists h,
    emitted (processTransactions KaspeakSpec.anyAddress acceptAll
               [mkTx [] sampleHex (Some (js "tx1"))] KaspeakSpec.blockMeta0 session1)
    = emitted session1 ++ [(h, [x01])]
    /\ MessageHeader.txid h = js "tx1"
    /\ MessageHeader.type h = 7
    /\ MessageHeader.prefix h = prefixString session1
    /\ Identifier.bytes (MessageHeader.identifier h)
       = Identifier.bytes PayloadSpec.sampleIdentifier
    /\ MessageHeader.consensusHash h = []
    /\ MessageHeader.isOwn (MessageHeader.peer h)
       = bool_decide (address session1 = js "kaspatest:q").
Proof.
  apply (created_payload_is_delivered KaspeakSpec.anyAddress acceptAll zeroSigner
           session1 [] 7 PayloadSpec.sampleIdentifier [x01] sampleHex (js "tx1")
           (js "kaspatest:q") (mkTx [] sampleHex (Some (js "tx1")))
           KaspeakSpec.blockMeta0).
  - change (prefixString session1) with [84; 69; 83; 84].
    repeat (constructor; [lia|]). constructor.
  - change (prefixString session1) with [84; 69; 83; 84]. cbn [length]. lia.
  - reflexivity.
  - cbn [length]. lia.
  - intros msg sigHex sg [= <-] [= <-]. split; reflexivity.
  - reflexivity.
  - vm_compute. reflexivity.
  - reflexivity.
  - reflexivity.
  - reflexivity.
  - reflexivity.
Defined.

End EndToEndProperties.
